(** * pydantic-ai-research: history windower, turn driver and filesystem
      protocol server

    A shallow embedding of
    - [filtered_message_history] (src/agent_test_fixed.py),
    - [ToolStateTracker] and [run_with_iter] (src/agent_test_iter.py),
    - the handlers, [handle_request] and [main] of
      src/mcp_servers/filesystem_mcp_fixed.py, and
    - [list_files], [read_file] and [write_file] of
      src/mcp_servers/filesystem_mcp.py,
    together with the properties the specification states about them.

    Python values are modelled as follows: [int] is [Z]; [str] is [string]
    (the UTF-8 bytes of the text); a [dict] used as a map is a [gmap], a
    [set] is a [gset]; a [dict] whose insertion order is observable is an
    association list; [None]-able values are [option]; raised exceptions
    are the [Raise] case of [result].  The handlers of the servers pass the
    file tree along: every call of the logger appends a line to the log
    file, which is a file of that tree. *)

From stdpp Require Import gmap strings list fin_maps pretty.

(** ** Exceptions *)

Inductive exn_kind :=
| TypeError | AttributeError | FileNotFoundError | NotADirectoryError
| IsADirectoryError | FileExistsError | PermissionError | JSONDecodeError
| RuntimeError.

(** An exception object; [exn_msg] is what [str(e)] returns. *)
Record exn := Exn { exn_kind_of : exn_kind; exn_msg : string }.

Inductive result (A : Type) :=
| Ok (a : A)
| Raise (e : exn).
Arguments Ok {A} a.
Arguments Raise {A} e.

#[export] Instance result_ret : MRet result := fun _ a => Ok a.
#[export] Instance result_bind : MBind result := fun _ _ k r =>
  match r with
  | Ok a => k a
  | Raise e => Raise e
  end.

(** ** Text

    A [str] is kept as the bytes of its UTF-8 encoding.  Where the code
    looks at characters ([str.strip], [len], [repr]) the code points are
    recovered from the bytes. *)

Module Text.

(** The value of a byte. *)
Definition byte (c : Ascii.ascii) : N := Ascii.N_of_ascii c.

(** A continuation byte of UTF-8, and its payload. *)
Definition is_cont (c : Ascii.ascii) : bool :=
  ((0x80 <=? byte c) && (byte c <=? 0xBF))%N.
Definition cont (c : Ascii.ascii) : N := (byte c - 0x80)%N.

(** A byte that is part of no well-formed sequence stands for itself, as
    the code point [U+DC00 + byte] (the [surrogateescape] convention of the
    interpreter for text that comes from the system). *)
Definition stray (c : Ascii.ascii) : N := (0xDC00 + byte c)%N.

(** The code points of a text. *)
Fixpoint code_points (s : string) : list N :=
  match s with
  | EmptyString => []
  | String a s1 =>
      if (byte a <? 0x80)%N then byte a :: code_points s1
      else
        match s1 with
        | EmptyString => [stray a]
        | String b s2 =>
            if ((0xC2 <=? byte a) && (byte a <=? 0xDF))%N && is_cont b then
              ((byte a - 0xC0) * 64 + cont b)%N :: code_points s2
            else
              match s2 with
              | EmptyString => stray a :: code_points s1
              | String c s3 =>
                  let v3 := ((byte a - 0xE0) * 4096 + cont b * 64 + cont c)%N in
                  if ((0xE0 <=? byte a) && (byte a <=? 0xEF))%N
                     && is_cont b && is_cont c
                     && (0x800 <=? v3)%N
                     && negb ((0xD800 <=? v3) && (v3 <=? 0xDFFF))%N then
                    v3 :: code_points s3
                  else
                    match s3 with
                    | EmptyString => stray a :: code_points s1
                    | String d s4 =>
                        let v4 := ((byte a - 0xF0) * 262144 + cont b * 4096
                                   + cont c * 64 + cont d)%N in
                        if ((0xF0 <=? byte a) && (byte a <=? 0xF4))%N
                           && is_cont b && is_cont c && is_cont d
                           && (0x10000 <=? v4)%N && (v4 <=? 0x10FFFF)%N then
                          v4 :: code_points s4
                        else stray a :: code_points s1
                    end
              end
        end
  end.

(** The text of one byte. *)
Definition chr (n : N) : string := String (Ascii.ascii_of_N n) EmptyString.

(** The bytes of one code point. *)
Definition encode (cp : N) : string :=
  (if cp <? 0x80 then chr cp
   else if cp <? 0x800 then
     chr (0xC0 + cp / 64) +:+ chr (0x80 + cp mod 64)
   else if (0xDC80 <=? cp) && (cp <=? 0xDCFF) then chr (cp - 0xDC00)
   else if cp <? 0x10000 then
     chr (0xE0 + cp / 4096) +:+ chr (0x80 + (cp / 64) mod 64)
     +:+ chr (0x80 + cp mod 64)
   else
     chr (0xF0 + cp / 262144) +:+ chr (0x80 + (cp / 4096) mod 64)
     +:+ chr (0x80 + (cp / 64) mod 64) +:+ chr (0x80 + cp mod 64))%N.

Definition encode_all (cps : list N) : string :=
  foldr (λ cp s, encode cp +:+ s) "" cps.

(** [len(s)]: the number of code points. *)
Definition len (s : string) : nat := length (code_points s).

(** [c.isspace()]; these are also the characters [str.strip()] removes. *)
Definition isspace (cp : N) : bool :=
  ((0x09 <=? cp) && (cp <=? 0x0D) || (0x1C <=? cp) && (cp <=? 0x20)
   || (cp =? 0x85) || (cp =? 0xA0) || (cp =? 0x1680)
   || (0x2000 <=? cp) && (cp <=? 0x200A)
   || (cp =? 0x2028) || (cp =? 0x2029) || (cp =? 0x202F) || (cp =? 0x205F)
   || (cp =? 0x3000))%N.

(** [s.lstrip()] on code points. *)
Fixpoint lstrip (cps : list N) : list N :=
  match cps with
  | c :: rest => if isspace c then lstrip rest else cps
  | [] => []
  end.

(** [s.strip()] *)
Definition strip (s : string) : string :=
  encode_all (reverse (lstrip (reverse (lstrip (code_points s))))).

(** [n] in [width] hexadecimal digits. *)
Definition hex_digit (n : N) : string :=
  chr (if n <? 10 then 48 + n else 87 + n)%N.
Fixpoint hex (width : nat) (n : N) : string :=
  match width with
  | O => ""
  | S width' => hex width' (n / 16)%N +:+ hex_digit (n mod 16)%N
  end.

Section Repr.

(** [chr(cp).isprintable()] for the code points above [U+007F], as the
    Unicode database of the interpreter has it. *)
Variable isprintable : N → bool.

(** One character inside [repr(s)], between quotes [q]. *)
Definition escape (q cp : N) : string :=
  (if (cp =? q) || (cp =? 92) then chr 92 +:+ chr cp
   else if cp =? 9 then chr 92 +:+ "t"
   else if cp =? 10 then chr 92 +:+ "n"
   else if cp =? 13 then chr 92 +:+ "r"
   else if (cp <? 32) || (cp =? 127) then chr 92 +:+ "x" +:+ hex 2 cp
   else if cp <? 127 then chr cp
   else if isprintable cp then encode cp
   else if cp <? 0x100 then chr 92 +:+ "x" +:+ hex 2 cp
   else if cp <? 0x10000 then chr 92 +:+ "u" +:+ hex 4 cp
   else chr 92 +:+ "U" +:+ hex 8 cp)%N.

(** [repr(s)]: between single quotes, unless the text holds a single quote
    and no double quote. *)
Definition repr (s : string) : string :=
  let cps := code_points s in
  let q : N :=
    if bool_decide (39%N ∈ cps) && negb (bool_decide (34%N ∈ cps))
    then 34%N else 39%N in
  chr q +:+ foldr (λ cp r, escape q cp +:+ r) (chr q) cps.

End Repr.

End Text.

(** ** Messages (pydantic_ai.messages, as far as the code inspects them) *)

Module Messages.

(** The five part classes the windower imports.  Tool arguments and tool
    results are opaque payloads to the code under study. *)
Inductive MessagePart :=
| SystemPromptPart (content : string)
| UserPromptPart (content : string)
| TextPart (content : string)
| ToolCallPart (tool_call_id tool_name args : string)
| ToolReturnPart (tool_call_id content : string).

(** A [ModelMessage]; the code only reads [msg.parts]. *)
Record ModelMessage := Msg { parts : list MessagePart }.

#[export] Instance MessagePart_eq_dec : EqDecision MessagePart.
Proof. solve_decision. Defined.
#[export] Instance ModelMessage_eq_dec : EqDecision ModelMessage.
Proof. solve_decision. Defined.

(** [isinstance(part, C)] *)
Definition is_SystemPromptPart (p : MessagePart) : bool :=
  match p with SystemPromptPart _ => true | _ => false end.
Definition is_ToolCallPart (p : MessagePart) : bool :=
  match p with ToolCallPart _ _ _ => true | _ => false end.
Definition is_ToolReturnPart (p : MessagePart) : bool :=
  match p with ToolReturnPart _ _ => true | _ => false end.

(** [any(isinstance(part, SystemPromptPart) for part in msg.parts)] *)
Definition has_system_prompt (msg : ModelMessage) : bool :=
  existsb is_SystemPromptPart (parts msg).

(** [any(isinstance(part, ToolCallPart) or isinstance(part, ToolReturnPart)
        for part in msg.parts)] *)
Definition has_tool_part (msg : ModelMessage) : bool :=
  existsb (fun p => is_ToolCallPart p || is_ToolReturnPart p) (parts msg).

(** The ids of the tool calls, resp. tool returns, a message carries. *)
Definition call_ids (msg : ModelMessage) : list string :=
  omap (fun p => match p with ToolCallPart i _ _ => Some i | _ => None end)
       (parts msg).
Definition return_ids (msg : ModelMessage) : list string :=
  omap (fun p => match p with ToolReturnPart i _ => Some i | _ => None end)
       (parts msg).

End Messages.

(** ** The history windower (src/agent_test_fixed.py) *)

Module Windower.
Import Messages.

(** [AgentRunResult]: the code only calls [result.all_messages()]. *)
Record AgentRunResult := { all_messages : list ModelMessage }.

(** [enumerate(l)] *)
Definition enumerate {A} (l : list A) : list (nat * A) :=
  zip (seq 0 (length l)) l.

(** Lines 91-99: one pass that fills [tool_call_ids] (id -> index of the
    message; a later call with the same id overwrites the entry) and
    [tool_return_ids]. *)
Definition scan_part (i : nat) (st : gmap string nat * gset string)
    (part : MessagePart) : gmap string nat * gset string :=
  match part with
  | ToolCallPart id _ _ => (<[id := i]> st.1, st.2)
  | ToolReturnPart id _ => (st.1, {[id]} ∪ st.2)
  | _ => st
  end.

Definition scan_message (st : gmap string nat * gset string)
    (im : nat * ModelMessage) : gmap string nat * gset string :=
  foldl (scan_part im.1) st (parts im.2).

Definition scan_tool_ids (msgs : list ModelMessage)
    : gmap string nat * gset string :=
  foldl scan_message (∅, ∅) (enumerate msgs).

(** Lines 106-110: the repair loop.  [included_indices] is mutated while the
    loop runs, and the test [i in included_indices] reads the current set. *)
Definition repair_part (tool_call_ids : gmap string nat)
    (included : gset nat) (part : MessagePart) : gset nat :=
  match part with
  | ToolReturnPart id _ =>
      match tool_call_ids !! id with
      | Some j => {[j]} ∪ included
      | None => included
      end
  | _ => included
  end.

Definition repair_message (tool_call_ids : gmap string nat)
    (included : gset nat) (im : nat * ModelMessage) : gset nat :=
  if decide (im.1 ∈ included)
  then foldl (repair_part tool_call_ids) included (parts im.2)
  else included.

Definition repair (tool_call_ids : gmap string nat) (included : gset nat)
    (msgs : list ModelMessage) : gset nat :=
  foldl (repair_message tool_call_ids) included (enumerate msgs).

(** Line 113: [[msg for i, msg in enumerate(l) if i in included_indices]] *)
Definition select (included : gset nat) (msgs : list ModelMessage)
    : list ModelMessage :=
  (filter (fun im => im.1 ∈ included) (enumerate msgs)).*2.

(** Lines 89-113, for [limit] an integer. *)
Definition apply_limit (limit : Z) (non_system_messages : list ModelMessage)
    : list ModelMessage :=
  if decide (0 < limit)%Z then
    let '(tool_call_ids, _) := scan_tool_ids non_system_messages in
    if decide (limit < Z.of_nat (length non_system_messages))%Z then
      let n := length non_system_messages in
      let k := Z.to_nat limit in
      (* set(range(len - limit, len)) *)
      let included_indices : gset nat := list_to_set (seq (n - k) k) in
      select (repair tool_call_ids included_indices non_system_messages)
             non_system_messages
    else non_system_messages
  else non_system_messages.

(** Line 79: [next((msg for msg in messages if any(...)), None)] *)
Definition system_message_of (messages : list ModelMessage)
    : option ModelMessage :=
  List.find has_system_prompt messages.

(** Lines 82-86 *)
Definition non_system_of (include_tool_messages : bool)
    (messages : list ModelMessage) : list ModelMessage :=
  let non_system_messages :=
    List.filter (fun m => negb (has_system_prompt m)) messages in
  if include_tool_messages then non_system_messages
  else List.filter (fun m => negb (has_tool_part m)) non_system_messages.

Definition filtered_message_history (result : option AgentRunResult)
    (limit : option Z) (include_tool_messages : bool)
    : option (list ModelMessage) :=
  match result with
  | None => None
  | Some r =>
      let messages := all_messages r in
      let system_message := system_message_of messages in
      let non_system_messages := non_system_of include_tool_messages messages in
      let non_system_messages :=
        match limit with
        | Some l => apply_limit l non_system_messages
        | None => non_system_messages
        end in
      Some (match system_message with
            | Some s => [s]
            | None => []
            end ++ non_system_messages)
  end.

End Windower.

(** ** The turn driver (src/agent_test_iter.py) *)

Module Driver.
Import Messages.

(** [chr(10)] *)
Definition nl : string := String (Ascii.ascii_of_nat 10) EmptyString.

(** [bool(s.strip())]: some character of [s] is not white space. *)
Definition strip_nonempty (s : string) : bool :=
  existsb (λ cp, negb (Text.isspace cp)) (Text.code_points s).

(** [d[k] = v] on a [dict]: an existing key keeps its place. *)
Fixpoint dict_set {V} (d : list (string * V)) (k : string) (v : V)
    : list (string * V) :=
  match d with
  | [] => [(k, v)]
  | (k', v') :: d' =>
      if decide (k' = k) then (k, v) :: d' else (k', v') :: dict_set d' k v
  end.

(** The value stored for a tool call: [{"tool_name": ..., "args": ...}]. *)
Record ToolCallInfo := { tool_name : string; args : string }.

Record ToolStateTracker := {
  tool_calls : list (string * ToolCallInfo);
  tool_results : list (string * string);
  text_output : list string;
  final_output : string
}.

(** [ToolStateTracker()] *)
Definition new_tracker : ToolStateTracker :=
  {| tool_calls := []; tool_results := []; text_output := [];
     final_output := "" |}.

Definition add_tool_result (t : ToolStateTracker) (tool_call_id : string)
    (res : string) : ToolStateTracker :=
  {| tool_calls := tool_calls t;
     tool_results := dict_set (tool_results t) tool_call_id res;
     text_output := text_output t;
     final_output := final_output t |}.

Definition add_text (t : ToolStateTracker) (text : string)
    : ToolStateTracker :=
  {| tool_calls := tool_calls t;
     tool_results := tool_results t;
     text_output := text_output t ++ [text];
     final_output := final_output t +:+ text |}.

Definition get_complete_output (t : ToolStateTracker) : string :=
  final_output t.

(** The nodes of an agent run.  [OtherNode] stands for the node kinds the
    driver lets pass (for instance the user prompt node). *)
Inductive Node :=
| ModelRequestNode
| CallToolsNode (model_response_parts : list MessagePart)
| EndNode
| OtherNode.

(** What iterating the agent run produces next: a node, or an exception
    (raised by the model call, by a tool, or on entering [agent.iter]). *)
Inductive Step :=
| Yield (node : Node)
| Throw (e : exn).

(** An entry of the driver's history: [{"role": r, "content": c}]. *)
Record Entry := { role : string; content : string }.

(** The driver's state while it consumes the nodes. *)
Record RunState := {
  tracker : ToolStateTracker;
  stdout : string
}.

(** What a turn leaves behind.  [caller_list] is the state of the list
    object the caller passed as [message_history] (if any): the driver
    appends to that very object when it is non-empty. *)
Record Turn := {
  output : string;
  history : list Entry;
  caller_list : option (list Entry);
  printed : string
}.

Section WithCollaborators.

(** [part.args_as_dict()] and [json.dumps(args, indent=...)]; both can
    raise.  Arguments are opaque payloads. *)
Variable args_as_dict : string → result string.
Variable json_dumps : option nat → string → result string.

(** [tracker.add_tool_call(part)] *)
Definition add_tool_call (t : ToolStateTracker)
    (tool_call_id tool_name args : string) : result ToolStateTracker :=
  a ← args_as_dict args;
  Ok {| tool_calls :=
          dict_set (tool_calls t) tool_call_id
                   {| tool_name := tool_name; args := a |};
        tool_results := tool_results t;
        text_output := text_output t;
        final_output := final_output t |}.

(** Lines 198-212: one part of a model response.  The state reached so far
    is returned also when the part raises. *)
Definition process_part (st : RunState) (part : MessagePart)
    : RunState * option exn :=
  match part with
  | TextPart content =>
      if strip_nonempty content then
        ({| tracker := add_text (tracker st) content;
            stdout := stdout st +:+ content |}, None)
      else (st, None)
  | ToolCallPart id name args =>
      match add_tool_call (tracker st) id name args with
      | Raise e => (st, Some e)
      | Ok t =>
          let st' := {| tracker := t; stdout := stdout st |} in
          match a ← args_as_dict args;
                _ ← json_dumps None a;
                json_dumps (Some 2) a with
          | Raise e => (st', Some e)
          | Ok args_str =>
              ({| tracker := t;
                  stdout := stdout st +:+ nl +:+ "[Tool Call: " +:+ name
                            +:+ "]" +:+ nl +:+ args_str +:+ nl |}, None)
          end
      end
  | _ => (st, None)
  end.

Fixpoint process_parts (st : RunState) (ps : list MessagePart)
    : RunState * option exn :=
  match ps with
  | [] => (st, None)
  | p :: ps' =>
      match process_part st p with
      | (st', None) => process_parts st' ps'
      | (st', Some e) => (st', Some e)
      end
  end.

(** Lines 186-218: the loop over the nodes. *)
Fixpoint consume (st : RunState) (agent_run : list Step)
    : RunState * option exn :=
  match agent_run with
  | [] => (st, None)
  | Throw e :: _ => (st, Some e)
  | Yield node :: rest =>
      match node with
      | ModelRequestNode => consume st rest
      | CallToolsNode ps =>
          match process_parts st ps with
          | (st', None) => consume st' rest
          | (st', Some e) => (st', Some e)
          end
      | EndNode => consume st rest
      | OtherNode => consume st rest
      end
  end.

(** [l[-10:]] *)
Definition last10 {A} (l : list A) : list A := drop (length l - 10) l.

Definition run_with_iter (agent_run : list Step) (user_input : string)
    (message_history : option (list Entry)) : Turn :=
  let tracker0 := new_tracker in
  (* message_history or [] *)
  let filtered_messages :=
    match message_history with
    | Some (e :: h) => e :: h
    | _ => []
    end in
  let st0 := {| tracker := tracker0; stdout := nl +:+ "Agent: " |} in
  match consume st0 agent_run with
  | (st, None) =>
      let complete_output := get_complete_output (tracker st) in
      let appended :=
        filtered_messages ++
          [ {| role := "user"; content := user_input |};
            {| role := "assistant"; content := complete_output |} ] in
      {| output := complete_output;
         history := if decide (10 < length appended) then last10 appended
                    else appended;
         caller_list :=
           match message_history with
           | Some (e :: h) => Some appended
           | other => other
           end;
         printed := stdout st |}
  | (st, Some e) =>
      {| output := "Error: " +:+ exn_msg e;
         history := filtered_messages;
         caller_list := message_history;
         printed := stdout st +:+ nl +:+ nl +:+ "Error: " +:+ exn_msg e +:+ nl |}
  end.

End WithCollaborators.

End Driver.

(** ** What the specification says of a finished or failed turn *)

Module DriverSpec.
Import Messages Driver.

(** [message_history or []] *)
Definition prior_history (message_history : option (list Entry))
    : list Entry :=
  match message_history with
  | Some h => h
  | None => []
  end.

(** The state in which the driver starts to consume nodes. *)
Definition start_state : RunState :=
  {| tracker := new_tracker; stdout := nl +:+ "Agent: " |}.

(** A history entry read as a message of the data model. *)
Definition entry_message (e : Entry) : ModelMessage :=
  if decide (role e = "assistant") then Msg [TextPart (content e)]
  else if decide (role e = "system") then Msg [SystemPromptPart (content e)]
  else Msg [UserPromptPart (content e)].

(** The parts the specification pairs up for one recorded call. *)
Definition call_with_return (results : list (string * string))
    (c : string * ToolCallInfo) : list MessagePart :=
  ToolCallPart c.1 (tool_name c.2) (args c.2) ::
  match list_find (λ r, r.1 = c.1) results with
  | Some (_, (_, v)) => [ToolReturnPart c.1 v]
  | None => []
  end.

(** Spec, section 4.4 (EndNode): the accumulator becomes one assistant text
    message followed by the call/return pairs in call order. *)
Definition finalize_spec (t : ToolStateTracker) : list ModelMessage :=
  [ Msg [TextPart (final_output t)];
    Msg (flat_map (call_with_return (tool_results t)) (tool_calls t)) ].

Section Claims.
Variable args_as_dict : string → result string.
Variable json_dumps : option nat → string → result string.

(** C3 as the specification states it: the new messages end the history
    ([between] leaves room for the message of the user prompt, of which the
    sentence says nothing). *)
Definition finalizes_as_specified (agent_run : list Step)
    (user_input : string) (message_history : option (list Entry)) : Prop :=
  ∀ st, consume args_as_dict json_dumps start_state agent_run = (st, None) →
    ∃ between,
      entry_message <$>
        history (run_with_iter args_as_dict json_dumps agent_run user_input
                   message_history)
      = (entry_message <$> prior_history message_history)
          ++ between ++ finalize_spec (tracker st).

(** C2 as the specification states it. *)
Definition fails_as_specified (agent_run : list Step)
    (user_input : string) (message_history : option (list Entry)) : Prop :=
  ∀ st e, consume args_as_dict json_dumps start_state agent_run = (st, Some e) →
    let turn := run_with_iter args_as_dict json_dumps agent_run user_input
                  message_history in
    (∃ trace, printed turn = trace +:+ "Error: " +:+ exn_msg e +:+ nl) ∧
    output turn = get_complete_output (tracker st) ∧
    history turn = prior_history message_history ∧
    caller_list turn = message_history.

End Claims.

(** The text the model spoke: the non-blank text parts, in node order. *)
Definition spoken_parts (ps : list MessagePart) : list string :=
  omap (λ p, match p with
             | TextPart c => if strip_nonempty c then Some c else None
             | _ => None
             end) ps.

Definition spoken (agent_run : list Step) : list string :=
  flat_map (λ s, match s with
                 | Yield (CallToolsNode ps) => spoken_parts ps
                 | _ => []
                 end) agent_run.

Definition join (l : list string) : string := foldr String.append "" l.

(** Collaborators that never fail, for the scenarios. *)
Definition args_ok (a : string) : result string := Ok a.
Definition dumps_ok (indent : option nat) (a : string) : result string := Ok a.

(** The model speaks, then the run fails. *)
Definition failing_run : list Step :=
  [ Yield ModelRequestNode;
    Yield (CallToolsNode [TextPart "Listing files"]);
    Throw (Exn RuntimeError "boom") ].

(** The model calls a tool, speaks, and the run ends. *)
Definition tool_run : list Step :=
  [ Yield OtherNode; Yield ModelRequestNode;
    Yield (CallToolsNode [ToolCallPart "c1" "list_files" "{}"]);
    Yield ModelRequestNode;
    Yield (CallToolsNode [TextPart "Two files."]);
    Yield EndNode ].

(** The state in which [failing_run] raises. *)
Definition failing_run_state : RunState :=
  {| tracker := {| tool_calls := []; tool_results := [];
                   text_output := ["Listing files"];
                   final_output := "Listing files" |};
     stdout := nl +:+ "Agent: Listing files" |}.

(** The state in which [tool_run] ends. *)
Definition tool_run_state : RunState :=
  {| tracker := {| tool_calls :=
                     [("c1", {| tool_name := "list_files"; args := "{}" |})];
                   tool_results := [];
                   text_output := ["Two files."];
                   final_output := "Two files." |};
     stdout := nl +:+ "Agent: " +:+ nl +:+ "[Tool Call: list_files]" +:+ nl
               +:+ "{}" +:+ nl +:+ "Two files." |}.

(** The model answers with a no-break space and nothing else. *)
Definition nbsp : string := Text.encode 0xA0.
Definition blank_run : list Step :=
  [ Yield ModelRequestNode; Yield (CallToolsNode [TextPart nbsp]);
    Yield EndNode ].

(** A history of one earlier turn. *)
Definition one_turn : list Entry :=
  [ {| role := "user"; content := "hi" |};
    {| role := "assistant"; content := "Hello." |} ].

End DriverSpec.

(** ** JSON values, as [json.loads] returns them and [json.dumps] prints them *)

Module Json.

#[local] Set Warnings "-register-all".

Inductive json :=
| JNull
| JBool (b : bool)
| JNum (n : Z)
| JFloat (f : Z)            (* a float; the model keeps it as a time stamp *)
| JStr (s : string)
| JArr (items : list json)
| JObj (fields : list (string * json)).

(** [d.get(k)] on the items of a [dict]. *)
Fixpoint dict_get (fields : list (string * json)) (k : string)
    : option json :=
  match fields with
  | [] => None
  | (k', v) :: rest => if decide (k' = k) then Some v else dict_get rest k
  end.

(** [type(v).__name__] *)
Definition type_name (v : json) : string :=
  match v with
  | JNull => "NoneType"
  | JBool _ => "bool"
  | JNum _ => "int"
  | JFloat _ => "float"
  | JStr _ => "str"
  | JArr _ => "list"
  | JObj _ => "dict"
  end.

(** [v == s] for a string literal [s] *)
Definition eq_str (v : json) (s : string) : bool :=
  match v with
  | JStr s' => bool_decide (s' = s)
  | _ => false
  end.

(** ['...']: a name between single quotes, as the messages of a call and
    of a missing attribute print it. *)
Definition quote (s : string) : string := "'" +:+ s +:+ "'".

End Json.

(** ** Paths and the file system

    [pathlib.PurePosixPath] and the system calls below it, on a POSIX host
    ([os.linesep] is a line feed, the text encoding is UTF-8).  The tree
    has no symbolic or hard links; every directory can be searched and
    written, every file read and written (a special node can refuse a
    write); names are valid (no NUL character, not too long); a file holds
    text in the encoding of the host.  Of the time stamps only [st_mtime]
    is kept; the clock does not advance during a call. *)

Module Posix.

Definition slash : Ascii.ascii := Ascii.ascii_of_nat 47.
Definition LF : Ascii.ascii := Ascii.ascii_of_nat 10.
Definition CR : Ascii.ascii := Ascii.ascii_of_nat 13.

(** [s.split('/')] *)
Fixpoint split_slash (s : string) : list string :=
  match s with
  | EmptyString => [EmptyString]
  | String c s' =>
      if decide (c = slash) then EmptyString :: split_slash s'
      else match split_slash s' with
           | [] => [String c EmptyString]
           | x :: xs => String c x :: xs
           end
  end.

(** [sep.join(parts)] *)
Fixpoint join_slash (parts : list string) : string :=
  match parts with
  | [] => ""
  | [x] => x
  | x :: xs => x +:+ "/" +:+ join_slash xs
  end.

(** A pure path: its root ([""], ["/"] or ["//"]) and its parts after the
    root. *)
Record Path := { root : string; tail : list string }.

(** [posixpath.splitroot]: two leading slashes are kept, three or more
    collapse to one. *)
Definition root_of (s : string) : string :=
  match s with
  | String c1 (String c2 (String c3 _)) =>
      if decide (c1 = slash) then
        if decide (c2 = slash) then
          if decide (c3 = slash) then "/" else "//"
        else "/"
      else ""
  | String c1 (String c2 EmptyString) =>
      if decide (c1 = slash) then
        if decide (c2 = slash) then "//" else "/"
      else ""
  | String c1 EmptyString => if decide (c1 = slash) then "/" else ""
  | EmptyString => ""
  end.

(** [Path(s)]: empty components and [.] are dropped. *)
Definition parse (s : string) : Path :=
  {| root := root_of s;
     tail := List.filter
               (λ x, negb (bool_decide (x = "")) && negb (bool_decide (x = ".")))
               (split_slash s) |}.

(** [str(path)] *)
Definition to_str (p : Path) : string :=
  match root p, tail p with
  | EmptyString, [] => "."
  | r, t => r +:+ join_slash t
  end.

(** [path.parent] *)
Definition parent (p : Path) : Path :=
  {| root := root p; tail := removelast (tail p) |}.

(** [path.name] *)
Definition name (p : Path) : string := List.last (tail p) "".

(** [path / name] *)
Definition child (p : Path) (n : string) : Path :=
  {| root := root p; tail := tail p ++ [n] |}.

(** A node of the file tree; [mtime] is [st_mtime], [size] is [st_size].

    A [File] holds the bytes that were written to it.  The [st_size] of a
    [Dir] does not change when entries are added (directories are allocated
    in blocks).  A [Special] node is served by a driver instead of holding
    what is written to it: a device such as [/dev/null] ([regular] is
    false), or a file of [procfs], which [stat] reports as a regular file
    of size 0 ([regular] is true).  Reading it gives [text]; a write is
    accepted and dropped, or refused when the node is not [writable]; the
    node stays as it is.  Nodes that block, or whose answers depend on what
    was written to them, are outside the model. *)
Inductive node :=
| File (data : string) (mtime : Z)
| Dir (size : nat) (mtime : Z)
| Special (regular : bool) (size : nat) (mtime : Z) (text : string)
          (writable : bool).

(** The file tree (keyed by the resolved parts from the root), the working
    directory and the clock. *)
Record World := {
  nodes : gmap (list string) node;
  cwd : list string;
  clock : Z
}.

(** The root is always a directory. *)
Definition root_dir (w : World) : node :=
  match nodes w !! [] with
  | Some (Dir size mtime) => Dir size mtime
  | _ => Dir 4096 0
  end.

Definition node_at (w : World) (key : list string) : option node :=
  match key with
  | [] => Some (root_dir w)
  | _ => nodes w !! key
  end.

Inductive errno := ENOENT | ENOTDIR | EISDIR | EEXIST | EACCES.

(** An [OSError]: its [errno] and the file name it carries. *)
Record OSError := { os_errno : errno; filename : Path }.

(** Path resolution: every component is looked up in a directory; [..]
    steps to the parent. *)
Fixpoint walk (w : World) (cur : list string) (comps : list string)
    : errno + list string :=
  match comps with
  | [] => inr cur
  | c :: rest =>
      match node_at w cur with
      | Some (Dir _ _) =>
          walk w (if decide (c = "..") then removelast cur else cur ++ [c])
               rest
      | Some _ => inl ENOTDIR
      | None => inl ENOENT
      end
  end.

Definition resolve (w : World) (p : Path) : errno + list string :=
  walk w (if decide (root p = "") then cwd w else []) (tail p).

(** [os.stat(path)] *)
Definition stat (w : World) (p : Path) : errno + node :=
  match resolve w p with
  | inl e => inl e
  | inr key =>
      match node_at w key with
      | Some n => inr n
      | None => inl ENOENT
      end
  end.

(** [path.exists()], [path.is_file()], [path.is_dir()]: a failing [stat] is
    [False]. *)
Definition path_exists (w : World) (p : Path) : bool :=
  match stat w p with inr _ => true | inl _ => false end.
Definition is_file (w : World) (p : Path) : bool :=
  match stat w p with
  | inr (File _ _) => true
  | inr (Special regular _ _ _ _) => regular
  | _ => false
  end.
Definition is_dir (w : World) (p : Path) : bool :=
  match stat w p with inr (Dir _ _) => true | _ => false end.

(** Whether the path names a special node. *)
Definition is_special (w : World) (p : Path) : bool :=
  match stat w p with inr (Special _ _ _ _ _) => true | _ => false end.

Definition st_size (n : node) : nat :=
  match n with
  | File data _ => String.length data
  | Dir size _ => size
  | Special _ size _ _ _ => size
  end.
Definition st_mtime (n : node) : Z :=
  match n with
  | File _ t => t
  | Dir _ t => t
  | Special _ _ t _ _ => t
  end.

(** [path.absolute()]: the working directory is put in front of a relative
    path; nothing is normalised. *)
Definition absolute (w : World) (p : Path) : Path :=
  if decide (root p = "") then {| root := "/"; tail := cwd w ++ tail p |}
  else p.

(** Universal newlines on reading: [\r\n] and [\r] become [\n]. *)
Fixpoint universal_newlines (s : string) : string :=
  match s with
  | EmptyString => EmptyString
  | String c s' =>
      if decide (c = CR) then
        match s' with
        | String c' s'' =>
            if decide (c' = LF) then String LF (universal_newlines s'')
            else String LF (universal_newlines s')
        | EmptyString => String LF EmptyString
        end
      else String c (universal_newlines s')
  end.

(** Whether a text holds a carriage return. *)
Fixpoint has_cr (s : string) : bool :=
  match s with
  | EmptyString => false
  | String c s' => bool_decide (c = CR) || has_cr s'
  end.

(** [path.read_text()] *)
Definition read_text (w : World) (p : Path) : OSError + string :=
  match stat w p with
  | inl e => inl {| os_errno := e; filename := p |}
  | inr (Dir _ _) => inl {| os_errno := EISDIR; filename := p |}
  | inr (File data _) => inr (universal_newlines data)
  | inr (Special _ _ _ text _) => inr (universal_newlines text)
  end.

(** The key under which the last component of [p] is (to be) stored: all
    components but the last are resolved first. *)
Definition resolve_entry (w : World) (p : Path)
    : errno + list string :=
  match tail p with
  | [] => inl EISDIR
  | _ =>
      match resolve w (parent p) with
      | inl e => inl e
      | inr dir =>
          match node_at w dir with
          | Some (Dir _ _) =>
              let n := name p in
              inr (if decide (n = "..") then removelast dir else dir ++ [n])
          | Some _ => inl ENOTDIR
          | None => inl ENOENT
          end
      end
  end.

(** An entry was added to the directory under [dir]: its [st_mtime] is the
    time of the clock. *)
Definition touch (w : World) (dir : list string)
    : gmap (list string) node :=
  match node_at w dir with
  | Some (Dir size _) => <[dir := Dir size (clock w)]> (nodes w)
  | _ => nodes w
  end.

(** [path.write_text(data)]: the file is created (in its directory, the
    key without its last part) or truncated; on this host the line feed is
    written as it is. *)
Definition write_text (w : World) (p : Path) (data : string)
    : OSError + World :=
  match resolve_entry w p with
  | inl e => inl {| os_errno := e; filename := p |}
  | inr key =>
      match node_at w key with
      | Some (Dir _ _) => inl {| os_errno := EISDIR; filename := p |}
      | Some (Special _ _ _ _ writable) =>
          if writable then inr w
          else inl {| os_errno := EACCES; filename := p |}
      | Some (File _ _) =>
          inr {| nodes := <[key := File data (clock w)]> (nodes w);
                 cwd := cwd w; clock := clock w |}
      | None =>
          inr {| nodes := <[key := File data (clock w)]>
                            (touch w (removelast key));
                 cwd := cwd w; clock := clock w |}
      end
  end.

(** What a stream opened for appending does with [text]: the bytes go to
    the end of the file, whatever it holds by then.  [key] is the place of
    the file in the tree. *)
Definition append_text (w : World) (key : list string) (text : string)
    : World :=
  match nodes w !! key with
  | Some (File data _) =>
      {| nodes := <[key := File (data +:+ text) (clock w)]> (nodes w);
         cwd := cwd w; clock := clock w |}
  | _ => w
  end.

(** [os.mkdir(path)] *)
Definition os_mkdir (w : World) (p : Path) : errno + World :=
  match tail p with
  | [] => inl EEXIST
  | _ =>
      match resolve_entry w p with
      | inl e => inl e
      | inr key =>
          match node_at w key with
          | Some _ => inl EEXIST
          | None =>
              inr {| nodes := <[key := Dir 4096 (clock w)]>
                                (touch w (removelast key));
                     cwd := cwd w; clock := clock w |}
          end
      end
  end.

(** [path.mkdir(parents=False, exist_ok=exist_ok)] *)
Definition mkdir_plain (exist_ok : bool) (w : World) (p : Path)
    : OSError + World :=
  match os_mkdir w p with
  | inr w' => inr w'
  | inl ENOENT => inl {| os_errno := ENOENT; filename := p |}
  | inl e =>
      if exist_ok && is_dir w p then inr w
      else inl {| os_errno := e; filename := p |}
  end.

(** [path.mkdir(parents=True, exist_ok=exist_ok)]: when a parent is
    missing, the parents are made first and the directory after them.  The
    recursion goes up one part at a time; [fuel] counts the parts.  The
    directories made before an error stay: the tree is returned also with
    the error. *)
Fixpoint mkdir_parents (fuel : nat) (exist_ok : bool) (w : World) (p : Path)
    : World * option OSError :=
  match os_mkdir w p with
  | inr w' => (w', None)
  | inl ENOENT =>
      match fuel, tail p with
      | S fuel', _ :: _ =>
          match mkdir_parents fuel' true w (parent p) with
          | (w1, None) =>
              match mkdir_plain exist_ok w1 p with
              | inr w2 => (w2, None)
              | inl e => (w1, Some e)
              end
          | (w1, Some e) => (w1, Some e)
          end
      | _, _ => (w, Some {| os_errno := ENOENT; filename := p |})
      end
  | inl e =>
      if exist_ok && is_dir w p then (w, None)
      else (w, Some {| os_errno := e; filename := p |})
  end.

(** [os.listdir]: the names in a directory (in no specified order; the
    model lists them in the order of the set of keys). *)
Definition listdir (w : World) (p : Path) : OSError + list string :=
  match stat w p with
  | inl e => inl {| os_errno := e; filename := p |}
  | inr (Dir _ _) =>
      match resolve w p with
      | inl e => inl {| os_errno := e; filename := p |}
      | inr dir =>
          inr (omap (λ key : list string,
                       match key with
                       | [] => None
                       | _ => if decide (removelast key = dir)
                              then Some (List.last key "") else None
                       end)
                    (elements (dom (nodes w))))
      end
  | inr _ => inl {| os_errno := ENOTDIR; filename := p |}
  end.

End Posix.

(** ** What the interpreter, its libraries and the start of the process
       provide *)

Module Runtime.
Import Json.

Record Host := {
  (** [chr(cp).isprintable()] above [U+007F] (the Unicode database) *)
  isprintable : N → bool;
  (** [repr] of floats, lists and dicts *)
  py_repr : json → string;
  (** [json.loads]; a text that is not JSON raises [JSONDecodeError] *)
  json_loads : string → result json;
  (** [json.dumps] of a response *)
  json_dumps : json → string;
  (** [%(asctime)s] of a log record created at the given time *)
  asctime : Z → string;
  (** the place in the tree of [LOG_DIR/filesystem_mcp.log], which the
      [FileHandler] of the logger opened for appending when the module was
      loaded (lines 12-40) *)
  log_file : list string;
  (** [__name__] of the server module *)
  module_name : string;
  (** [sys.stdin.isatty()], [sys.stdout.isatty()] *)
  stdin_isatty : bool;
  stdout_isatty : bool
}.

End Runtime.

(** ** The protocol server (src/mcp_servers/filesystem_mcp_fixed.py) *)

Module FilesystemMcpFixed.
Import Json Posix Runtime.

(** [{"error": str(e)}] *)
Definition error_result (e : exn) : json := JObj [("error", JStr (exn_msg e))].

(** [Path(v)]: only a string makes a path (the message is the one of
    Python 3.11). *)
Definition make_path (v : json) : result Path :=
  match v with
  | JStr s => Ok (parse s)
  | _ =>
      Raise (Exn TypeError
               ("expected str, bytes or os.PathLike object, not "
                +:+ type_name v))
  end.

Definition nl : string := String LF "".

(** *** Tool specifications *)

Record ToolSpec := {
  spec_name : string;
  description : string;
  properties : list (string * (string * string));  (* name, type, text *)
  required : option (list string)
}.

(** The list [get_tool_specs] returns. *)
Definition tool_specs : list ToolSpec :=
  [ {| spec_name := "list_files";
       description := "List files and directories in the specified directory";
       properties :=
         [("directory",
           ("string", "Directory path to list (default: current directory)"))];
       required := None |};
    {| spec_name := "read_file";
       description := "Read the contents of a file";
       properties := [("file_path", ("string", "Path to the file to read"))];
       required := Some ["file_path"] |};
    {| spec_name := "write_file";
       description := "Write content to a file";
       properties :=
         [("file_path", ("string", "Path to the file to write"));
          ("content", ("string", "Content to write to the file"))];
       required := Some ["file_path"; "content"] |};
    {| spec_name := "get_file_info";
       description := "Get information about a file or directory";
       properties :=
         [("file_path", ("string", "Path to the file or directory"))];
       required := Some ["file_path"] |} ].

Definition spec_json (s : ToolSpec) : json :=
  JObj [("name", JStr (spec_name s));
        ("description", JStr (description s));
        ("input_schema",
         JObj ([("type", JStr "object");
                ("properties",
                 JObj ((λ p : string * (string * string),
                          (p.1, JObj [("type", JStr p.2.1);
                                      ("description", JStr p.2.2)]))
                       <$> properties s))]
               ++ match required s with
                  | Some r => [("required", JArr (JStr <$> r))]
                  | None => []
                  end))].

(** *** Calling a handler with [**params] *)

(** The parameters of a [def]: name and default value (if any). *)
Record Signature := {
  fn_name : string;
  fn_params : list (string * option json)
}.

Definition sig_list_files : Signature :=
  {| fn_name := "list_files"; fn_params := [("directory", Some (JStr "."))] |}.
Definition sig_read_file : Signature :=
  {| fn_name := "read_file"; fn_params := [("file_path", None)] |}.
Definition sig_write_file : Signature :=
  {| fn_name := "write_file";
     fn_params := [("file_path", None); ("content", None)] |}.
Definition sig_get_file_info : Signature :=
  {| fn_name := "get_file_info"; fn_params := [("file_path", None)] |}.

(** ['a'], ['a' and 'b'], ['a', 'b', and 'c'] *)
Fixpoint name_list_and (names : list string) : string :=
  match names with
  | [] => ""
  | [a] => "and " +:+ quote a
  | a :: rest => quote a +:+ ", " +:+ name_list_and rest
  end.

Definition name_list (names : list string) : string :=
  match names with
  | [a] => quote a
  | [a; b] => quote a +:+ " and " +:+ quote b
  | _ => name_list_and names
  end.

Definition missing_message (f : string) (missing : list string) : string :=
  f +:+ "() missing " +:+ pretty (length missing)
    +:+ " required positional argument"
    +:+ (if decide (length missing = 1) then "" else "s")
    +:+ ": " +:+ name_list missing.

(** The value each parameter is bound to, or its name when it has neither
    an argument nor a default. *)
Definition bind_param (kwargs : list (string * json))
    (p : string * option json) : string + json :=
  match dict_get kwargs p.1, p.2 with
  | Some v, _ => inr v
  | None, Some d => inr d
  | None, None => inl p.1
  end.

Section WithHost.

Variable h : Host.

(** [str(v)], as an f-string formats a value. *)
Definition py_str (v : json) : string :=
  match v with
  | JNull => "None"
  | JBool true => "True"
  | JBool false => "False"
  | JNum n => pretty n
  | JStr s => s
  | _ => py_repr h v
  end.

(** The exception an [OSError] is, with [str(e)]: the file name is printed
    with [repr]. *)
Definition os_exn (e : OSError) : exn :=
  let file := Text.repr (isprintable h) (to_str (filename e)) in
  match os_errno e with
  | ENOENT =>
      Exn FileNotFoundError ("[Errno 2] No such file or directory: " +:+ file)
  | ENOTDIR => Exn NotADirectoryError ("[Errno 20] Not a directory: " +:+ file)
  | EISDIR => Exn IsADirectoryError ("[Errno 21] Is a directory: " +:+ file)
  | EEXIST => Exn FileExistsError ("[Errno 17] File exists: " +:+ file)
  | EACCES => Exn PermissionError ("[Errno 13] Permission denied: " +:+ file)
  end.

(** *** The logger

    Every call of the logger appends one line to the log file (the format
    is the one of line 23) and flushes it.  The copy that goes to the
    standard error stream is not part of the model: the standard streams
    of the process are pipes or a terminal, not files of the tree. *)
Definition log (levelname message : string) (w : World) : World :=
  append_text w (log_file h)
    (asctime h (clock w) +:+ " - filesystem_mcp - " +:+ levelname
     +:+ " - " +:+ message +:+ nl).

Definition debug := log "DEBUG".
Definition info := log "INFO".
Definition warning := log "WARNING".
Definition error := log "ERROR".

(** *** Tool implementations *)

Definition list_files (w : World) (directory : json) : World * json :=
  let w := info ("Listing files in: " +:+ py_str directory) w in
  let failed (w : World) (e : exn) : World * json :=
    (error ("Error listing files: " +:+ exn_msg e) w, error_result e) in
  match make_path directory with
  | Raise e => failed w e
  | Ok path =>
      if negb (path_exists w path) then
        (warning ("Directory not found: " +:+ py_str directory) w,
         JObj [("error",
                JStr ("Directory '" +:+ py_str directory +:+ "' not found"))])
      else
        match listdir w path with
        | inl e => failed w (os_exn e)
        | inr items =>
            let files := List.filter (λ n, is_file w (child path n)) items in
            let directories :=
              List.filter (λ n, is_dir w (child path n)) items in
            let w :=
              info ("Found " +:+ pretty (length files) +:+ " files and "
                    +:+ pretty (length directories) +:+ " directories in "
                    +:+ py_str directory) w in
            (w, JObj [("files", JArr (JStr <$> files));
                      ("directories", JArr (JStr <$> directories));
                      ("path", JStr (to_str (absolute w path)))])
        end
  end.

Definition read_file (w : World) (file_path : json) : World * json :=
  let w := info ("Reading file: " +:+ py_str file_path) w in
  let failed (w : World) (e : exn) : World * json :=
    (error ("Error reading file: " +:+ exn_msg e) w, error_result e) in
  match make_path file_path with
  | Raise e => failed w e
  | Ok path =>
      if negb (path_exists w path) then
        (warning ("File not found: " +:+ py_str file_path) w,
         JObj [("error",
                JStr ("File '" +:+ py_str file_path +:+ "' not found"))])
      else if negb (is_file w path) then
        (warning ("Not a file: " +:+ py_str file_path) w,
         JObj [("error",
                JStr ("'" +:+ py_str file_path +:+ "' is not a file"))])
      else
        match read_text w path with
        | inl e => failed w (os_exn e)
        | inr content =>
            let w :=
              info ("Successfully read " +:+ pretty (Text.len content)
                    +:+ " bytes from " +:+ py_str file_path) w in
            (* the size is asked for after that line was logged *)
            match stat w path with
            | inl e => failed w (os_exn {| os_errno := e; filename := path |})
            | inr st =>
                (w, JObj [("content", JStr content);
                          ("size", JNum (Z.of_nat (st_size st)));
                          ("path", JStr (to_str (absolute w path)))])
            end
        end
  end.

Definition write_file (w : World) (file_path content : json)
    : World * json :=
  let w := info ("Writing to file: " +:+ py_str file_path) w in
  let failed (w : World) (e : exn) : World * json :=
    (error ("Error writing file: " +:+ exn_msg e) w, error_result e) in
  match make_path file_path with
  | Raise e => failed w e
  | Ok path =>
      (* create parent directories if they don't exist *)
      let made :=
        if negb (path_exists w (parent path)) then
          mkdir_parents (length (tail (parent path))) false
            (info ("Creating parent directories for: " +:+ py_str file_path) w)
            (parent path)
        else (w, None) in
      match made with
      | (w, Some e) => failed w (os_exn e)
      | (w, None) =>
          match content with
          | JStr c =>
              match write_text w path c with
              | inl e => failed w (os_exn e)
              | inr w =>
                  let message :=
                    "Successfully wrote " +:+ pretty (Text.len c)
                    +:+ " bytes to " +:+ py_str file_path in
                  let w := info message w in
                  (w, JObj [("success", JBool true);
                            ("message", JStr message);
                            ("path", JStr (to_str (absolute w path)))])
              end
          | _ =>
              failed w (Exn TypeError
                          ("data must be str, not " +:+ type_name content))
          end
      end
  end.

Definition get_file_info (w : World) (file_path : json) : World * json :=
  let w := info ("Getting file info: " +:+ py_str file_path) w in
  let failed (w : World) (e : exn) : World * json :=
    (error ("Error getting file info: " +:+ exn_msg e) w, error_result e) in
  match make_path file_path with
  | Raise e => failed w e
  | Ok path =>
      if negb (path_exists w path) then
        (warning ("File not found: " +:+ py_str file_path) w,
         JObj [("error",
                JStr ("File '" +:+ py_str file_path +:+ "' not found"))])
      else
        match stat w path with
        | inl e => failed w (os_exn {| os_errno := e; filename := path |})
        | inr st =>
            let w :=
              info ("Successfully got file info for " +:+ py_str file_path)
                   w in
            (w, JObj [("name", JStr (name path));
                      ("size", JNum (Z.of_nat (st_size st)));
                      ("modified", JFloat (st_mtime st));
                      ("is_file", JBool (is_file w path));
                      ("is_dir", JBool (is_dir w path));
                      ("path", JStr (to_str (absolute w path)))])
        end
  end.

Definition get_tool_specs (w : World) : World * list ToolSpec :=
  (info "Getting tool specifications" w, tool_specs).

(** The call of [f] with [**params], up to the entry into its body: the
    arguments in the order of the parameters, or the [TypeError] of the
    call. *)
Definition bind_kwargs (sg : Signature) (params : json) : result (list json) :=
  match params with
  | JObj kwargs =>
      match List.find (λ kv : string * json,
                         negb (bool_decide (kv.1 ∈ (fn_params sg).*1)))
                      kwargs with
      | Some (k, _) =>
          Raise (Exn TypeError
                   (fn_name sg +:+ "() got an unexpected keyword argument "
                    +:+ quote k))
      | None =>
          let bound := bind_param kwargs <$> fn_params sg in
          match omap (λ b, match b with inl n => Some n | inr _ => None end)
                     bound with
          | [] =>
              Ok (omap (λ b, match b with inr v => Some v | inl _ => None end)
                       bound)
          | missing =>
              Raise (Exn TypeError (missing_message (fn_name sg) missing))
          end
      end
  | _ =>
      Raise (Exn TypeError
               (module_name h +:+ "." +:+ fn_name sg
                +:+ "() argument after ** must be a mapping, not "
                +:+ type_name params))
  end.

(** The handler bodies, on bound arguments.  Each signature binds as many
    values as its handler takes, so the last case of each is never
    reached. *)
Definition call_list_files (w : World) (args : list json) : World * json :=
  match args with
  | [directory] => list_files w directory
  | _ => (w, JNull)
  end.
Definition call_read_file (w : World) (args : list json) : World * json :=
  match args with
  | [file_path] => read_file w file_path
  | _ => (w, JNull)
  end.
Definition call_write_file (w : World) (args : list json) : World * json :=
  match args with
  | [file_path; content] => write_file w file_path content
  | _ => (w, JNull)
  end.
Definition call_get_file_info (w : World) (args : list json) : World * json :=
  match args with
  | [file_path] => get_file_info w file_path
  | _ => (w, JNull)
  end.

(** [d.get(k)]: a missing key gives [None]. *)
Definition get (fields : list (string * json)) (k : string) : json :=
  default JNull (dict_get fields k).

(** Lines 219-233: the dispatch inside [try]. *)
Definition dispatch (w : World) (function_name params : json)
    : result (World * json) :=
  let run sg call :=
    args ← bind_kwargs sg params;
    let '(w', result) := call w args in
    Ok (w', JObj [("result", result)]) in
  if eq_str function_name "list_files" then
    run sig_list_files call_list_files
  else if eq_str function_name "read_file" then
    run sig_read_file call_read_file
  else if eq_str function_name "write_file" then
    run sig_write_file call_write_file
  else if eq_str function_name "get_file_info" then
    run sig_get_file_info call_get_file_info
  else
    Ok (warning ("Unknown function: " +:+ py_str function_name) w,
        JObj [("error",
               JStr ("Unknown function: " +:+ py_str function_name))]).

Definition handle_request (w : World) (request : json)
    : result (World * json) :=
  match request with
  | JObj fields =>
      let method := get fields "method" in
      let w := info ("Handling request with method: " +:+ py_str method) w in
      if eq_str method "initialize" then
        let w := info "Processing initialize request" w in
        let '(w, specs) := get_tool_specs w in
        let w := info "Initialize response prepared" w in
        Ok (w, JObj [("schema_version", JStr "v1");
                     ("capabilities", JArr [JStr "function_calling"]);
                     ("tool_specs", JArr (spec_json <$> specs))])
      else if eq_str method "execute_function" then
        let function_name := get fields "function_name" in
        let params := default (JObj []) (dict_get fields "parameters") in
        let w :=
          info ("Executing function: " +:+ py_str function_name
                +:+ " with params: " +:+ py_str params) w in
        match dispatch w function_name params with
        | Ok r => Ok r
        | Raise e =>
            Ok (error ("Error executing function " +:+ py_str function_name
                       +:+ ": " +:+ exn_msg e) w,
                error_result e)
        end
      else
        Ok (warning ("Unknown method: " +:+ py_str method) w,
            JObj [("error", JStr ("Unknown method: " +:+ py_str method))])
  | _ =>
      Raise (Exn AttributeError
               (quote (type_name request)
                +:+ " object has no attribute 'get'"))
  end.

(** *** The server loop *)

(** The lines [sys.stdin.readline()] returns, one after the other, until it
    returns the empty string at the end of the input ([stdin] is the text
    as the stream decodes it).  A line keeps its line feed. *)
Fixpoint readlines (stdin : string) : list string :=
  match stdin with
  | EmptyString => []
  | String c s' =>
      if decide (c = LF) then String c EmptyString :: readlines s'
      else match readlines s' with
           | [] => [String c EmptyString]
           | l :: ls => String c l :: ls
           end
  end.

(** Lines 261-291, one round of the loop on a line that was read: the
    document printed.  [except json.JSONDecodeError] comes before
    [except Exception]. *)
Definition serve_line (w : World) (line : string) : World * json :=
  let w := debug ("Received input line: " +:+ Text.strip line) w in
  match request ← json_loads h line; handle_request w request with
  | Ok (w, response) =>
      let w := debug ("Sending response: " +:+ json_dumps h response) w in
      (debug "Response sent and flushed" w, response)
  | Raise e =>
      match exn_kind_of e with
      | JSONDecodeError =>
          let w := error ("Error decoding JSON: " +:+ exn_msg e) w in
          let w := error ("Line content: " +:+ Text.strip line) w in
          (w, JObj [("error", JStr ("Invalid JSON: " +:+ exn_msg e))])
      | _ =>
          let w := error ("Unexpected error: " +:+ exn_msg e) w in
          (w, JObj [("error", JStr ("Server error: " +:+ exn_msg e))])
      end
  end.

(** Lines 253-254 and the round: the loop waits for a line and serves
    it. *)
Definition round (w : World) (line : string) : World * json :=
  serve_line (debug "Waiting for input line..." w) line.

(** The rounds of the loop on lines that were read, and the documents
    printed (one per line, flushed at once). *)
Fixpoint rounds (w : World) (lines : list string) : World * list json :=
  match lines with
  | [] => (w, [])
  | line :: rest =>
      let '(w1, doc) := round w line in
      let '(w2, docs) := rounds w1 rest in
      (w2, doc :: docs)
  end.

(** Lines 251-291: the loop, until [readline] returns the empty string. *)
Fixpoint main_loop (w : World) (lines : list string) : World * list json :=
  match lines with
  | line :: rest =>
      if decide (line = "") then
        (info "End of input stream, shutting down"
              (debug "Waiting for input line..." w), [])
      else
        let '(w1, doc) := round w line in
        let '(w2, docs) := main_loop w1 rest in
        (w2, doc :: docs)
  | [] =>
      (info "End of input stream, shutting down"
            (debug "Waiting for input line..." w), [])
  end.

Definition main (w : World) (stdin : string) : World * list json :=
  let w := info "Filesystem MCP Server main loop starting" w in
  let w := info ("stdin isatty: " +:+ py_str (JBool (stdin_isatty h))) w in
  let w := info ("stdout isatty: " +:+ py_str (JBool (stdout_isatty h))) w in
  let '(w, docs) := main_loop w (readlines stdin) in
  (info "Filesystem MCP Server shutting down" w, docs).

End WithHost.

End FilesystemMcpFixed.

(** ** The FastMCP server (src/mcp_servers/filesystem_mcp.py)

    Its handlers log through a logger of the same name, format and file as
    the protocol server.  The requests are validated before a handler runs:
    [file_path] and [content] are strings, [directory] is a string or
    [None]. *)

Module FilesystemMcp.
Import Json Posix Runtime.

Record ListFilesRequest := { directory : option string }.

Record ListFilesResponse := {
  files : list string;
  directories : list string;
  path : string;
  error : option string
}.

(** [Path(request.directory)]: [None] is not a path. *)
Definition request_path (request : ListFilesRequest) : result Path :=
  match directory request with
  | Some d => Ok (parse d)
  | None =>
      Raise (Exn TypeError
               "expected str, bytes or os.PathLike object, not NoneType")
  end.

(** [f"{request.directory}"] *)
Definition directory_str (request : ListFilesRequest) : string :=
  default "None" (directory request).

Section WithHost.
Variable h : Host.

Abbreviation info := (FilesystemMcpFixed.info h).
Abbreviation warning := (FilesystemMcpFixed.warning h).
Abbreviation log_error := (FilesystemMcpFixed.error h).
Abbreviation os_exn := (FilesystemMcpFixed.os_exn h).

Definition list_files (w : World) (request : ListFilesRequest)
    : World * result ListFilesResponse :=
  let w := info ("Listing files in: " +:+ directory_str request) w in
  let failed (w : World) (e : exn) : World * result ListFilesResponse :=
    let w := log_error ("Error listing files: " +:+ exn_msg e) w in
    (* the handler builds the response from [Path(request.directory)]
       again *)
    (w, path ← request_path request;
        Ok {| files := []; directories := []; path := to_str path;
              error := Some (exn_msg e) |}) in
  match request_path request with
  | Raise e => failed w e
  | Ok path =>
      if negb (path_exists w path) then
        (warning ("Directory not found: " +:+ directory_str request) w,
         Ok {| files := []; directories := []; path := to_str path;
               error := Some ("Directory '" +:+ directory_str request
                              +:+ "' not found") |})
      else
        match listdir w path with
        | inl e => failed w (os_exn e)
        | inr items =>
            let files := List.filter (λ n, is_file w (child path n)) items in
            let directories :=
              List.filter (λ n, is_dir w (child path n)) items in
            let w :=
              info ("Found " +:+ pretty (length files) +:+ " files and "
                    +:+ pretty (length directories) +:+ " directories in "
                    +:+ directory_str request) w in
            (w, Ok {| files := files; directories := directories;
                      path := to_str (absolute w path); error := None |})
        end
  end.

End WithHost.

End FilesystemMcp.

(** ** What the specification says of the handlers *)

Module ServerSpec.
Import Json Posix Runtime FilesystemMcpFixed.

Section WithHost.
Variable h : Host.

(** C5 as the specification states it: after a successful [write_file] of
    [c] to [p], [read_file] of [p] gives [c] back, with its length as the
    size. *)
Definition round_trip (w : World) (p c : string) : Prop :=
  ∀ w' fields,
    write_file h w (JStr p) (JStr c) = (w', JObj fields) →
    dict_get fields "success" = Some (JBool true) →
    ∃ abs_path,
      (read_file h w' (JStr p)).2
      = JObj [("content", JStr c);
              ("size", JNum (Z.of_nat (String.length c)));
              ("path", JStr abs_path)].

(** Parameters that fit the schema of a tool: an object that holds the
    required fields, in which every property has the type the schema gives
    it (all properties are strings). *)
Definition valid_for (s : ToolSpec) (params : json) : Prop :=
  ∃ kwargs,
    params = JObj kwargs ∧
    (∀ f, f ∈ default [] (required s) → is_Some (dict_get kwargs f)) ∧
    (∀ k v text, dict_get kwargs k = Some v →
                 (k, ("string", text)) ∈ properties s →
                 ∃ str, v = JStr str).

(** C9 as the specification states it: a handler only receives validated
    input, that is, when the call enters the body of the handler the
    parameters fit the schema. *)
Definition validated_before_invocation (s : ToolSpec) (sg : Signature)
    (params : json) : Prop :=
  ∀ args, bind_kwargs h sg params = Ok args → valid_for s params.

(** The tree when [handle_request] has logged the method, the function and
    the parameters of an [execute_function] request (lines 198 and 216). *)
Definition announced (w : World) (fields : list (string * json)) : World :=
  info h ("Executing function: " +:+ py_str h (get fields "function_name")
          +:+ " with params: "
          +:+ py_str h (default (JObj []) (dict_get fields "parameters")))
    (info h ("Handling request with method: "
             +:+ py_str h (get fields "method")) w).

End WithHost.

(** C7 as the specification states it: the result of [list_files] on a
    missing directory carries all four fields. *)
Definition four_fields (directory : string) (result : json) : Prop :=
  ∃ fields,
    result = JObj fields ∧
    dict_get fields "files" = Some (JArr []) ∧
    dict_get fields "directories" = Some (JArr []) ∧
    dict_get fields "path" = Some (JStr directory) ∧
    dict_get fields "error"
      = Some (JStr ("Directory '" +:+ directory +:+ "' not found")).

(** The signature of each registered operation. *)
Definition signatures : list Signature :=
  [sig_list_files; sig_read_file; sig_write_file; sig_get_file_info].

End ServerSpec.

(** ** Worlds and requests used in the scenarios *)

Module ServerScenarios.
Import Json Posix Runtime FilesystemMcpFixed.

(** A small tree: [/home/agent] (the working directory, in which the
    server keeps its log) with one file, [/tmp], the device [/dev/null] and
    the file [/proc/version]. *)
Definition demo_world : World :=
  {| nodes := <[ ["home"] := Dir 4096 100 ]>
              (<[ ["home"; "agent"] := Dir 4096 100 ]>
              (<[ ["home"; "agent"; "readme.md"] := File "hello" 200 ]>
              (<[ ["home"; "agent"; "filesystem_mcp.log"]
                    := File ("started" +:+ nl) 250 ]>
              (<[ ["tmp"] := Dir 4096 100 ]>
              (<[ ["dev"] := Dir 4096 100 ]>
              (<[ ["dev"; "null"] := Special false 0 100 "" true ]>
              (<[ ["proc"] := Dir 0 100 ]>
              (<[ ["proc"; "version"]
                    := Special true 0 100 "Linux version 6.1" false ]>
               ∅))))))));
     cwd := ["home"; "agent"];
     clock := 300 |}.

(** [a\rb]: a text with a carriage return in it. *)
Definition cr_text : string := "a" +:+ String CR "b".
(** [a\nb] *)
Definition lf_text : string := "a" +:+ String LF "b".

(** A [repr] for the values no scenario prints. *)
Definition repr_demo (v : json) : string := "<" +:+ type_name v +:+ ">".

Definition dq : string := String (Ascii.ascii_of_nat 34) "".

(** [{"method": "initialize"}] *)
Definition init_line : string :=
  "{" +:+ dq +:+ "method" +:+ dq +:+ ": " +:+ dq +:+ "initialize" +:+ dq
  +:+ "}" +:+ nl.

(** [{bad json] *)
Definition bad_line : string := "{bad json" +:+ nl.

Definition bad_detail : string :=
  "Expecting property name enclosed in double quotes: line 1 column 2 (char 1)".

(** A parser that knows the lines of the scenarios. *)
Definition loads_demo (line : string) : result json :=
  if decide (line = init_line) then Ok (JObj [("method", JStr "initialize")])
  else Raise (Exn JSONDecodeError bad_detail).

(** A host for the scenarios: a Unicode database that knows the letters of
    Latin-1, times printed as numbers, the log in the working directory of
    [demo_world]. *)
Definition demo_host : Host :=
  {| isprintable := λ cp, ((0xA1 <=? cp) && (cp <=? 0xFF)
                           && negb (cp =? 0xAD))%N;
     py_repr := repr_demo;
     json_loads := loads_demo;
     json_dumps := repr_demo;
     asctime := pretty;
     log_file := ["home"; "agent"; "filesystem_mcp.log"];
     module_name := "__main__";
     stdin_isatty := false;
     stdout_isatty := false |}.

(** [{"method": "execute_function", "function_name": "delete_file",
      "parameters": {"file_path": "x"}}] *)
Definition unknown_function_request : list (string * json) :=
  [("method", JStr "execute_function");
   ("function_name", JStr "delete_file");
   ("parameters", JObj [("file_path", JStr "x")])].

(** [{"method": "execute_function", "function_name": "read_file",
      "parameters": {}}] *)
Definition read_without_path_request : list (string * json) :=
  [("method", JStr "execute_function");
   ("function_name", JStr "read_file");
   ("parameters", JObj [])].

(** [{"method": "execute_function", "function_name": "write_file",
      "parameters": {"file_path": "newdir/x.txt", "content": 5}}] *)
Definition write_number_request : list (string * json) :=
  [("method", JStr "execute_function");
   ("function_name", JStr "write_file");
   ("parameters",
    JObj [("file_path", JStr "newdir/x.txt"); ("content", JNum 5)])].

(** The entry of [write_file] in the list of tools. *)
Definition write_file_spec : ToolSpec :=
  {| spec_name := "write_file";
     description := "Write content to a file";
     properties :=
       [("file_path", ("string", "Path to the file to write"));
        ("content", ("string", "Content to write to the file"))];
     required := Some ["file_path"; "content"] |}.

(** The entry of [read_file] in the list of tools. *)
Definition read_file_spec : ToolSpec :=
  {| spec_name := "read_file";
     description := "Read the contents of a file";
     properties := [("file_path", ("string", "Path to the file to read"))];
     required := Some ["file_path"] |}.

(** The answer to [initialize]. *)
Definition initialize_response : json :=
  JObj [("schema_version", JStr "v1");
        ("capabilities", JArr [JStr "function_calling"]);
        ("tool_specs", JArr (spec_json <$> tool_specs))].

End ServerScenarios.

(** ** Histories used in the scenarios *)

Module WindowerScenarios.
Import Messages.

Definition sys_msg : ModelMessage :=
  Msg [SystemPromptPart "You are a filesystem agent"; UserPromptPart "hello"].
Definition text_msg (s : string) : ModelMessage := Msg [TextPart s].
Definition user_msg (s : string) : ModelMessage := Msg [UserPromptPart s].
Definition call_msg (id : string) : ModelMessage :=
  Msg [ToolCallPart id "list_files" "{}"].
Definition return_msg (id : string) : ModelMessage :=
  Msg [ToolReturnPart id "ok"].

(** Twelve non-system messages after the system message; message 3 calls
    [c1] and message 11 returns it. *)
Definition history12 : list ModelMessage :=
  [ sys_msg;
    user_msg "q0"; text_msg "a1"; user_msg "q2"; call_msg "c1";
    text_msg "a4"; user_msg "q5"; text_msg "a6"; user_msg "q7";
    text_msg "a8"; user_msg "q9"; text_msg "a10"; return_msg "c1" ].

(** A history whose only tool return has no call at all. *)
Definition orphan_history : list ModelMessage :=
  [ user_msg "q0"; return_msg "c9"; text_msg "a2" ].

(** The id [c1] is issued again after its return. *)
Definition reissued_id_history : list ModelMessage :=
  [ call_msg "c1"; text_msg "a1"; return_msg "c1"; call_msg "c1" ].

(** Message 1 returns [c0] and calls [c1] at once. *)
Definition mixed_message_history : list ModelMessage :=
  [ call_msg "c0";
    Msg [ToolReturnPart "c0" "ok"; ToolCallPart "c1" "read_file" "{}"];
    text_msg "a2"; return_msg "c1" ].

(** A second message with a system prompt carries the call. *)
Definition late_system_history : list ModelMessage :=
  [ sys_msg;
    Msg [SystemPromptPart "again"; ToolCallPart "c1" "list_files" "{}"];
    return_msg "c1" ].

(** A short well-formed history. *)
Definition history5 : list ModelMessage :=
  [ sys_msg; call_msg "c1"; return_msg "c1"; text_msg "a3"; user_msg "q4";
    text_msg "a5" ].

End WindowerScenarios.

(** ** The chat loop of the driver (src/agent_test_iter.py, [main]) *)

Module DriverMain.
Import Messages Driver.

(** [c.lower()] on the ASCII range.  No character outside it is lowered to
    one of the letters of [exit], so the test below is the one of the
    source. *)
Definition lower_char (c : Ascii.ascii) : Ascii.ascii :=
  let n := Ascii.nat_of_ascii c in
  if Nat.leb 65 n && Nat.leb n 90 then Ascii.ascii_of_nat (n + 32) else c.

Fixpoint lower (s : string) : string :=
  match s with
  | EmptyString => EmptyString
  | String c s' => String (lower_char c) (lower s')
  end.

(** [user_input.lower() == 'exit'] *)
Definition is_exit (user_input : string) : bool :=
  bool_decide (lower user_input = "exit").

(** How the loop ends: the user typed [exit], or [input()] found the end of
    the input and raised [EOFError], which [main] reports. *)
Inductive Ending := UserExit | EndOfInput.

Record Session := {
  final_history : list Entry;
  turns : list Turn;
  screen : string;
  ending : Ending
}.

Section WithAgent.
Variable args_as_dict : string → result string.
Variable json_dumps : option nat → string → result string.

(** What [agent.iter(user_input, message_history=...)] yields. *)
Variable agent_iter : string → list Entry → list Step.

(** Lines 264-273: the [while True] loop, on the lines the user types. *)
Fixpoint chat (inputs : list string) (message_history : list Entry)
    (out : string) : Session :=
  match inputs with
  | [] =>
      {| final_history := message_history; turns := [];
         screen := out +:+ "> " +:+ nl +:+ nl
                   +:+ "Critical Error: EOF when reading a line" +:+ nl;
         ending := EndOfInput |}
  | user_input :: rest =>
      if is_exit user_input then
        {| final_history := message_history; turns := [];
           screen := out +:+ "> "; ending := UserExit |}
      else
        let turn :=
          run_with_iter args_as_dict json_dumps
            (agent_iter user_input message_history) user_input
            (Some message_history) in
        let s := chat rest (history turn)
                   (out +:+ "> " +:+ printed turn +:+ nl +:+ nl) in
        {| final_history := final_history s; turns := turn :: turns s;
           screen := screen s; ending := ending s |}
  end.

End WithAgent.

(** A history made of whole turns: a user entry, then an assistant entry. *)
Fixpoint whole_turns (h : list Entry) : Prop :=
  match h with
  | [] => True
  | u :: a :: h' => role u = "user" ∧ role a = "assistant" ∧ whole_turns h'
  | _ => False
  end.

(** The ids of the tool calls a run carries. *)
Definition called_ids (agent_run : list Step) : list string :=
  flat_map (λ s, match s with
                 | Yield (CallToolsNode ps) => call_ids (Msg ps)
                 | _ => []
                 end) agent_run.

(** An agent that answers every input with one sentence. *)
Definition echo_agent (user_input : string) (h : list Entry) : list Step :=
  [ Yield ModelRequestNode;
    Yield (CallToolsNode [TextPart ("You said: " +:+ user_input)]);
    Yield EndNode ].

End DriverMain.

(** ** More requests for the scenarios *)

Module MoreScenarios.
Import Json Posix Runtime FilesystemMcpFixed ServerScenarios.

(** [{"method": "execute_function", "function_name": "write_file",
      "parameters": {"file_path": "notes.txt", "content": "a\nb"}}] *)
Definition write_request : list (string * json) :=
  [("method", JStr "execute_function");
   ("function_name", JStr "write_file");
   ("parameters",
    JObj [("file_path", JStr "notes.txt"); ("content", JStr lf_text)])].

(** [{"method": "execute_function", "function_name": "read_file",
      "parameters": {"file_path": "readme.md"}}] *)
Definition read_request : list (string * json) :=
  [("method", JStr "execute_function");
   ("function_name", JStr "read_file");
   ("parameters", JObj [("file_path", JStr "readme.md")])].

End MoreScenarios.

(** ** File trees that change *)

Module PosixOrder.
Import Posix.

(** [w'] is [w] but for the text and the time of the file under [log],
    which is a file in both. *)
Definition logged (log : list string) (w w' : World) : Prop :=
  cwd w' = cwd w ∧ clock w' = clock w ∧
  ∀ k, nodes w' !! k = nodes w !! k ∨
       (k = log ∧ ∃ d t d' t', nodes w !! k = Some (File d t) ∧
                               nodes w' !! k = Some (File d' t')).

(** From [w] to [w'] the tree grows: a directory stays a directory of its
    size, and what is no directory stays as it is, unless it is under one
    of the keys [K]. *)
Definition grows (K : list (list string)) (w w' : World) : Prop :=
  cwd w' = cwd w ∧ clock w' = clock w ∧
  (∀ k s t, node_at w k = Some (Dir s t) →
            ∃ t', node_at w' k = Some (Dir s t')) ∧
  (∀ k n, node_at w k = Some n → (∀ s t, n ≠ Dir s t) → k ∉ K →
          node_at w' k = Some n).

End PosixOrder.

(** ** The other handlers of the FastMCP server
       (src/mcp_servers/filesystem_mcp.py) *)

Module FilesystemMcpHandlers.
Import Json Posix Runtime.

Module ReadFile.
Record Request := { file_path : string }.
Record Response := {
  content : option string;
  size : option nat;
  path : option string;
  error : option string
}.
(** [ReadFileResponse(error=...)] *)
Definition failed (msg : string) : Response :=
  {| content := None; size := None; path := None; error := Some msg |}.
End ReadFile.

Module WriteFile.
Record Request := { file_path : string; content : string }.
Record Response := {
  success : bool;
  message : string;
  path : option string;
  error : option string
}.
End WriteFile.

Section WithHost.
Variable h : Host.

Abbreviation info := (FilesystemMcpFixed.info h).
Abbreviation warning := (FilesystemMcpFixed.warning h).
Abbreviation log_error := (FilesystemMcpFixed.error h).
Abbreviation os_exn := (FilesystemMcpFixed.os_exn h).

Definition read_file (w : World) (request : ReadFile.Request)
    : World * ReadFile.Response :=
  let fp := ReadFile.file_path request in
  let w := info ("Reading file: " +:+ fp) w in
  let failed (w : World) (e : exn) : World * ReadFile.Response :=
    (log_error ("Error reading file: " +:+ exn_msg e) w,
     ReadFile.failed (exn_msg e)) in
  let path := parse fp in
  if negb (path_exists w path) then
    (warning ("File not found: " +:+ fp) w,
     ReadFile.failed ("File '" +:+ fp +:+ "' not found"))
  else if negb (is_file w path) then
    (warning ("Not a file: " +:+ fp) w,
     ReadFile.failed ("'" +:+ fp +:+ "' is not a file"))
  else
    match read_text w path with
    | inl e => failed w (os_exn e)
    | inr content =>
        let w :=
          info ("Successfully read " +:+ pretty (Text.len content)
                +:+ " bytes from " +:+ fp) w in
        match stat w path with
        | inl e => failed w (os_exn {| os_errno := e; filename := path |})
        | inr st =>
            (w, {| ReadFile.content := Some content;
                   ReadFile.size := Some (st_size st);
                   ReadFile.path := Some (to_str (absolute w path));
                   ReadFile.error := None |})
        end
    end.

Definition write_file (w : World) (request : WriteFile.Request)
    : World * WriteFile.Response :=
  let fp := WriteFile.file_path request in
  let w := info ("Writing to file: " +:+ fp) w in
  let failed (w : World) (e : exn) : World * WriteFile.Response :=
    (log_error ("Error writing file: " +:+ exn_msg e) w,
     {| WriteFile.success := false;
        WriteFile.message := "Failed to write to " +:+ fp;
        WriteFile.path := None;
        WriteFile.error := Some (exn_msg e) |}) in
  let path := parse fp in
  let made :=
    if negb (path_exists w (parent path)) then
      mkdir_parents (length (tail (parent path))) false
        (info ("Creating parent directories for: " +:+ fp) w) (parent path)
    else (w, None) in
  match made with
  | (w, Some e) => failed w (os_exn e)
  | (w, None) =>
      match write_text w path (WriteFile.content request) with
      | inl e => failed w (os_exn e)
      | inr w =>
          let message :=
            "Successfully wrote "
            +:+ pretty (Text.len (WriteFile.content request))
            +:+ " bytes to " +:+ fp in
          let w := info message w in
          (w, {| WriteFile.success := true;
                 WriteFile.message := message;
                 WriteFile.path := Some (to_str (absolute w path));
                 WriteFile.error := None |})
      end
  end.

End WithHost.

(** The fields of a response that are set, as a JSON object. *)
Definition set_fields (fields : list (string * option json)) : json :=
  JObj (omap (λ kv : string * option json, pair kv.1 <$> kv.2) fields).

Definition read_response_json (r : ReadFile.Response) : json :=
  set_fields
    [("content", JStr <$> ReadFile.content r);
     ("size", (λ n, JNum (Z.of_nat n)) <$> ReadFile.size r);
     ("path", JStr <$> ReadFile.path r);
     ("error", JStr <$> ReadFile.error r)].

Definition write_response_json (r : WriteFile.Response) : json :=
  set_fields
    [("success", Some (JBool (WriteFile.success r)));
     ("message", Some (JStr (WriteFile.message r)));
     ("path", JStr <$> WriteFile.path r);
     ("error", JStr <$> WriteFile.error r)].

End FilesystemMcpHandlers.

(** ** Properties of the windower *)

Module WindowerFacts.
Import Messages Windower WindowerScenarios.

(** *** Well-formedness of a history *)

(** The pairing invariant: every tool return has a tool call with the same
    id in the same message or in an earlier one. *)
Definition paired (l : list ModelMessage) : Prop :=
  ∀ i m id, l !! i = Some m → id ∈ return_ids m →
    ∃ j mc, j ≤ i ∧ l !! j = Some mc ∧ id ∈ call_ids mc.

(** No tool call is issued under an id after a return of that id. *)
Definition calls_before_returns (l : list ModelMessage) : Prop :=
  ∀ i j m mc id, l !! i = Some m → id ∈ return_ids m →
    l !! j = Some mc → id ∈ call_ids mc → j ≤ i.

(** Calls live in model responses and returns in model requests: no message
    carries both. *)
Definition calls_apart_from_returns (l : list ModelMessage) : Prop :=
  ∀ m id, m ∈ l → id ∈ call_ids m → return_ids m = [].

(** Only the first message of a history may carry a system prompt. *)
Definition system_prompt_first (l : list ModelMessage) : Prop :=
  ∀ i m, l !! i = Some m → has_system_prompt m = true → i = 0.

(** *** [enumerate] *)

Lemma enumerate_snoc {A} (l : list A) (x : A) :
  enumerate (l ++ [x]) = enumerate l ++ [(length l, x)].
Proof.
  unfold enumerate. rewrite length_app, seq_app. simpl.
  rewrite zip_with_app by (by rewrite length_seq). done.
Qed.

Lemma enumerate_lookup {A} (l : list A) (i j : nat) (x : A) :
  enumerate l !! i = Some (j, x) ↔ j = i ∧ l !! i = Some x.
Proof.
  unfold enumerate. rewrite lookup_zip_with_Some. split.
  - intros (a & b & [= -> ->] & Hs & Hl).
    apply lookup_seq in Hs as [-> _]. done.
  - intros [-> Hl]. exists i, x. split; [done|]. split; [|done].
    apply lookup_seq. split; [done|]. by eapply lookup_lt_Some.
Qed.

Lemma enumerate_length {A} (l : list A) : length (enumerate l) = length l.
Proof.
  unfold enumerate. rewrite length_zip_with, length_seq. lia.
Qed.

(** Splitting a filtered list splits the list it was filtered from. *)
Lemma filter_split {A} (P : A → Prop) `{!∀ x, Decision (P x)}
    (l : list A) (pre post : list A) (x : A) :
  filter P l = pre ++ x :: post →
  ∃ l1 l2, l = l1 ++ x :: l2 ∧ filter P l1 = pre ∧ filter P l2 = post ∧ P x.
Proof.
  revert pre. induction l as [|y l IH]; intros pre Hf.
  - by destruct pre.
  - rewrite filter_cons in Hf. destruct (decide (P y)) as [Hy|Hy].
    + destruct pre as [|p pre]; simpl in Hf.
      * injection Hf as -> Hf. exists [], l. by rewrite filter_nil.
      * injection Hf as -> Hf.
        destruct (IH _ Hf) as (l1 & l2 & -> & <- & <- & Hx).
        exists (p :: l1), l2. rewrite filter_cons, decide_True by done.
        done.
    + destruct (IH _ Hf) as (l1 & l2 & -> & <- & <- & Hx).
      exists (y :: l1), l2. rewrite filter_cons, decide_False by done.
      done.
Qed.

(** A selected message comes from an included index, and every included
    message at or before that index is selected at or before it. *)
Lemma select_lookup (I : gset nat) (l : list ModelMessage) a m :
  select I l !! a = Some m →
  ∃ i, l !! i = Some m ∧ i ∈ I ∧
    ∀ j mc, l !! j = Some mc → j ∈ I → j ≤ i →
      ∃ b, b ≤ a ∧ select I l !! b = Some mc.
Proof.
  unfold select. intros Ha.
  apply list_lookup_fmap_Some in Ha as ([i m'] & -> & Ha). simpl.
  pose proof (eq_sym (take_drop_middle _ _ _ Ha)) as Hsplit.
  apply filter_split in Hsplit as (l1 & l2 & Hel & H1 & H2 & Hi).
  simpl in Hi.
  assert (Hlen : length (take a (filter (λ im : nat * ModelMessage, im.1 ∈ I)
                                   (enumerate l))) = a).
  { apply length_take_le. apply lookup_lt_Some in Ha. lia. }
  assert (Hil : enumerate l !! length l1 = Some (i, m')).
  { rewrite Hel. by apply list_lookup_middle. }
  apply enumerate_lookup in Hil as [-> Hm].
  exists (length l1). split; [done|]. split; [done|].
  intros j mc Hj HjI Hle.
  destruct (decide (j = length l1)) as [->|Hne].
  - exists a. split; [done|]. rewrite list_lookup_fmap, Ha. simpl. congruence.
  - assert (Hj1 : l1 !! j = Some (j, mc)).
    { assert (Hj' : enumerate l !! j = Some (j, mc))
        by by apply enumerate_lookup.
      rewrite Hel, lookup_app_l in Hj' by lia. done. }
    assert (Hin : (j, mc) ∈ filter (λ im : nat * ModelMessage, im.1 ∈ I) l1).
    { apply list_elem_of_filter. split; [done|].
      by eapply list_elem_of_lookup_2. }
    rewrite H1 in Hin. apply list_elem_of_lookup_1 in Hin as [b Hb].
    exists b. pose proof (lookup_lt_Some _ _ _ Hb) as Hlt.
    rewrite lookup_take_Some in Hb. destruct Hb as [Hb _].
    split; [lia|]. by rewrite list_lookup_fmap, Hb.
Qed.

(** *** The scan of tool call ids *)

Lemma scan_parts_calls i st ps id :
  (foldl (scan_part i) st ps).1 !! id =
    if decide (id ∈ call_ids (Msg ps)) then Some i else st.1 !! id.
Proof.
  revert st. induction ps as [|p ps IH]; intros st.
  - case_decide as H; [|done]. unfold call_ids in H. simpl in H.
    by apply elem_of_nil in H.
  - change (foldl (scan_part i) st (p :: ps))
      with (foldl (scan_part i) (scan_part i st p) ps).
    rewrite IH.
    assert (Hc : call_ids (Msg (p :: ps)) =
                 match p with
                 | ToolCallPart c _ _ => c :: call_ids (Msg ps)
                 | _ => call_ids (Msg ps)
                 end) by (by destruct p).
    rewrite Hc. destruct p as [?|?|?|c ? ?|? ?]; try done.
    simpl. destruct (decide (id = c)) as [->|Hne].
    + rewrite lookup_insert_eq.
      rewrite (decide_True (P := c ∈ c :: _)) by apply list_elem_of_here.
      by case_decide.
    + rewrite lookup_insert_ne by done.
      destruct (decide (id ∈ call_ids (Msg ps))) as [Hin|Hnin].
      * rewrite decide_True by (by apply list_elem_of_further). done.
      * rewrite decide_False; [done|].
        intros [?|?]%elem_of_cons; done.
Qed.

(** [tool_call_ids[id]] is the index of the last message that calls [id]. *)
Lemma scan_tool_ids_spec (l : list ModelMessage) (id : string) :
  match (scan_tool_ids l).1 !! id with
  | Some j =>
      (∃ mc, l !! j = Some mc ∧ id ∈ call_ids mc) ∧
      (∀ j' mc', l !! j' = Some mc' → id ∈ call_ids mc' → j' ≤ j)
  | None => ∀ j' mc', l !! j' = Some mc' → id ∉ call_ids mc'
  end.
Proof.
  unfold scan_tool_ids. induction l as [|x l IH] using rev_ind.
  - simpl. rewrite lookup_empty. intros j' mc'. by rewrite lookup_nil.
  - rewrite enumerate_snoc, foldl_snoc. unfold scan_message at 1. simpl.
    rewrite scan_parts_calls. destruct x as [ps]. simpl.
    destruct (decide (id ∈ call_ids (Msg ps))) as [Hin|Hnin].
    + split.
      * exists (Msg ps). by rewrite list_lookup_middle.
      * intros j' mc' Hj' _. apply lookup_lt_Some in Hj'.
        rewrite length_app in Hj'. simpl in Hj'. lia.
    + destruct (_ !! id) as [j|] eqn:Hj.
      * destruct IH as [(mc & Hmc & Hc) Hlast]. split.
        -- exists mc. split; [|done]. by apply lookup_app_l_Some.
        -- intros j' mc' Hj' Hc'. apply lookup_snoc_Some in Hj'.
           destruct Hj' as [[_ Hj']|[_ <-]]; [by eapply Hlast|done].
      * intros j' mc' Hj'. apply lookup_snoc_Some in Hj'.
        destruct Hj' as [[_ Hj']|[_ <-]]; [by eapply IH|done].
Qed.

(** *** The repair loop *)

Lemma repair_part_mono ids I ps : I ⊆ foldl (repair_part ids) I ps.
Proof.
  revert I. induction ps as [|p ps IH]; intros I; simpl; [done|].
  etrans; [|apply IH]. destruct p; simpl; try done.
  destruct (ids !! _); set_solver.
Qed.

Lemma repair_part_adds ids I ps id j :
  id ∈ return_ids (Msg ps) → ids !! id = Some j →
  j ∈ foldl (repair_part ids) I ps.
Proof.
  revert I. unfold return_ids. simpl.
  induction ps as [|p ps IH]; intros I Hin Hj; simpl in *; [set_solver|].
  destruct p; simpl in *; try by apply IH.
  apply elem_of_cons in Hin as [->|Hin]; [|by apply IH].
  rewrite Hj. apply repair_part_mono. set_solver.
Qed.

Lemma repair_part_origin ids I ps x :
  x ∈ foldl (repair_part ids) I ps → x ∈ I ∨ ∃ id, ids !! id = Some x.
Proof.
  revert I. induction ps as [|p ps IH]; intros I Hx; simpl in *; [by left|].
  apply IH in Hx as [Hx|Hx]; [|by right].
  destruct p; simpl in *; try by left.
  destruct (ids !! tool_call_id) as [j|] eqn:Hj; [|by left].
  apply elem_of_union in Hx as [Hx|Hx]; [|by left].
  apply elem_of_singleton in Hx as ->. right. eauto.
Qed.

Lemma repair_message_mono ids I im : I ⊆ repair_message ids I im.
Proof.
  unfold repair_message. case_decide; [apply repair_part_mono|done].
Qed.

(** The loop only adds indices. *)
Lemma repair_mono ids I l : I ⊆ repair ids I l.
Proof.
  unfold repair. generalize (enumerate l). intros el. revert I.
  induction el as [|im el IH]; intros I; simpl; [done|].
  etrans; [apply repair_message_mono|apply IH].
Qed.

(** Every return of a message that was in the initial window gets the index
    recorded for its id. *)
Lemma repair_adds ids I l i m id j :
  i ∈ I → l !! i = Some m → id ∈ return_ids m → ids !! id = Some j →
  j ∈ repair ids I l.
Proof.
  unfold repair. revert i m. induction l as [|x l IH] using rev_ind;
    intros i m HiI Hi Hid Hj; [by rewrite lookup_nil in Hi|].
  rewrite enumerate_snoc, foldl_snoc.
  apply lookup_snoc_Some in Hi as [[_ Hi]|[-> ->]].
  - apply repair_message_mono. by eapply IH.
  - unfold repair_message. simpl. rewrite decide_True.
    + destruct m as [ps]. by eapply repair_part_adds.
    + by apply (repair_mono ids I l).
Qed.

(** Every index the loop adds is the recorded index of some call id. *)
Lemma repair_origin ids I l x :
  x ∈ repair ids I l → x ∈ I ∨ ∃ id, ids !! id = Some x.
Proof.
  unfold repair. generalize (enumerate l). intros el. revert x.
  induction el as [|im el IH] using rev_ind; intros x Hx; [by left|].
  rewrite foldl_snoc in Hx. unfold repair_message in Hx at 1.
  case_decide; [|by apply IH].
  apply repair_part_origin in Hx as [Hx|Hx]; [by apply IH|by right].
Qed.

(** *** Pairing is preserved by the window *)

Lemma select_repair_paired (hd l : list ModelMessage) (k : nat) :
  paired (hd ++ l) →
  calls_before_returns (hd ++ l) →
  calls_apart_from_returns (hd ++ l) →
  paired (hd ++ select (repair (scan_tool_ids l).1
                          (list_to_set (seq (length l - k) k)) l) l).
Proof.
  intros Hpair Horder Hsep.
  set (ids := (scan_tool_ids l).1).
  set (W := list_to_set (seq (length l - k) k) : gset nat).
  set (I := repair ids W l).
  intros a m id Ha Hid.
  destruct (decide (a < length hd)) as [Hlt|Hge].
  - rewrite lookup_app_l in Ha by done.
    destruct (Hpair a m id) as (j & mc & Hj & Hmc & Hc);
      [by rewrite lookup_app_l|done|].
    exists j, mc. split; [done|]. split; [|done].
    rewrite lookup_app_l in Hmc by lia. by rewrite lookup_app_l by lia.
  - rewrite lookup_app_r in Ha by lia.
    apply select_lookup in Ha as (i & Hi & HiI & Hsel).
    assert (Hfull : (hd ++ l) !! (length hd + i) = Some m).
    { rewrite lookup_app_r by lia. by replace (length hd + i - length hd) with i by lia. }
    destruct (Hpair _ _ _ Hfull Hid) as (j & mc & Hj & Hmc & Hc).
    destruct (decide (j < length hd)) as [Hjlt|Hjge].
    { exists j, mc. split; [lia|]. split; [|done].
      rewrite lookup_app_l in Hmc by done. by rewrite lookup_app_l. }
    rewrite lookup_app_r in Hmc by lia.
    (* the call recorded for [id] is the last one in [l] *)
    pose proof (scan_tool_ids_spec l id) as Hscan. fold ids in Hscan.
    destruct (ids !! id) as [j2|] eqn:Hj2;
      [|by exfalso; eapply Hscan].
    destruct Hscan as [(mc2 & Hmc2 & Hc2) _].
    assert (Hj2i : j2 ≤ i).
    { assert (length hd + j2 ≤ length hd + i); [|lia].
      eapply (Horder _ _ m mc2 id); [done|done| |done].
      rewrite lookup_app_r by lia.
      by replace (length hd + j2 - length hd) with j2 by lia. }
    (* [m] carries a return, so it was not added by the repair loop *)
    assert (HiW : i ∈ W).
    { apply repair_origin in HiI as [?|(id' & Hid')]; [done|].
      pose proof (scan_tool_ids_spec l id') as Hscan'. fold ids in Hscan'.
      rewrite Hid' in Hscan'. destruct Hscan' as [(m' & Hm' & Hc') _].
      assert (m' = m) as -> by congruence.
      rewrite (Hsep m id') in Hid; [by apply elem_of_nil in Hid| |done].
      apply elem_of_app. right. by eapply list_elem_of_lookup_2. }
    assert (Hj2I : j2 ∈ I) by by eapply repair_adds.
    destruct (Hsel j2 mc2 Hmc2 Hj2I Hj2i) as (b & Hb & Hbsel).
    exists (length hd + b), mc2. split; [lia|]. split; [|done].
    rewrite lookup_app_r by lia.
    by replace (length hd + b - length hd) with b by lia.
Qed.

Lemma apply_limit_paired (hd l : list ModelMessage) (limit : Z) :
  paired (hd ++ l) →
  calls_before_returns (hd ++ l) →
  calls_apart_from_returns (hd ++ l) →
  paired (hd ++ apply_limit limit l).
Proof.
  intros Hpair Horder Hsep. unfold apply_limit.
  case_decide; [|done].
  destruct (scan_tool_ids l) as [ids rets] eqn:Hscan.
  case_decide; [|done].
  replace ids with (scan_tool_ids l).1 by by rewrite Hscan.
  by apply select_repair_paired.
Qed.

(** *** The system message and the other messages *)

Lemma non_system_all (l : list ModelMessage) :
  (∀ m, m ∈ l → has_system_prompt m = false) →
  List.find has_system_prompt l = None ∧
  List.filter (λ m, negb (has_system_prompt m)) l = l.
Proof.
  induction l as [|m l IH]; intros Hl; [done|]. simpl.
  rewrite (Hl m) by apply list_elem_of_here. simpl.
  destruct IH as [-> ->]; [|done].
  intros m' Hm'. apply Hl. by apply list_elem_of_further.
Qed.

(** With the system prompt at the head only, the windower splits a history
    into its head and its tail, or leaves it whole. *)
Lemma system_split (msgs : list ModelMessage) :
  system_prompt_first msgs →
  match system_message_of msgs with Some s => [s] | None => [] end
    ++ non_system_of true msgs = msgs.
Proof.
  intros Hfirst. unfold system_message_of, non_system_of.
  destruct msgs as [|m0 t]; [done|].
  assert (Ht : ∀ m, m ∈ t → has_system_prompt m = false).
  { intros m [i Hi]%list_elem_of_lookup_1.
    destruct (has_system_prompt m) eqn:Hm; [|done].
    by specialize (Hfirst (S i) m Hi Hm). }
  apply non_system_all in Ht as [Hfind Hfilter]. simpl.
  destruct (has_system_prompt m0); simpl; rewrite ?Hfind, Hfilter; done.
Qed.

(** *** Scenarios *)

(** With [limit=5] the window keeps the last five messages, re-adds the call
    and puts the system message first: seven messages in all. *)
Example window_history12 :
  filtered_message_history (Some {| all_messages := history12 |}) (Some 5%Z) true
  = Some [ sys_msg; call_msg "c1"; user_msg "q7"; text_msg "a8";
           user_msg "q9"; text_msg "a10"; return_msg "c1" ].
Proof. vm_compute. reflexivity. Qed.

(** Without tool messages, [limit=2]. *)
Example window_history12_no_tools :
  filtered_message_history (Some {| all_messages := history12 |}) (Some 2%Z) false
  = Some [ sys_msg; user_msg "q9"; text_msg "a10" ].
Proof. vm_compute. reflexivity. Qed.

Example window_no_result :
  filtered_message_history None (Some 5%Z) true = None.
Proof. reflexivity. Qed.

(** *** The pairing invariant of the output *)

(** C1 (as amended): for a history that is itself well formed (only its
    first message may carry a system prompt, every tool return has its call
    at the same or an earlier position, no call is issued under an id after
    a return of that id, no message carries both a call and a return) and
    for every limit (absent, or any integer), the windower with
    [include_tool_messages=True] returns a history in which every tool
    return has a tool call with the same id at the same or an earlier
    position. *)
Theorem windower_keeps_pairing (msgs : list ModelMessage) (limit : option Z) :
  system_prompt_first msgs →
  paired msgs →
  calls_before_returns msgs →
  calls_apart_from_returns msgs →
  ∃ out,
    filtered_message_history (Some {| all_messages := msgs |}) limit true
      = Some out
    ∧ paired out.
Proof.
  intros Hfirst Hpair Horder Hsep.
  pose proof (system_split msgs Hfirst) as Hsplit.
  unfold filtered_message_history. cbn [all_messages].
  eexists. split; [reflexivity|].
  destruct limit as [l|]; [|by rewrite Hsplit].
  apply apply_limit_paired; by rewrite Hsplit.
Qed.

(** Case analysis on an index into a concrete history. *)
Ltac index_cases i :=
  repeat (destruct i as [|i]; [simplify_eq/=|try (by simplify_eq/=)]).

Ltac no_ids H :=
  unfold return_ids, call_ids in H; simpl in H;
  repeat (apply elem_of_cons in H as [H|H]; [try discriminate H|]);
  try (by apply elem_of_nil in H).

Lemma history5_well_formed :
  system_prompt_first history5 ∧ paired history5 ∧
  calls_before_returns history5 ∧ calls_apart_from_returns history5.
Proof.
  split; [|split; [|split]].
  - intros i m Hi Hm. destruct i as [|i]; [done|]. exfalso.
    index_cases i; discriminate Hm.
  - intros i m id Hi Hid. index_cases i; no_ids Hid.
    subst id. exists 1, (call_msg "c1"). repeat split; [lia|].
    apply list_elem_of_here.
  - intros i j m mc id Hi Hid Hj Hc. index_cases i; no_ids Hid.
    subst id. index_cases j; no_ids Hc; lia.
  - intros m id Hm Hc. unfold history5 in Hm.
    repeat (apply elem_of_cons in Hm as [->|Hm]; [try done; no_ids Hc|]).
    by apply elem_of_nil in Hm.
Qed.

Lemma windower_keeps_pairing_witness :
  ∃ out,
    filtered_message_history (Some {| all_messages := history5 |})
      (Some 2%Z) true = Some out
    ∧ paired out.
Proof.
  apply (windower_keeps_pairing history5 (Some 2%Z));
    apply history5_well_formed.
Defined.

Lemma not_paired (l : list ModelMessage) i m id :
  l !! i = Some m → id ∈ return_ids m →
  (∀ j mc, j ≤ i → l !! j = Some mc → id ∉ call_ids mc) →
  ¬ paired l.
Proof.
  intros Hi Hid Hnone Hp.
  destruct (Hp i m id Hi Hid) as (j & mc & Hj & Hmc & Hc).
  by eapply Hnone.
Qed.

(** C1 (as stated) fails: a history that already holds a return without its
    call is handed back with the orphaned return in it, because the repair
    step skips ids that no retained call carries. *)
Lemma windower_orphan_counterexample :
  ¬ (∀ out,
       filtered_message_history (Some {| all_messages := orphan_history |})
         (Some 2%Z) true = Some out →
       paired out).
Proof.
  intros H.
  assert (Hout :
    filtered_message_history (Some {| all_messages := orphan_history |})
      (Some 2%Z) true = Some [return_msg "c9"; text_msg "a2"])
    by (vm_compute; reflexivity).
  apply H in Hout. revert Hout.
  apply (not_paired _ 0 (return_msg "c9") "c9"); [done|apply list_elem_of_here|].
  intros j mc Hj Hmc Hc. index_cases j; first [lia|no_ids Hc].
Qed.

(** Each of the other conditions of well-formedness is needed for the
    pairing of the output. *)

Example reissued_id_breaks_pairing :
  paired reissued_id_history ∧
  filtered_message_history (Some {| all_messages := reissued_id_history |})
    (Some 2%Z) true = Some [return_msg "c1"; call_msg "c1"] ∧
  ¬ paired [return_msg "c1"; call_msg "c1"].
Proof.
  split; [|split; [vm_compute; reflexivity|]].
  - intros i m id Hi Hid. index_cases i; no_ids Hid. subst id.
    exists 0, (call_msg "c1"). repeat split; [lia|]. apply list_elem_of_here.
  - apply (not_paired _ 0 (return_msg "c1") "c1");
      [done|apply list_elem_of_here|].
    intros j mc Hj Hmc Hc. index_cases j; first [lia|no_ids Hc].
Qed.

Example mixed_message_breaks_pairing :
  paired mixed_message_history ∧
  filtered_message_history (Some {| all_messages := mixed_message_history |})
    (Some 1%Z) true
  = Some [Msg [ToolReturnPart "c0" "ok"; ToolCallPart "c1" "read_file" "{}"];
          return_msg "c1"] ∧
  ¬ paired [Msg [ToolReturnPart "c0" "ok"; ToolCallPart "c1" "read_file" "{}"];
            return_msg "c1"].
Proof.
  split; [|split; [vm_compute; reflexivity|]].
  - intros i m id Hi Hid. index_cases i; no_ids Hid; subst id.
    + exists 0, (call_msg "c0"). repeat split; [lia|].
      apply list_elem_of_here.
    + exists 1. eexists. repeat split; [lia|]. apply list_elem_of_here.
  - eapply (not_paired _ 0 _ "c0"); [done|apply list_elem_of_here|].
    intros j mc Hj Hmc Hc. index_cases j; first [lia|no_ids Hc].
Qed.

Example late_system_breaks_pairing :
  paired late_system_history ∧
  filtered_message_history (Some {| all_messages := late_system_history |})
    None true = Some [sys_msg; return_msg "c1"] ∧
  ¬ paired [sys_msg; return_msg "c1"].
Proof.
  split; [|split; [vm_compute; reflexivity|]].
  - intros i m id Hi Hid. index_cases i; no_ids Hid; subst id.
    exists 1. eexists. repeat split; [lia|].
    unfold call_ids. simpl. apply list_elem_of_here.
  - eapply (not_paired _ 1 _ "c1"); [done|apply list_elem_of_here|].
    intros j mc Hj Hmc Hc. index_cases j; first [lia|no_ids Hc].
Qed.

(** *** The floor on the window and the place of the system message *)

Lemma filter_all {A} (P : A → Prop) `{!∀ x, Decision (P x)} (l : list A) :
  (∀ x, x ∈ l → P x) → filter P l = l.
Proof.
  induction l as [|x l IH]; intros Hl; [done|].
  rewrite filter_cons_True by apply Hl, list_elem_of_here.
  f_equal. apply IH. intros y Hy. by apply Hl, list_elem_of_further.
Qed.

Lemma List_filter_all {A} (f : A → bool) (l : list A) :
  (∀ x, x ∈ l → f x = true) → List.filter f l = l.
Proof.
  induction l as [|x l IH]; intros Hl; [done|]. simpl.
  rewrite Hl by apply list_elem_of_here.
  f_equal. apply IH. intros y Hy. by apply Hl, list_elem_of_further.
Qed.

Lemma select_elem_of (I : gset nat) (l : list ModelMessage) m :
  m ∈ select I l → m ∈ l.
Proof.
  unfold select. intros ([i m'] & -> & Hin)%list_elem_of_fmap.
  apply list_elem_of_filter in Hin as [_ Hin].
  apply list_elem_of_lookup_1 in Hin as [a Ha].
  unfold enumerate in Ha. apply lookup_zip_with_Some in Ha
    as (x & y & [= -> ->] & _ & Hy).
  by eapply list_elem_of_lookup_2.
Qed.

Lemma apply_limit_elem_of limit (l : list ModelMessage) m :
  m ∈ apply_limit limit l → m ∈ l.
Proof.
  unfold apply_limit. case_decide; [|done].
  destruct (scan_tool_ids l). case_decide; [|done].
  apply select_elem_of.
Qed.

(** When the last [k] indices are included, at least [k] messages are
    selected. *)
Lemma select_length (I : gset nat) (l : list ModelMessage) (k : nat) :
  k ≤ length l →
  (∀ i, length l - k ≤ i < length l → i ∈ I) →
  k ≤ length (select I l).
Proof.
  intros Hk HI. unfold select. rewrite length_fmap.
  rewrite <- (take_drop (length l - k) (enumerate l)), filter_app, length_app.
  rewrite (filter_all _ (drop _ _)).
  - rewrite length_drop, enumerate_length. lia.
  - intros [i m] [a Ha]%list_elem_of_lookup_1. simpl.
    rewrite lookup_drop in Ha. apply enumerate_lookup in Ha as [-> Ha].
    apply lookup_lt_Some in Ha. apply HI. lia.
Qed.

Lemma apply_limit_length (limit : Z) (l : list ModelMessage) :
  (0 < limit)%Z →
  Z.to_nat limit `min` length l ≤ length (apply_limit limit l).
Proof.
  intros Hpos. unfold apply_limit. rewrite decide_True by done.
  destruct (scan_tool_ids l) as [ids rets].
  case_decide as Hlen; [|lia].
  etrans; [apply Nat.le_min_l|].
  apply select_length; [lia|].
  intros i Hi. apply (repair_mono ids _ l).
  apply elem_of_list_to_set, elem_of_seq. lia.
Qed.

(** [next(...)] returns the first message that has a system prompt. *)
Lemma system_message_first (msgs : list ModelMessage) m :
  m ∈ msgs → has_system_prompt m = true →
  ∃ s pre post,
    system_message_of msgs = Some s ∧ msgs = pre ++ s :: post ∧
    has_system_prompt s = true ∧
    (∀ x, x ∈ pre → has_system_prompt x = false).
Proof.
  unfold system_message_of.
  induction msgs as [|x l IH]; intros Hin Hm; [by apply elem_of_nil in Hin|].
  simpl. destruct (has_system_prompt x) eqn:Hx.
  - exists x, [], l. repeat split; [done|]. intros y Hy.
    by apply elem_of_nil in Hy.
  - apply elem_of_cons in Hin as [->|Hin]; [congruence|].
    destruct (IH Hin Hm) as (s & pre & post & Hfind & -> & Hs & Hpre).
    exists s, (x :: pre), post. repeat split; [done|done|].
    intros y [->|Hy]%elem_of_cons; [done|by apply Hpre].
Qed.

(** C4: for every history and every positive limit, with tool messages
    included, the output holds at least [min(limit, len(rest))] non-system
    messages, where [rest] are the non-system messages of the input; and
    when the input has a message with a system prompt, the output starts
    with the system message, which is the first such message of the input
    (and is that very message when it is the only one, as the data model
    requires). *)
Theorem windower_floor_and_system_first (msgs : list ModelMessage) (limit : Z) :
  (0 < limit)%Z →
  ∃ out,
    filtered_message_history (Some {| all_messages := msgs |}) (Some limit) true
      = Some out
    ∧ Z.to_nat limit
        `min` length (List.filter (λ m, negb (has_system_prompt m)) msgs)
      ≤ length (List.filter (λ m, negb (has_system_prompt m)) out)
    ∧ ∀ m, m ∈ msgs → has_system_prompt m = true →
        ∃ s tl pre post,
          out = s :: tl ∧ msgs = pre ++ s :: post ∧
          has_system_prompt s = true ∧
          (∀ x, x ∈ pre → has_system_prompt x = false) ∧
          ((∀ m', m' ∈ msgs → has_system_prompt m' = true → m' = m) → s = m).
Proof.
  intros Hpos. unfold filtered_message_history. cbn [all_messages].
  eexists. split; [reflexivity|].
  set (rest := List.filter (λ m, negb (has_system_prompt m)) msgs).
  assert (Hrest : ∀ x, x ∈ apply_limit limit rest →
                       negb (has_system_prompt x) = true).
  { intros x Hx%apply_limit_elem_of. unfold rest in Hx.
    apply list_elem_of_In, List.filter_In in Hx as [_ Hx]. done. }
  split.
  - change (non_system_of true msgs) with rest.
    destruct (system_message_of msgs) as [s|] eqn:Hs; simpl.
    + apply List.find_some in Hs as [_ ->]. simpl.
      rewrite List_filter_all by done. by apply apply_limit_length.
    + rewrite List_filter_all by done. by apply apply_limit_length.
  - intros m Hin Hm.
    destruct (system_message_first msgs m Hin Hm)
      as (s & pre & post & -> & Hsplit & Hs & Hpre).
    exists s, (apply_limit limit (non_system_of true msgs)), pre, post.
    repeat split; [done|done|done|].
    intros Huniq. apply Huniq; [|done].
    rewrite Hsplit. apply elem_of_app. right. apply list_elem_of_here.
Qed.

Lemma windower_floor_and_system_first_witness :
  ∃ out,
    filtered_message_history (Some {| all_messages := history12 |})
      (Some 5%Z) true = Some out
    ∧ Z.to_nat 5
        `min` length (List.filter (λ m, negb (has_system_prompt m)) history12)
      ≤ length (List.filter (λ m, negb (has_system_prompt m)) out)
    ∧ ∀ m, m ∈ history12 → has_system_prompt m = true →
        ∃ s tl pre post,
          out = s :: tl ∧ history12 = pre ++ s :: post ∧
          has_system_prompt s = true ∧
          (∀ x, x ∈ pre → has_system_prompt x = false) ∧
          ((∀ m', m' ∈ history12 → has_system_prompt m' = true → m' = m)
           → s = m).
Proof. apply (windower_floor_and_system_first history12 5%Z). lia. Defined.

(** *** A limit that is zero or negative *)

Lemma List_filter_filter {A} (f g : A → bool) (l : list A) :
  List.filter g (List.filter f l) = List.filter (λ x, f x && g x) l.
Proof.
  induction l as [|x l IH]; [done|]. simpl.
  destruct (f x); simpl; [destruct (g x)|]; by rewrite IH.
Qed.

(** C10: with a limit that is zero or negative nothing is cut: the output is
    the first message with a system prompt (if there is one), followed by
    every message without a system prompt that passes the tool-message
    filter, whatever the length of the history. *)
Theorem nonpositive_limit_no_truncation
    (msgs : list ModelMessage) (limit : Z) (include_tool_messages : bool) :
  (limit ≤ 0)%Z →
  filtered_message_history (Some {| all_messages := msgs |}) (Some limit)
    include_tool_messages
  = Some (option_list (List.find has_system_prompt msgs) ++
          List.filter
            (λ m, negb (has_system_prompt m) &&
                  (include_tool_messages || negb (has_tool_part m)))
            msgs).
Proof.
  intros Hle. unfold filtered_message_history, apply_limit.
  cbn [all_messages]. rewrite decide_False by lia.
  unfold system_message_of, non_system_of. f_equal.
  assert (Hsys : match List.find has_system_prompt msgs with
                 | Some s => [s]
                 | None => []
                 end = option_list (List.find has_system_prompt msgs))
    by (by destruct (List.find has_system_prompt msgs)).
  rewrite Hsys. f_equal.
  destruct include_tool_messages; simpl.
  - apply List.filter_ext. intros m. by rewrite andb_true_r.
  - by rewrite List_filter_filter.
Qed.

Lemma nonpositive_limit_no_truncation_witness :
  filtered_message_history (Some {| all_messages := history12 |}) (Some 0%Z)
    true
  = Some (option_list (List.find has_system_prompt history12) ++
          List.filter
            (λ m, negb (has_system_prompt m) &&
                  (true || negb (has_tool_part m)))
            history12).
Proof. apply (nonpositive_limit_no_truncation history12 0%Z true). lia. Defined.

Example window_history12_negative_limit :
  filtered_message_history (Some {| all_messages := history12 |})
    (Some (-3)%Z) true = Some history12.
Proof. vm_compute. reflexivity. Qed.

End WindowerFacts.

(** ** Properties of the turn driver *)

Module DriverFacts.
Import Messages Driver DriverSpec.

Lemma string_app_assoc (s1 s2 s3 : string) :
  (s1 +:+ s2) +:+ s3 = s1 +:+ (s2 +:+ s3).
Proof.
  induction s1 as [|c s1 IH]; [done|].
  change (String c ((s1 +:+ s2) +:+ s3) = String c (s1 +:+ (s2 +:+ s3))).
  by rewrite IH.
Qed.

Lemma string_app_nil_r (s : string) : s +:+ "" = s.
Proof.
  induction s as [|c s IH]; [done|].
  change (String c (s +:+ "") = String c s). by rewrite IH.
Qed.

Lemma join_app (l1 l2 : list string) : join (l1 ++ l2) = join l1 +:+ join l2.
Proof.
  induction l1 as [|s l1 IH]; [done|]. simpl.
  change (s +:+ join (l1 ++ l2) = (s +:+ join l1) +:+ join l2).
  by rewrite IH, string_app_assoc.
Qed.

Lemma spoken_parts_cons p ps :
  spoken_parts [p] ++ spoken_parts ps = spoken_parts (p :: ps).
Proof. unfold spoken_parts. symmetry. apply (omap_app _ [p] ps). Qed.

Section WithCollaborators.
Variable args_as_dict : string → result string.
Variable json_dumps : option nat → string → result string.

Abbreviation process_part := (process_part args_as_dict json_dumps).
Abbreviation process_parts := (process_parts args_as_dict json_dumps).
Abbreviation consume := (consume args_as_dict json_dumps).
Abbreviation run_with_iter := (run_with_iter args_as_dict json_dumps).

(** What one part does to the accumulator when it does not raise. *)
Lemma process_part_ok st p st' :
  process_part st p = (st', None) →
  final_output (tracker st')
    = final_output (tracker st) +:+ join (spoken_parts [p]) ∧
  tool_results (tracker st') = tool_results (tracker st).
Proof.
  unfold process_part, spoken_parts. destruct p as [c|c|c|id name a|id c];
    simpl; try (intros [= <-]; by rewrite string_app_nil_r).
  - destruct (strip_nonempty c); intros [= <-]; simpl;
      by rewrite string_app_nil_r.
  - unfold add_tool_call. destruct (args_as_dict a) as [a'|e]; simpl;
      [|done].
    destruct (json_dumps None a'); simpl; [|done].
    destruct (json_dumps (Some 2) a'); simpl; [|done].
    intros [= <-]. simpl. by rewrite string_app_nil_r.
Qed.

Lemma process_parts_ok st ps st' :
  process_parts st ps = (st', None) →
  final_output (tracker st')
    = final_output (tracker st) +:+ join (spoken_parts ps) ∧
  tool_results (tracker st') = tool_results (tracker st).
Proof.
  revert st. induction ps as [|p ps IH]; intros st; simpl.
  - intros [= <-]. by rewrite string_app_nil_r.
  - destruct (process_part st p) as [st1 [e|]] eqn:Hp; [done|].
    intros Hps. apply IH in Hps as [Hout Hres].
    apply process_part_ok in Hp as [Hout1 Hres1].
    rewrite Hout, Hout1, Hres, Hres1, string_app_assoc, <- join_app.
    rewrite spoken_parts_cons. done.
Qed.

(** A run that does not raise leaves in the accumulator the text the model
    spoke, and never records a tool result. *)
Lemma consume_ok st agent_run st' :
  consume st agent_run = (st', None) →
  final_output (tracker st')
    = final_output (tracker st) +:+ join (spoken agent_run) ∧
  tool_results (tracker st') = tool_results (tracker st).
Proof.
  revert st. induction agent_run as [|s run IH]; intros st; simpl.
  - intros [= <-]. by rewrite string_app_nil_r.
  - destruct s as [node|e]; [|done].
    destruct node as [|ps| |]; simpl; try apply IH.
    destruct (process_parts st ps) as [st1 [e|]] eqn:Hps; [done|].
    intros Hrun. apply IH in Hrun as [Hout Hres].
    apply process_parts_ok in Hps as [Hout1 Hres1].
    rewrite Hout, Hout1, Hres, Hres1, string_app_assoc, <- join_app. done.
Qed.

Lemma filtered_messages_prior (message_history : option (list Entry)) :
  match message_history with
  | Some (e :: h) => e :: h
  | _ => []
  end = prior_history message_history.
Proof. by destruct message_history as [[|e h]|]. Qed.

(** C2 (as amended): when a step of the turn raises, the driver prints the
    error after the text streamed so far, prefixed with [Error: ], returns
    the text [Error: <message>] as the output of the turn (not the partial
    accumulator text) and returns the prior history as it was; nothing is
    appended to the caller's list. *)
Theorem failed_turn_reports_error_and_keeps_history
    (agent_run : list Step) (user_input : string)
    (message_history : option (list Entry)) (st : RunState) (e : exn) :
  consume start_state agent_run = (st, Some e) →
  printed (run_with_iter agent_run user_input message_history)
    = stdout st +:+ nl +:+ nl +:+ "Error: " +:+ exn_msg e +:+ nl ∧
  output (run_with_iter agent_run user_input message_history)
    = "Error: " +:+ exn_msg e ∧
  history (run_with_iter agent_run user_input message_history)
    = prior_history message_history ∧
  caller_list (run_with_iter agent_run user_input message_history)
    = message_history.
Proof.
  intros Hrun. unfold Driver.run_with_iter.
  change {| tracker := new_tracker; stdout := nl +:+ "Agent: " |}
    with start_state.
  rewrite Hrun. cbn [printed output history caller_list].
  by rewrite filtered_messages_prior.
Qed.

(** An exception raised by the agent run ends the turn at that point. *)
Lemma consume_throw (st st' : RunState) (pre post : list Step) (e : exn) :
  consume st pre = (st', None) →
  consume st (pre ++ Throw e :: post) = (st', Some e).
Proof.
  revert st. induction pre as [|s pre IH]; intros st; simpl.
  - by intros [= <-].
  - destruct s as [node|e']; [|done].
    destruct node as [|ps| |]; try apply IH.
    destruct (process_parts st ps) as [st1 [e'|]]; [done|apply IH].
Qed.

(** C3 (as amended): when the run ends without an exception (the end node
    itself only writes a log line), the output is the text the model spoke;
    the driver appends a user entry with the user input and an assistant
    entry with that text to the history and returns its last ten entries.
    The recorded tool calls are not written to the history, and no tool
    result is ever recorded. *)
Theorem completed_turn_appends_user_and_assistant
    (agent_run : list Step) (user_input : string)
    (message_history : option (list Entry)) (st : RunState) :
  consume start_state agent_run = (st, None) →
  let text := join (spoken agent_run) in
  let appended :=
    prior_history message_history ++
      [ {| role := "user"; content := user_input |};
        {| role := "assistant"; content := text |} ] in
  output (run_with_iter agent_run user_input message_history) = text ∧
  history (run_with_iter agent_run user_input message_history)
    = drop (length appended - 10) appended ∧
  caller_list (run_with_iter agent_run user_input message_history)
    = match message_history with
      | Some (_ :: _) => Some appended
      | other => other
      end ∧
  tool_results (tracker st) = [].
Proof.
  intros Hrun text appended. subst text appended.
  unfold Driver.run_with_iter.
  change {| tracker := new_tracker; stdout := nl +:+ "Agent: " |}
    with start_state.
  rewrite Hrun. cbn [printed output history caller_list].
  apply consume_ok in Hrun as [Hout Hres]. simpl in Hout, Hres.
  change (final_output (tracker st) = join (spoken agent_run)) in Hout.
  unfold get_complete_output. rewrite Hout, filtered_messages_prior.
  split; [done|]. split; [|split; [|done]].
  - case_decide as Hlen; [done|].
    match goal with |- _ = drop ?n _ => replace n with 0 by lia end. done.
  - by destruct message_history as [[|? ?]|].
Qed.

End WithCollaborators.

Example failing_run_raises :
  consume args_ok dumps_ok start_state failing_run
  = (failing_run_state, Some (Exn RuntimeError "boom")).
Proof. vm_compute. reflexivity. Qed.

Example tool_run_ends :
  consume args_ok dumps_ok start_state tool_run = (tool_run_state, None).
Proof. vm_compute. reflexivity. Qed.

Lemma failed_turn_reports_error_and_keeps_history_witness :
  printed (run_with_iter args_ok dumps_ok failing_run "ls" (Some one_turn))
    = stdout failing_run_state +:+ nl +:+ nl +:+ "Error: " +:+ "boom" +:+ nl ∧
  output (run_with_iter args_ok dumps_ok failing_run "ls" (Some one_turn))
    = "Error: " +:+ "boom" ∧
  history (run_with_iter args_ok dumps_ok failing_run "ls" (Some one_turn))
    = one_turn ∧
  caller_list (run_with_iter args_ok dumps_ok failing_run "ls" (Some one_turn))
    = Some one_turn.
Proof.
  apply (failed_turn_reports_error_and_keeps_history args_ok dumps_ok
           failing_run "ls" (Some one_turn) failing_run_state
           (Exn RuntimeError "boom")).
  vm_compute. reflexivity.
Defined.

(** C2 (as stated) fails: the model had already spoken [Listing files] when
    the run raised, yet the turn returns [Error: boom], not that text. *)
Lemma failed_turn_output_counterexample :
  ¬ fails_as_specified args_ok dumps_ok failing_run "ls" (Some one_turn).
Proof.
  intros H. destruct (H _ _ failing_run_raises) as (_ & Hout & _).
  vm_compute in Hout. discriminate Hout.
Qed.

Lemma completed_turn_appends_user_and_assistant_witness :
  output (run_with_iter args_ok dumps_ok tool_run "ls" (Some one_turn))
    = "Two files." ∧
  history (run_with_iter args_ok dumps_ok tool_run "ls" (Some one_turn))
    = one_turn ++ [ {| role := "user"; content := "ls" |};
                    {| role := "assistant"; content := "Two files." |} ] ∧
  caller_list (run_with_iter args_ok dumps_ok tool_run "ls" (Some one_turn))
    = Some (one_turn ++ [ {| role := "user"; content := "ls" |};
                          {| role := "assistant"; content := "Two files." |} ]) ∧
  tool_results (tracker tool_run_state) = [].
Proof.
  apply (completed_turn_appends_user_and_assistant args_ok dumps_ok
           tool_run "ls" (Some one_turn) tool_run_state).
  vm_compute. reflexivity.
Defined.

(** C3 (as stated) fails: the turn recorded the tool call [c1], but the
    history it returns ends with the assistant text and holds no tool call
    part. *)
Lemma finalization_counterexample :
  ¬ finalizes_as_specified args_ok dumps_ok tool_run "ls" (Some one_turn).
Proof.
  intros H. destruct (H _ tool_run_ends) as [between Heq].
  destruct between as [|x1 [|x2 [|x3 between]]];
    vm_compute in Heq; discriminate Heq.
Qed.

(** White space is what [str.strip] removes: a text part that holds only a
    no-break space is skipped like an empty one. *)
Example blank_text_is_skipped :
  output (run_with_iter args_ok dumps_ok blank_run "hi" None) = ""
  ∧ history (run_with_iter args_ok dumps_ok blank_run "hi" None)
    = [ {| role := "user"; content := "hi" |};
        {| role := "assistant"; content := "" |} ]
  ∧ spoken blank_run = [].
Proof. vm_compute. done. Qed.

Example tool_run_history_has_no_tool_parts :
  Forall (λ m, has_tool_part m = false)
    (entry_message <$>
       history (run_with_iter args_ok dumps_ok tool_run "ls" (Some one_turn))).
Proof. vm_compute. repeat constructor. Qed.


End DriverFacts.

(** ** Properties of the file system model *)

Module PosixFacts.
Import Json Posix PosixOrder.

Lemma string_app_length (s1 s2 : string) :
  String.length (s1 +:+ s2) = String.length s1 + String.length s2.
Proof.
  induction s1 as [|c s1 IH]; [done|].
  change (S (String.length (s1 +:+ s2))
          = S (String.length s1 + String.length s2)). by rewrite IH.
Qed.

Lemma walk_app (w : World) (cur : list string) (l1 l2 : list string) :
  walk w cur (l1 ++ l2)
  = match walk w cur l1 with
    | inl e => inl e
    | inr k => walk w k l2
    end.
Proof.
  revert cur. induction l1 as [|c l1 IH]; intros cur; simpl; [done|].
  destruct (node_at w cur) as [[| |]|]; [done|apply IH|done|done].
Qed.

Lemma tail_split (p : Path) :
  tail p ≠ [] → tail p = tail (parent p) ++ [name p].
Proof. intros Hne. unfold parent, name. simpl. by apply app_removelast_last. Qed.

(** The root is a directory, whatever the map holds. *)
Lemma root_is_dir (w : World) : ∃ s t, node_at w [] = Some (Dir s t).
Proof.
  simpl. unfold root_dir. destruct (nodes w !! []) as [[| |]|]; eauto.
Qed.

Lemma node_at_ext (w w' : World) (k : list string) :
  nodes w' !! k = nodes w !! k → node_at w' k = node_at w k.
Proof.
  intros Hk. destruct k as [|x k]; [|done]. simpl. unfold root_dir.
  by rewrite Hk.
Qed.

(** What is under a key that is not the root is what the map holds. *)
Lemma node_at_not_dir (w : World) (k : list string) :
  (∀ s t, node_at w k ≠ Some (Dir s t)) → node_at w k = nodes w !! k.
Proof.
  intros Hk. destruct k as [|x k]; [|done].
  destruct (root_is_dir w) as (s & t & Hroot). by destruct (Hk s t).
Qed.

(** *** Trees that differ in the log *)

Lemma logged_refl (L : list string) (w : World) : logged L w w.
Proof. repeat split. intros k. by left. Qed.

Lemma logged_trans (L : list string) (w1 w2 w3 : World) :
  logged L w1 w2 → logged L w2 w3 → logged L w1 w3.
Proof.
  intros (Hc1 & Ht1 & Hn1) (Hc2 & Ht2 & Hn2).
  split; [congruence|]. split; [congruence|]. intros k.
  destruct (Hn1 k) as [H1|(Hk1 & d1 & t1 & d1' & t1' & Hd1 & Hd1')],
           (Hn2 k) as [H2|(Hk & d2 & t2 & d2' & t2' & Hd2 & Hd2')].
  - left. congruence.
  - right. split; [done|]. exists d2, t2, d2', t2'. split; congruence.
  - right. split; [done|]. exists d1, t1, d1', t1'. split; congruence.
  - right. split; [done|]. exists d1, t1, d2', t2'. done.
Qed.

Lemma logged_sym (L : list string) (w w' : World) :
  logged L w w' → logged L w' w.
Proof.
  intros (Hc & Ht & Hn). split; [done|]. split; [done|]. intros k.
  destruct (Hn k) as [H|(-> & d & t & d' & t' & Hd & Hd')]; [by left|].
  right. split; [done|]. by exists d', t', d, t.
Qed.

Lemma logged_append (L : list string) (w : World) (text : string) :
  logged L w (append_text w L text).
Proof.
  unfold append_text.
  destruct (nodes w !! L) as [[d t| |]|] eqn:HL; try apply logged_refl.
  repeat split. simpl. intros k. destruct (decide (k = L)) as [->|Hne].
  - right. split; [done|]. exists d, t, (d +:+ text), (clock w).
    by rewrite lookup_insert_eq.
  - left. by rewrite lookup_insert_ne.
Qed.

Lemma node_at_logged (L : list string) (w w' : World) (k : list string) :
  logged L w w' →
  node_at w' k = node_at w k ∨
  (k = L ∧ ∃ d t d' t', node_at w k = Some (File d t) ∧
                        node_at w' k = Some (File d' t')).
Proof.
  intros (_ & _ & Hn).
  destruct (Hn k) as [H|(-> & d & t & d' & t' & Hd & Hd')].
  - left. by apply node_at_ext.
  - destruct L as [|x L].
    + left. simpl. unfold root_dir. by rewrite Hd, Hd'.
    + right. split; [done|]. by exists d, t, d', t'.
Qed.

Lemma node_at_logged_ne (L : list string) (w w' : World) (k : list string) :
  logged L w w' → k ≠ L → node_at w' k = node_at w k.
Proof.
  intros Hl Hne. by destruct (node_at_logged L w w' k Hl) as [?|[? _]].
Qed.

Lemma walk_logged (L : list string) (w w' : World) cur comps :
  logged L w w' → walk w' cur comps = walk w cur comps.
Proof.
  intros Hl. revert cur. induction comps as [|c comps IH]; intros cur;
    simpl; [done|].
  destruct (node_at_logged L w w' cur Hl)
    as [->|(_ & d & t & d' & t' & -> & ->)]; [|done].
  destruct (node_at w cur) as [[| |]|]; auto.
Qed.

Lemma resolve_logged (L : list string) (w w' : World) (p : Path) :
  logged L w w' → resolve w' p = resolve w p.
Proof.
  intros Hl. unfold resolve. pose proof Hl as (Hc & _). rewrite Hc.
  by apply (walk_logged L).
Qed.

(** The tests of a path do not see the text of a file. *)
Lemma stat_logged (L : list string) (w w' : World) (p : Path) :
  logged L w w' →
  stat w' p = stat w p ∨
  (resolve w p = inr L ∧ ∃ d t d' t', stat w p = inr (File d t) ∧
                                      stat w' p = inr (File d' t')).
Proof.
  intros Hl. unfold stat. rewrite (resolve_logged L w w' p Hl).
  destruct (resolve w p) as [e|k]; [by left|].
  destruct (node_at_logged L w w' k Hl)
    as [->|(-> & d & t & d' & t' & -> & ->)]; [by left|].
  right. split; [done|]. by exists d, t, d', t'.
Qed.

Lemma stat_logged_ne (L : list string) (w w' : World) (p : Path) :
  logged L w w' → resolve w p ≠ inr L → stat w' p = stat w p.
Proof.
  intros Hl Hne. by destruct (stat_logged L w w' p Hl) as [?|[? _]].
Qed.

Lemma path_exists_logged (L : list string) (w w' : World) (p : Path) :
  logged L w w' → path_exists w' p = path_exists w p.
Proof.
  intros Hl. unfold path_exists.
  by destruct (stat_logged L w w' p Hl)
    as [->|(_ & d & t & d' & t' & -> & ->)].
Qed.

Lemma is_file_logged (L : list string) (w w' : World) (p : Path) :
  logged L w w' → is_file w' p = is_file w p.
Proof.
  intros Hl. unfold is_file.
  by destruct (stat_logged L w w' p Hl)
    as [->|(_ & d & t & d' & t' & -> & ->)].
Qed.

Lemma is_dir_logged (L : list string) (w w' : World) (p : Path) :
  logged L w w' → is_dir w' p = is_dir w p.
Proof.
  intros Hl. unfold is_dir.
  by destruct (stat_logged L w w' p Hl)
    as [->|(_ & d & t & d' & t' & -> & ->)].
Qed.

Lemma is_special_logged (L : list string) (w w' : World) (p : Path) :
  logged L w w' → is_special w' p = is_special w p.
Proof.
  intros Hl. unfold is_special.
  by destruct (stat_logged L w w' p Hl)
    as [->|(_ & d & t & d' & t' & -> & ->)].
Qed.

Lemma absolute_logged (L : list string) (w w' : World) (p : Path) :
  logged L w w' → absolute w' p = absolute w p.
Proof. intros (Hc & _). unfold absolute. by rewrite Hc. Qed.

Lemma dom_logged (L : list string) (w w' : World) :
  logged L w w' → dom (nodes w') = dom (nodes w).
Proof.
  intros (_ & _ & Hn). apply set_eq. intros k. rewrite !elem_of_dom.
  destruct (Hn k) as [->|(_ & d & t & d' & t' & -> & ->)]; [done|].
  split; by eexists.
Qed.

Lemma listdir_logged (L : list string) (w w' : World) (p : Path) :
  logged L w w' → listdir w' p = listdir w p.
Proof.
  intros Hl. unfold listdir.
  rewrite (resolve_logged L w w' p Hl), (dom_logged L w w' Hl).
  by destruct (stat_logged L w w' p Hl)
    as [->|(_ & d & t & d' & t' & -> & ->)].
Qed.

(** The listing splits into files and directories the same way. *)
Lemma filter_ext_bool {A} (f g : A → bool) (l : list A) :
  (∀ x, f x = g x) → List.filter f l = List.filter g l.
Proof.
  intros Hfg. induction l as [|x l IH]; [done|]. simpl.
  by rewrite Hfg, IH.
Qed.

(** *** Resolving the last part of a path *)

Lemma resolve_entry_resolve (w : World) (p : Path) (key : list string) :
  resolve_entry w p = inr key → resolve w p = inr key.
Proof.
  unfold resolve_entry, resolve, parent, name. simpl.
  destruct (tail p) as [|x xs] eqn:Htail; [done|].
  rewrite <- Htail.
  set (start := if decide (root p = "") then cwd w else []).
  assert (Hsplit : tail p = removelast (tail p) ++ [List.last (tail p) ""])
    by (apply app_removelast_last; by rewrite Htail).
  set (init := removelast (tail p)) in *.
  set (lst := List.last (tail p) "") in *.
  clearbody init lst. rewrite Hsplit, walk_app.
  destruct (walk w start init) as [e|dir]; [done|].
  simpl. destruct (node_at w dir) as [[| |]|]; try done.
Qed.

(** A path with a last part resolves through its parent. *)
Lemma resolve_through_parent (w : World) (p : Path) (key : list string) :
  tail p ≠ [] → resolve w p = inr key →
  ∃ dir s m,
    resolve w (parent p) = inr dir ∧ node_at w dir = Some (Dir s m) ∧
    resolve_entry w p = inr key.
Proof.
  intros Hne. unfold resolve_entry, resolve.
  change (root (parent p)) with (root p).
  set (start := if decide (root p = "") then cwd w else []).
  rewrite (tail_split p Hne) at 1. rewrite walk_app.
  destruct (walk w start (tail (parent p))) as [e|dir]; [done|].
  simpl. destruct (node_at w dir) as [[|s m|]|] eqn:Hdir; try done.
  intros [= <-]. exists dir, s, m. split; [done|]. split; [done|].
  destruct (tail p); done.
Qed.

Lemma resolve_entry_parent (w : World) (p : Path) (key : list string) :
  resolve_entry w p = inr key →
  tail p ≠ [] ∧
  ∃ dir s m, resolve w (parent p) = inr dir ∧ node_at w dir = Some (Dir s m).
Proof.
  intros Hentry.
  assert (Hne : tail p ≠ []).
  { unfold resolve_entry in Hentry. by destruct (tail p). }
  split; [done|].
  destruct (resolve_through_parent w p key Hne
              (resolve_entry_resolve _ _ _ Hentry)) as (dir & s & m & ? & ? & _).
  eauto.
Qed.

(** *** Trees that grow *)

Lemma grows_refl (K : list (list string)) (w : World) : grows K w w.
Proof. repeat split; eauto. Qed.

Lemma grows_trans (K1 K2 : list (list string)) (w1 w2 w3 : World) :
  grows K1 w1 w2 → grows K2 w2 w3 → grows (K1 ++ K2) w1 w3.
Proof.
  intros (Hc1 & Ht1 & Hd1 & Hn1) (Hc2 & Ht2 & Hd2 & Hn2).
  split; [congruence|]. split; [congruence|]. split.
  - intros k s t Hk. destruct (Hd1 k s t Hk) as [t' Hk']. eauto.
  - intros k n Hk Hn HK. rewrite elem_of_app in HK.
    apply Hn2; [|done|tauto]. apply Hn1; [done|done|tauto].
Qed.

Lemma grows_weaken (K K' : list (list string)) (w w' : World) :
  (∀ k, k ∈ K → k ∈ K') → grows K w w' → grows K' w w'.
Proof.
  intros Hsub (Hc & Ht & Hd & Hn). repeat split; [done..|].
  intros k n Hk Hnd HK. apply Hn; auto.
Qed.

Lemma logged_grows (L : list string) (w w' : World) :
  logged L w w' → grows [L] w w'.
Proof.
  intros Hl. pose proof Hl as (Hc & Ht & _). repeat split; [done..| |].
  - intros k s t Hk.
    destruct (node_at_logged L w w' k Hl)
      as [->|(_ & d & t1 & d' & t' & Hd & _)]; [eauto|congruence].
  - intros k n Hk _ HK. rewrite (node_at_logged_ne L w w' k Hl); [done|].
    intros ->. apply HK, list_elem_of_here.
Qed.

Lemma walk_grows (K : list (list string)) (w w' : World) cur comps k :
  grows K w w' → walk w cur comps = inr k → walk w' cur comps = inr k.
Proof.
  intros (_ & _ & Hd & _). revert cur.
  induction comps as [|c comps IH]; intros cur; simpl; [done|].
  destruct (node_at w cur) as [[|s m|]|] eqn:Hcur; try done.
  destruct (Hd _ _ _ Hcur) as [t' ->]. apply IH.
Qed.

Lemma resolve_grows (K : list (list string)) (w w' : World) (p : Path) k :
  grows K w w' → resolve w p = inr k → resolve w' p = inr k.
Proof.
  intros Hg. unfold resolve. pose proof Hg as (Hc & _). rewrite Hc.
  by apply (walk_grows K).
Qed.

Lemma is_dir_grows (K : list (list string)) (w w' : World) (p : Path) :
  grows K w w' → is_dir w p = true → is_dir w' p = true.
Proof.
  intros Hg. unfold is_dir, stat.
  destruct (resolve w p) as [e|k] eqn:Hres; [done|].
  rewrite (resolve_grows K w w' p k Hg Hres).
  destruct (node_at w k) as [[|s t|]|] eqn:Hk; try done.
  pose proof Hg as (_ & _ & Hd & _). by destruct (Hd _ _ _ Hk) as [t' ->].
Qed.

(** What is no directory and was not written keeps its place and its
    content. *)
Lemma stat_grows (K : list (list string)) (w w' : World) (q : Path) k n :
  grows K w w' → resolve w q = inr k → node_at w k = Some n →
  (∀ s t, n ≠ Dir s t) → k ∉ K →
  resolve w' q = inr k ∧ node_at w' k = Some n.
Proof.
  intros Hg Hres Hk Hn HK. split; [by eapply resolve_grows|].
  destruct Hg as (_ & _ & _ & Hkeep). by apply Hkeep.
Qed.

(** *** Updates of the tree *)

Lemma node_at_insert (w : World) m key n k :
  key ≠ [] →
  node_at {| nodes := <[key := n]> m; cwd := cwd w; clock := clock w |} k
  = if decide (k = key) then Some n
    else node_at {| nodes := m; cwd := cwd w; clock := clock w |} k.
Proof.
  intros Hkey. case_decide as Hk.
  - subst k. destruct key; [done|]. simpl. apply lookup_insert_eq.
  - apply node_at_ext. simpl. by rewrite lookup_insert_ne.
Qed.

Lemma node_at_touch (w : World) (dir k : list string) :
  node_at {| nodes := touch w dir; cwd := cwd w; clock := clock w |} k
  = match node_at w k with
    | Some (Dir s t) =>
        if decide (k = dir) then Some (Dir s (clock w)) else Some (Dir s t)
    | n => n
    end.
Proof.
  unfold touch. destruct (node_at w dir) as [[|s t|]|] eqn:Hdir.
  2: { destruct (decide (k = dir)) as [->|Hne].
       - rewrite Hdir. destruct dir as [|x dir]; simpl.
         + unfold root_dir. simpl. by rewrite lookup_insert_eq.
         + by rewrite lookup_insert_eq.
       - transitivity (node_at w k).
         + apply node_at_ext. simpl. by rewrite lookup_insert_ne.
         + by destruct (node_at w k) as [[| |]|]. }
  all: transitivity (node_at w k); [by apply node_at_ext|].
  all: destruct (node_at w k) as [[|s' t'|]|] eqn:Hk; try done.
  all: rewrite decide_False; [done|]; intros ->; congruence.
Qed.

(** A new entry under [key] in its directory. *)
Lemma node_at_create (w : World) (key k : list string) (n : node) :
  key ≠ [] →
  node_at {| nodes := <[key := n]> (touch w (removelast key));
             cwd := cwd w; clock := clock w |} k
  = if decide (k = key) then Some n
    else match node_at w k with
         | Some (Dir s t) =>
             if decide (k = removelast key) then Some (Dir s (clock w))
             else Some (Dir s t)
         | other => other
         end.
Proof.
  intros Hkey. rewrite node_at_insert by done. case_decide; [done|].
  apply node_at_touch.
Qed.

Lemma create_grows (w : World) (key : list string) (n : node) :
  node_at w key = None →
  grows [] w {| nodes := <[key := n]> (touch w (removelast key));
                cwd := cwd w; clock := clock w |}.
Proof.
  intros Hnone.
  assert (Hkey : key ≠ []).
  { intros ->. destruct (root_is_dir w) as (s & t & Hr). congruence. }
  repeat split.
  - intros k s t Hk. rewrite node_at_create by done.
    rewrite decide_False by congruence. rewrite Hk. case_decide; eauto.
  - intros k n' Hk Hnd _. rewrite node_at_create by done.
    rewrite decide_False by congruence.
    rewrite Hk. destruct n'; try done. by destruct (Hnd size mtime).
Qed.

(** *** Writing a file *)

(** What a successful [write_text] does: the path resolves to a key that
    held a file, nothing, or a special node that accepts writes. *)
Lemma write_text_inv (w w' : World) (p : Path) (data : string) :
  write_text w p data = inr w' →
  ∃ key,
    resolve_entry w p = inr key ∧
    ((∃ d t, node_at w key = Some (File d t) ∧
             w' = {| nodes := <[key := File data (clock w)]> (nodes w);
                     cwd := cwd w; clock := clock w |}) ∨
     (node_at w key = None ∧
      w' = {| nodes := <[key := File data (clock w)]>
                         (touch w (removelast key));
              cwd := cwd w; clock := clock w |}) ∨
     (∃ r s t x, node_at w key = Some (Special r s t x true) ∧ w' = w)).
Proof.
  unfold write_text.
  destruct (resolve_entry w p) as [e|key] eqn:Hentry; [done|].
  intros Hw. exists key. split; [done|].
  destruct (node_at w key) as [[d t|s t|r s t x [|]]|] eqn:Hkey;
    try done; injection Hw as <-; eauto 10.
Qed.

Lemma write_text_grows (w w' : World) (p : Path) (data : string) key :
  write_text w p data = inr w' → resolve_entry w p = inr key →
  grows [key] w w'.
Proof.
  intros (key' & Hentry & Hcases)%write_text_inv Hkey.
  assert (key' = key) as -> by congruence.
  destruct Hcases as [(d & t & Hnode & ->)|[[Hnode ->]|(r & s & t & x & _ & ->)]].
  - assert (Hne : key ≠ []).
    { intros ->. destruct (root_is_dir w) as (s & t' & Hr). congruence. }
    repeat split.
    + intros k s t' Hk. rewrite node_at_insert by done.
      rewrite decide_False by congruence.
      replace {| nodes := nodes w; cwd := cwd w; clock := clock w |} with w
        by by destruct w. eauto.
    + intros k n Hk _ HK. rewrite node_at_insert by done.
      rewrite decide_False.
      * by replace {| nodes := nodes w; cwd := cwd w; clock := clock w |}
          with w by by destruct w.
      * intros ->. apply HK, list_elem_of_here.
  - eapply grows_weaken; [|by apply create_grows]. by intros k ?%elem_of_nil.
  - apply grows_refl.
Qed.

(** After a successful [write_text] the path names the file written with
    its text, unless it names a special node; the directory of the path is
    a directory. *)
Lemma write_text_stat (w w' : World) (p : Path) (data : string) :
  write_text w p data = inr w' →
  ∃ key,
    resolve w' p = inr key ∧
    (node_at w' key = Some (File data (clock w)) ∨
     ∃ r s t x, node_at w' key = Some (Special r s t x true)) ∧
    is_dir w' (parent p) = true ∧ tail p ≠ [] ∧
    cwd w' = cwd w ∧ clock w' = clock w.
Proof.
  intros Hw. pose proof Hw as (key & Hentry & Hcases)%write_text_inv.
  pose proof (write_text_grows _ _ _ _ _ Hw Hentry) as Hg.
  pose proof (resolve_entry_parent _ _ _ Hentry)
    as (Hne & dir & s & m & Hdir & Hnode).
  exists key. split.
  { eapply resolve_grows; [done|]. by apply resolve_entry_resolve. }
  split; [|split; [|split; [done|]]].
  - destruct Hcases
      as [(d & t & Hk & ->)|[[Hk ->]|(r & s' & t & x & Hk & ->)]].
    + left. rewrite node_at_insert, decide_True; [done..|].
      intros ->. destruct (root_is_dir w) as (s' & t' & Hr). congruence.
    + left. rewrite node_at_create, decide_True; [done..|].
      intros ->. destruct (root_is_dir w) as (s' & t' & Hr). congruence.
    + right. eauto.
  - eapply is_dir_grows; [done|]. unfold is_dir, stat. by rewrite Hdir, Hnode.
  - by destruct Hg as (? & ? & _).
Qed.

(** *** Making directories *)

Lemma os_mkdir_grows (w w' : World) (p : Path) :
  os_mkdir w p = inr w' → grows [] w w'.
Proof.
  unfold os_mkdir. destruct (tail p); [done|].
  destruct (resolve_entry w p) as [e|key]; [done|].
  destruct (node_at w key) as [n|] eqn:Hkey; [done|].
  intros [= <-]. by apply create_grows.
Qed.

Lemma mkdir_plain_grows exist_ok (w w' : World) (p : Path) :
  mkdir_plain exist_ok w p = inr w' → grows [] w w'.
Proof.
  unfold mkdir_plain. destruct (os_mkdir w p) as [e|w1] eqn:Hmk.
  - destruct e; try done;
      (destruct (exist_ok && is_dir w p); [|done]);
      intros [= <-]; apply grows_refl.
  - intros [= <-]. by eapply os_mkdir_grows.
Qed.

(** Whether it succeeds or not, [mkdir] only adds directories. *)
Lemma mkdir_parents_grows fuel exist_ok (w : World) (p : Path) :
  grows [] w (mkdir_parents fuel exist_ok w p).1.
Proof.
  revert exist_ok w p.
  induction fuel as [|fuel IH]; intros exist_ok w p; simpl.
  - destruct (os_mkdir w p) as [e|w1] eqn:Hmk.
    + destruct e; try apply grows_refl;
        destruct (exist_ok && is_dir w p); apply grows_refl.
    + by eapply os_mkdir_grows.
  - destruct (os_mkdir w p) as [e|w1] eqn:Hmk; [|by eapply os_mkdir_grows].
    destruct e;
      try (destruct (exist_ok && is_dir w p); apply grows_refl).
    destruct (tail p); [apply grows_refl|].
    specialize (IH true w (parent p)).
    destruct (mkdir_parents fuel true w (parent p)) as [w1 [e|]]; [done|].
    destruct (mkdir_plain exist_ok w1 p) as [e|w2] eqn:Hplain; [done|].
    simpl in *. apply (grows_trans [] [] w w1 w2); [done|].
    by eapply mkdir_plain_grows.
Qed.

(** The fuel [write_file] gives to [mkdir_parents], the number of parts of
    the path, is never used up: more fuel changes nothing. *)
Lemma mkdir_parents_fuel (fuel extra : nat) exist_ok (w : World) (p : Path) :
  length (tail p) ≤ fuel →
  mkdir_parents (fuel + extra) exist_ok w p = mkdir_parents fuel exist_ok w p.
Proof.
  revert exist_ok w p. induction fuel as [|fuel IH]; intros exist_ok w p Hlen.
  - destruct (tail p) as [|x xs] eqn:Htail; [|simpl in Hlen; lia].
    destruct extra as [|extra]; [done|]. simpl.
    destruct (os_mkdir w p) as [[| | | |]|w']; try done. by rewrite Htail.
  - simpl. destruct (os_mkdir w p) as [[| | | |]|w']; try done.
    destruct (tail p) as [|x xs] eqn:Htail; [done|].
    rewrite IH; [done|]. unfold parent. simpl. rewrite Htail.
    rewrite removelast_firstn_len, length_take. simpl in *. lia.
Qed.

(** Text without a carriage return is read as it was written. *)
Lemma universal_newlines_id (s : string) :
  has_cr s = false → universal_newlines s = s.
Proof.
  induction s as [|c s IH]; [done|]. simpl.
  intros [Hc Hs]%orb_false_iff. apply bool_decide_eq_false in Hc.
  rewrite decide_False by done. by rewrite IH.
Qed.

Lemma universal_newlines_length (s : string) :
  String.length (universal_newlines s) ≤ String.length s.
Proof.
  assert (H : ∀ n s, String.length s ≤ n →
                     String.length (universal_newlines s) ≤ String.length s);
    [|by apply (H (String.length s))].
  clear s. induction n as [|n IH]; intros s Hn.
  - destruct s; [done|simpl in Hn; lia].
  - destruct s as [|c s]; [done|]. simpl in *.
    destruct (decide (c = CR)).
    + destruct s as [|c' s']; [done|]. simpl in *.
      destruct (decide (c' = LF)); simpl.
      * specialize (IH s'). lia.
      * specialize (IH (String c' s')). simpl in IH. lia.
    + simpl. specialize (IH s). lia.
Qed.

End PosixFacts.

(** ** Properties of the protocol server and its handlers *)

Module ServerFacts.
Import Json Posix PosixOrder Runtime FilesystemMcpFixed ServerSpec
  ServerScenarios PosixFacts.

Section WithHost.
Variable h : Host.

(** *** The logger *)

Lemma logged_log (levelname message : string) (w : World) :
  logged (log_file h) w (log h levelname message w).
Proof. apply logged_append. Qed.

Lemma cwd_log levelname message (w : World) :
  cwd (log h levelname message w) = cwd w.
Proof. by destruct (logged_log levelname message w) as (? & _). Qed.

Lemma clock_log levelname message (w : World) :
  clock (log h levelname message w) = clock w.
Proof. by destruct (logged_log levelname message w) as (_ & ? & _). Qed.

Lemma resolve_log levelname message (w : World) (p : Path) :
  resolve (log h levelname message w) p = resolve w p.
Proof. eapply resolve_logged, logged_log. Qed.

Lemma path_exists_log levelname message (w : World) (p : Path) :
  path_exists (log h levelname message w) p = path_exists w p.
Proof. eapply path_exists_logged, logged_log. Qed.

Lemma is_file_log levelname message (w : World) (p : Path) :
  is_file (log h levelname message w) p = is_file w p.
Proof. eapply is_file_logged, logged_log. Qed.

Lemma is_dir_log levelname message (w : World) (p : Path) :
  is_dir (log h levelname message w) p = is_dir w p.
Proof. eapply is_dir_logged, logged_log. Qed.

Lemma is_special_log levelname message (w : World) (p : Path) :
  is_special (log h levelname message w) p = is_special w p.
Proof. eapply is_special_logged, logged_log. Qed.

Lemma absolute_log levelname message (w : World) (p : Path) :
  absolute (log h levelname message w) p = absolute w p.
Proof. eapply absolute_logged, logged_log. Qed.

Lemma listdir_log levelname message (w : World) (p : Path) :
  listdir (log h levelname message w) p = listdir w p.
Proof. eapply listdir_logged, logged_log. Qed.

Lemma stat_log levelname message (w : World) (p : Path) :
  resolve w p ≠ inr (log_file h) →
  stat (log h levelname message w) p = stat w p.
Proof. eapply stat_logged_ne, logged_log. Qed.

Lemma node_at_log levelname message (w : World) (k : list string) :
  k ≠ log_file h → node_at (log h levelname message w) k = node_at w k.
Proof. eapply node_at_logged_ne, logged_log. Qed.

End WithHost.

Create Rewrite HintDb logs.
#[local] Hint Rewrite cwd_log clock_log resolve_log path_exists_log
  is_file_log is_dir_log is_special_log absolute_log listdir_log : logs.

(** The calls of the logger are pushed out of the tests of a path. *)
Ltac logs :=
  unfold info, warning, error, debug in *; autorewrite with logs in *.

Section WithHost.
Variable h : Host.

Abbreviation logged := (logged (log_file h)).

(** *** The handlers that only read *)

Lemma list_files_logged (w : World) (directory : json) :
  logged w (list_files h w directory).1.
Proof.
  unfold list_files.
  set (w1 := info h _ w).
  assert (H1 : logged w w1) by apply logged_log.
  destruct (make_path directory) as [path|e]; simpl.
  2: { eapply logged_trans; [done|apply logged_log]. }
  destruct (negb (path_exists w1 path)); simpl.
  { eapply logged_trans; [done|apply logged_log]. }
  destruct (listdir w1 path) as [e|items]; simpl.
  all: eapply logged_trans; [done|apply logged_log].
Qed.

Lemma read_file_logged (w : World) (file_path : json) :
  logged w (read_file h w file_path).1.
Proof.
  unfold read_file.
  set (w1 := info h _ w).
  assert (H1 : logged w w1) by apply logged_log.
  destruct (make_path file_path) as [path|e]; simpl.
  2: { eapply logged_trans; [done|apply logged_log]. }
  destruct (negb (path_exists w1 path)); simpl.
  { eapply logged_trans; [done|apply logged_log]. }
  destruct (negb (is_file w1 path)); simpl.
  { eapply logged_trans; [done|apply logged_log]. }
  destruct (read_text w1 path) as [e|content]; simpl.
  { eapply logged_trans; [done|apply logged_log]. }
  set (w2 := info h _ w1).
  assert (H2 : logged w w2) by (eapply logged_trans; [done|apply logged_log]).
  destruct (stat w2 path) as [e|st]; simpl; [|done].
  eapply logged_trans; [done|apply logged_log].
Qed.

Lemma get_file_info_logged (w : World) (file_path : json) :
  logged w (get_file_info h w file_path).1.
Proof.
  unfold get_file_info.
  set (w1 := info h _ w).
  assert (H1 : logged w w1) by apply logged_log.
  destruct (make_path file_path) as [path|e]; simpl.
  2: { eapply logged_trans; [done|apply logged_log]. }
  destruct (negb (path_exists w1 path)); simpl.
  { eapply logged_trans; [done|apply logged_log]. }
  destruct (stat w1 path) as [e|st]; simpl.
  all: eapply logged_trans; [done|apply logged_log].
Qed.

(** What [read_file] answers for a path that resolves to a place other
    than the log file: it depends on the node there and on the working
    directory. *)
Lemma read_file_answer (w : World) (q : string) (k : list string) (n : node) :
  resolve w (parse q) = inr k → k ≠ log_file h → node_at w k = Some n →
  (read_file h w (JStr q)).2
  = match n with
    | File d _ =>
        JObj [("content", JStr (universal_newlines d));
              ("size", JNum (Z.of_nat (String.length d)));
              ("path", JStr (to_str (absolute w (parse q))))]
    | Special true s _ x _ =>
        JObj [("content", JStr (universal_newlines x));
              ("size", JNum (Z.of_nat s));
              ("path", JStr (to_str (absolute w (parse q))))]
    | _ => JObj [("error", JStr ("'" +:+ q +:+ "' is not a file"))]
    end.
Proof.
  intros Hres Hk Hn.
  assert (Hne : resolve w (parse q) ≠ inr (log_file h)) by congruence.
  assert (Hstat : stat w (parse q) = inr n).
  { unfold stat. by rewrite Hres, Hn. }
  unfold read_file, make_path. logs. cbn [py_str].
  unfold path_exists, is_file, read_text.
  rewrite !stat_log by (by rewrite ?resolve_log). rewrite Hstat.
  destruct n as [d t|s t|[|] s t x wr]; simpl; try done.
  all: rewrite !stat_log by (by rewrite ?resolve_log); rewrite Hstat; simpl.
  all: by logs.
Qed.

(** The same for [get_file_info]. *)
Lemma get_file_info_answer (w : World) (q : string) (k : list string)
    (n : node) :
  resolve w (parse q) = inr k → k ≠ log_file h → node_at w k = Some n →
  (get_file_info h w (JStr q)).2
  = JObj [("name", JStr (name (parse q)));
          ("size", JNum (Z.of_nat (st_size n)));
          ("modified", JFloat (st_mtime n));
          ("is_file", JBool (is_file w (parse q)));
          ("is_dir", JBool (is_dir w (parse q)));
          ("path", JStr (to_str (absolute w (parse q))))].
Proof.
  intros Hres Hk Hn.
  assert (Hne : resolve w (parse q) ≠ inr (log_file h)) by congruence.
  assert (Hstat : stat w (parse q) = inr n).
  { unfold stat. by rewrite Hres, Hn. }
  unfold get_file_info, make_path. logs. cbn [py_str].
  unfold path_exists.
  rewrite !stat_log by (by rewrite ?resolve_log). rewrite Hstat. simpl.
  by logs.
Qed.

End WithHost.

Section WithHost.
Variable h : Host.

Abbreviation logged := (logged (log_file h)).

(** *** Write, then read *)

(** The outcomes of [write_file] on strings: directories are made (and
    lines logged), then the write fails and the error is logged, or it
    succeeds and the last line is logged. *)
Lemma write_file_cases (w w' : World) (p c : string) (r : json) :
  write_file h w (JStr p) (JStr c) = (w', r) →
  ∃ w1,
    grows [log_file h] w w1 ∧
    ((logged w1 w' ∧ ∃ m, r = JObj [("error", JStr m)]) ∨
     (∃ w2,
        write_text w1 (parse p) c = inr w2 ∧
        w' = info h ("Successfully wrote " +:+ pretty (Text.len c)
                     +:+ " bytes to " +:+ p) w2 ∧
        r = JObj [("success", JBool true);
                  ("message",
                   JStr ("Successfully wrote " +:+ pretty (Text.len c)
                         +:+ " bytes to " +:+ p));
                  ("path", JStr (to_str (absolute w' (parse p))))])).
Proof.
  unfold write_file, make_path. cbn [py_str].
  set (w0 := info h _ w).
  assert (H0 : grows [log_file h] w w0) by apply logged_grows, logged_log.
  set (made := if negb (path_exists w0 (parent (parse p))) then _ else _).
  assert (Hmade : grows [log_file h] w made.1).
  { subst made. destruct (negb (path_exists w0 (parent (parse p)))); [|done].
    eapply grows_weaken;
      [|eapply grows_trans;
          [exact H0|eapply grows_trans;
                      [apply logged_grows, logged_log
                      |apply mkdir_parents_grows]]].
    intros k. rewrite !elem_of_app. by intros [?|[?|?%elem_of_nil]]. }
  destruct made as [w1 [e|]]; simpl in Hmade.
  { intros [= <- <-]. exists w1. split; [done|]. left.
    split; [apply logged_log|by eexists]. }
  destruct (write_text w1 (parse p) c) as [e|w2] eqn:Hw.
  { intros [= <- <-]. exists w1. split; [done|]. left.
    split; [apply logged_log|by eexists]. }
  intros [= <- <-]. exists w1. split; [done|]. right. by exists w2.
Qed.

(** After a successful [write_file] the path names the file with the text
    written, unless it names the log file (which holds more by then) or a
    special node. *)
Lemma write_file_success (w w' : World) (p c : string) fields :
  write_file h w (JStr p) (JStr c) = (w', JObj fields) →
  dict_get fields "success" = Some (JBool true) →
  ∃ key,
    resolve w' (parse p) = inr key ∧
    (is_special w' (parse p) = false → key ≠ log_file h →
     node_at w' key = Some (File c (clock w))) ∧
    (is_special w' (parse p) = false → is_file w' (parse p) = true) ∧
    is_dir w' (parent (parse p)) = true ∧ tail (parse p) ≠ [] ∧
    path_exists w' (parse p) = true ∧ is_dir w' (parse p) = false ∧
    cwd w' = cwd w.
Proof.
  intros Hw Hs.
  apply write_file_cases in Hw
    as (w1 & Hg & [[_ [m Hr]]|(w2 & Hwt & -> & _)]);
    [by injection Hr as ->|].
  apply write_text_stat in Hwt
    as (key & Hres & Hnode & Hdir & Hne & Hcwd & Hclock).
  destruct Hg as (Hcwd1 & Hclock1 & _).
  assert (Hstat : stat w2 (parse p)
                  = inr (default (File "" 0) (node_at w2 key))).
  { unfold stat. rewrite Hres. by destruct Hnode as [->|(? & ? & ? & ? & ->)]. }
  exists key. logs. split; [done|].
  split; [|split; [|split; [done|split; [done|]]]].
  - intros Hsp Hkey. rewrite node_at_log by done.
    destruct Hnode as [->|(r & s & t & x & Hx)]; [congruence|].
    unfold is_special in Hsp. rewrite Hstat, Hx in Hsp. done.
  - unfold is_special, is_file. rewrite Hstat.
    by destruct Hnode as [->|(? & ? & ? & ? & ->)].
  - unfold path_exists, is_dir. rewrite Hstat.
    split; [done|]. split; [|congruence].
    by destruct Hnode as [->|(? & ? & ? & ? & ->)].
Qed.

(** C5 (as amended): after a successful [write_file] of the text [c] to a
    path [p] that names neither a special file (a device, a file of
    [procfs]) nor the log file of the server, [read_file] of [p] returns
    the size [len(c)] in bytes and as content [c] with every [\r\n] and
    [\r] turned into [\n] (the file is read in text mode); the content is
    [c] itself when [c] holds no carriage return. *)
Theorem write_then_read (w w' : World) (p c : string) fields :
  write_file h w (JStr p) (JStr c) = (w', JObj fields) →
  dict_get fields "success" = Some (JBool true) →
  is_special w' (parse p) = false →
  resolve w' (parse p) ≠ inr (log_file h) →
  (read_file h w' (JStr p)).2
  = JObj [("content", JStr (universal_newlines c));
          ("size", JNum (Z.of_nat (String.length c)));
          ("path", JStr (to_str (absolute w' (parse p))))]
  ∧ (has_cr c = false → universal_newlines c = c).
Proof.
  intros Hw Hs Hsp Hlog. split; [|apply universal_newlines_id].
  destruct (write_file_success _ _ _ _ _ Hw Hs) as (key & Hres & Hnode & _).
  assert (Hkey : key ≠ log_file h) by congruence.
  by rewrite (read_file_answer h w' p key _ Hres Hkey (Hnode Hsp Hkey)).
Qed.

(** *** A missing directory *)

(** The FastMCP server answers a missing directory with all four fields. *)
Lemma list_files_missing_directory (w : World) (d : string) :
  path_exists w (parse d) = false →
  (FilesystemMcp.list_files h w {| FilesystemMcp.directory := Some d |}).2
  = Ok {| FilesystemMcp.files := [];
          FilesystemMcp.directories := [];
          FilesystemMcp.path := to_str (parse d);
          FilesystemMcp.error := Some ("Directory '" +:+ d +:+ "' not found") |}.
Proof.
  intros Hex. unfold FilesystemMcp.list_files. simpl. logs. by rewrite Hex.
Qed.

(** The protocol server answers it with the error alone. *)
Lemma list_files_fixed_missing_directory (w : World) (d : string) :
  path_exists w (parse d) = false →
  (list_files h w (JStr d)).2
  = JObj [("error", JStr ("Directory '" +:+ d +:+ "' not found"))].
Proof. intros Hex. unfold list_files. simpl. logs. by rewrite Hex. Qed.

(** *** Dispatch *)

Lemma not_initialize (v : json) :
  eq_str v "execute_function" = true → eq_str v "initialize" = false.
Proof.
  destruct v as [| | | |s| |]; try done. simpl.
  intros ->%bool_decide_eq_true. done.
Qed.

(** An [execute_function] request never raises: what the dispatch raises
    becomes the error envelope, after a line in the log. *)
Lemma execute_function_total (w : World) fields :
  eq_str (get fields "method") "execute_function" = true →
  ∃ w' response,
    handle_request h w (JObj fields) = Ok (w', response) ∧
    ∀ e,
      dispatch h (announced h w fields) (get fields "function_name")
               (default (JObj []) (dict_get fields "parameters")) = Raise e →
      w' = error h ("Error executing function "
                    +:+ py_str h (get fields "function_name")
                    +:+ ": " +:+ exn_msg e) (announced h w fields)
      ∧ response = JObj [("error", JStr (exn_msg e))].
Proof.
  intros Hm. unfold handle_request.
  rewrite (not_initialize _ Hm), Hm.
  change (info h _ (info h _ w)) with (announced h w fields).
  destruct (dispatch h _ _ _) as [[w' r]|e].
  - exists w', r. split; [done|]. intros e. discriminate.
  - eexists _, _. split; [done|]. by intros e' [= <-].
Qed.

(** C6: an [execute_function] request whose function name is none of the
    registered operations is answered with the envelope
    [{"error": "Unknown function: <name>"}] (after a warning in the log),
    and the server loop prints that document for its line; no
    [execute_function] request raises past [handle_request]: an exception
    of the dispatch is logged and becomes [{"error": str(e)}]. *)
Theorem unknown_function_is_error_envelope (w : World) fields :
  eq_str (get fields "method") "execute_function" = true →
  (∀ s, s ∈ tool_specs →
        eq_str (get fields "function_name") (spec_name s) = false) →
  let unknown :=
    "Unknown function: " +:+ py_str h (get fields "function_name") in
  handle_request h w (JObj fields)
    = Ok (warning h unknown (announced h w fields),
          JObj [("error", JStr unknown)])
  ∧ (∀ line,
       json_loads h line = Ok (JObj fields) →
       serve_line h w line
       = (debug h "Response sent and flushed"
            (debug h ("Sending response: "
                      +:+ json_dumps h (JObj [("error", JStr unknown)]))
               (warning h unknown
                  (announced h
                     (debug h ("Received input line: " +:+ Text.strip line) w)
                     fields))),
          JObj [("error", JStr unknown)]))
  ∧ (∀ w0 fields0,
       eq_str (get fields0 "method") "execute_function" = true →
       ∃ w' response,
         handle_request h w0 (JObj fields0) = Ok (w', response) ∧
         ∀ e,
           dispatch h (announced h w0 fields0) (get fields0 "function_name")
                    (default (JObj []) (dict_get fields0 "parameters"))
             = Raise e →
           w' = error h ("Error executing function "
                         +:+ py_str h (get fields0 "function_name")
                         +:+ ": " +:+ exn_msg e) (announced h w0 fields0)
           ∧ response = JObj [("error", JStr (exn_msg e))]).
Proof.
  intros Hm Hnone unknown.
  assert (Hreq : ∀ w, handle_request h w (JObj fields)
    = Ok (warning h unknown (announced h w fields),
          JObj [("error", JStr unknown)])).
  { intros w1. unfold handle_request.
    rewrite (not_initialize _ Hm), Hm. unfold dispatch.
    unfold tool_specs in Hnone.
    pose proof (Hnone _ (list_elem_of_here _ _)) as H1.
    pose proof (Hnone _ (list_elem_of_further _ _ _
                           (list_elem_of_here _ _))) as H2.
    pose proof (Hnone _ (list_elem_of_further _ _ _
                           (list_elem_of_further _ _ _
                              (list_elem_of_here _ _)))) as H3.
    pose proof (Hnone _ (list_elem_of_further _ _ _
                           (list_elem_of_further _ _ _
                              (list_elem_of_further _ _ _
                                 (list_elem_of_here _ _))))) as H4.
    simpl in H1, H2, H3, H4. by rewrite H1, H2, H3, H4. }
  split; [apply Hreq|]. split; [|apply execute_function_total].
  intros line Hline. unfold serve_line.
  rewrite Hline. unfold mbind, result_bind. by rewrite Hreq.
Qed.

(** *** Required parameters *)

(** A call that leaves out a parameter without default raises before the
    body of the handler is entered. *)
Lemma bind_kwargs_requires (sg : Signature) (params : json) (f : string) :
  (f, None) ∈ fn_params sg →
  (∀ kwargs, params = JObj kwargs → dict_get kwargs f = None) →
  ∃ msg, bind_kwargs h sg params = Raise (Exn TypeError msg).
Proof.
  intros Hf Hmissing. unfold bind_kwargs.
  destruct params as [| | | | | |kwargs]; try by eexists.
  specialize (Hmissing kwargs eq_refl).
  destruct (List.find _ kwargs) as [[k v]|]; [by eexists|].
  destruct (omap _ (bind_param kwargs <$> fn_params sg))
    as [|m ms] eqn:Hbound; [|by eexists].
  exfalso. assert (Hin : f ∈ omap
    (λ b : string + json, match b with inl n => Some n | inr _ => None end)
    (bind_param kwargs <$> fn_params sg)).
  { apply list_elem_of_omap. exists (inl f). split; [|done].
    apply list_elem_of_fmap. exists (f, None). split; [|done].
    unfold bind_param. simpl. by rewrite Hmissing. }
  rewrite Hbound in Hin. by apply elem_of_nil in Hin.
Qed.

(** The schema marks as required exactly the parameters without default. *)
Lemma required_has_no_default (s : ToolSpec) (r : list string) (f : string) :
  s ∈ tool_specs → required s = Some r → f ∈ r →
  ∃ sg, sg ∈ signatures ∧ fn_name sg = spec_name s ∧ (f, None) ∈ fn_params sg.
Proof.
  unfold tool_specs, signatures. intros Hs Hr Hf.
  repeat (apply elem_of_cons in Hs as [->|Hs]); simpl in Hr;
    try discriminate Hr; try (by apply elem_of_nil in Hs);
    injection Hr as <-.
  - exists sig_read_file. split; [|split; [done|]].
    + apply list_elem_of_further, list_elem_of_here.
    + apply list_elem_of_singleton in Hf as ->. apply list_elem_of_here.
  - exists sig_write_file. split; [|split; [done|]].
    + do 2 apply list_elem_of_further. apply list_elem_of_here.
    + apply elem_of_cons in Hf as [->|Hf]; [apply list_elem_of_here|].
      apply list_elem_of_singleton in Hf as ->.
      apply list_elem_of_further, list_elem_of_here.
  - exists sig_get_file_info. split; [|split; [done|]].
    + do 3 apply list_elem_of_further. apply list_elem_of_here.
    + apply list_elem_of_singleton in Hf as ->. apply list_elem_of_here.
Qed.

Lemma find_none_all {A} (f : A → bool) (l : list A) :
  (∀ x, x ∈ l → f x = false) → List.find f l = None.
Proof.
  induction l as [|x l IH]; intros Hl; [done|]. simpl.
  rewrite Hl by apply list_elem_of_here.
  apply IH. intros y Hy. by apply Hl, list_elem_of_further.
Qed.

(** No key of [kwargs] is foreign to a handler whose parameters are
    [names]. *)
Lemma no_unexpected_keyword (kwargs : list (string * json))
    (names : list string) :
  (∀ k, k ∈ kwargs.*1 → k ∈ names) →
  List.find (λ kv : string * json, negb (bool_decide (kv.1 ∈ names))) kwargs
  = None.
Proof.
  intros Hn. apply find_none_all. intros [k v] Hkv. simpl.
  rewrite bool_decide_eq_true_2; [done|].
  apply Hn. apply list_elem_of_fmap. by exists (k, v).
Qed.

(** The message of a call that leaves out required parameters and passes
    no foreign key: it names the parameters left out, in their order. *)
Lemma bind_kwargs_missing_message (s : ToolSpec) (sg : Signature)
    (r : list string) (kwargs : list (string * json)) (msg : string) :
  s ∈ tool_specs → required s = Some r →
  sg ∈ signatures → fn_name sg = spec_name s →
  (∀ k, k ∈ kwargs.*1 → k ∈ (properties s).*1) →
  bind_kwargs h sg (JObj kwargs) = Raise (Exn TypeError msg) →
  msg = missing_message (spec_name s)
          (List.filter (λ x, if dict_get kwargs x is Some _ then false
                             else true) r).
Proof.
  unfold tool_specs, signatures. intros Hs Hr Hsg Hfn Hkeys.
  repeat (apply elem_of_cons in Hs as [->|Hs]); simpl in Hr;
    try discriminate Hr; try (by apply elem_of_nil in Hs);
    injection Hr as <-;
    repeat (apply elem_of_cons in Hsg as [->|Hsg]);
    try discriminate Hfn; try (by apply elem_of_nil in Hsg);
    unfold bind_kwargs; simpl in *;
    rewrite (no_unexpected_keyword kwargs _ Hkeys); unfold bind_param; simpl.
  - destruct (dict_get kwargs "file_path"); simpl; [done|by intros [= <-]].
  - destruct (dict_get kwargs "file_path"), (dict_get kwargs "content");
      simpl; [done|by intros [= <-]..].
  - destruct (dict_get kwargs "file_path"); simpl; [done|by intros [= <-]].
Qed.

(** C9 (as amended): when the parameters of an [execute_function] request
    leave out a field that the schema of the operation marks as required,
    the call of the handler raises [TypeError] while its arguments are
    bound, before the body of the handler runs; the error is logged and
    the request is answered with the error envelope that carries the
    message of the call.  When the parameters are an object that holds no
    key foreign to the schema, the message names the required fields left
    out.  Nothing but the presence of the required fields is checked. *)
Theorem missing_required_field_is_rejected
    (w : World) fields (s : ToolSpec) (r : list string) (f : string) :
  s ∈ tool_specs → required s = Some r → f ∈ r →
  eq_str (get fields "method") "execute_function" = true →
  get fields "function_name" = JStr (spec_name s) →
  (∀ kwargs, default (JObj []) (dict_get fields "parameters") = JObj kwargs →
             dict_get kwargs f = None) →
  ∃ sg msg,
    sg ∈ signatures ∧ fn_name sg = spec_name s ∧
    bind_kwargs h sg (default (JObj []) (dict_get fields "parameters"))
      = Raise (Exn TypeError msg) ∧
    handle_request h w (JObj fields)
      = Ok (error h ("Error executing function " +:+ spec_name s +:+ ": "
                     +:+ msg) (announced h w fields),
            JObj [("error", JStr msg)]) ∧
    (∀ kwargs,
       default (JObj []) (dict_get fields "parameters") = JObj kwargs →
       (∀ k, k ∈ kwargs.*1 → k ∈ (properties s).*1) →
       msg = missing_message (spec_name s)
               (List.filter (λ x, if dict_get kwargs x is Some _ then false
                                  else true) r)).
Proof.
  intros Hs Hr Hf Hm Hname Hmissing.
  destruct (required_has_no_default s r f Hs Hr Hf)
    as (sg & Hsg & Hfn & Hparam).
  destruct (bind_kwargs_requires sg _ f Hparam Hmissing) as [msg Hbind].
  exists sg, msg. split; [done|]. split; [done|]. split; [done|]. split.
  - unfold handle_request.
    rewrite (not_initialize _ Hm), Hm.
    change (info h _ (info h _ w)) with (announced h w fields).
    rewrite Hname. cbn [py_str]. unfold dispatch.
    unfold signatures in Hsg.
    repeat (apply elem_of_cons in Hsg as [->|Hsg]);
      try (by apply elem_of_nil in Hsg);
      simpl in Hfn; rewrite <- Hfn; simpl; rewrite Hbind; done.
  - intros kwargs Hk Hkeys. rewrite Hk in Hbind.
    by eapply bind_kwargs_missing_message.
Qed.

End WithHost.

(** *** The server loop *)

Lemma readlines_nonempty (stdin : string) :
  Forall (λ line, line ≠ "") (readlines stdin).
Proof.
  induction stdin as [|c s IH]; simpl; [constructor|].
  case_decide; [by constructor|].
  destruct (readlines s) as [|l ls]; [by repeat constructor|].
  apply Forall_cons in IH as [_ IH]. by constructor.
Qed.

Section WithHost.
Variable h : Host.

(** The loop handles the lines one after the other. *)
Lemma main_loop_app (w : World) (pre rest : list string) :
  Forall (λ line, line ≠ "") pre →
  main_loop h w (pre ++ rest)
  = ((main_loop h (rounds h w pre).1 rest).1,
     (rounds h w pre).2 ++ (main_loop h (rounds h w pre).1 rest).2).
Proof.
  intros Hpre. revert w. induction Hpre as [|line pre Hline _ IH]; intros w.
  - simpl. by destruct (main_loop h w rest).
  - simpl. rewrite !decide_False by done.
    destruct (round h w line) as [w1 doc]. rewrite IH.
    destruct (rounds h w1 pre) as [w2 docs]. simpl.
    by destruct (main_loop h w2 rest).
Qed.

(** C8: a line that is not JSON is answered with the one document
    [{"error": "Invalid JSON: <detail>"}] (and four lines in the log); the
    lines before it and after it are served as they would be without it.
    At the end of the input the loop ends and prints nothing more. *)
Theorem invalid_json_is_answered_and_loop_goes_on
    (w : World) (pre rest : list string) (line detail : string) :
  Forall (λ l, l ≠ "") pre →
  line ≠ "" →
  json_loads h line = Raise (Exn JSONDecodeError detail) →
  let w1 := (rounds h w pre).1 in
  let w2 :=
    error h ("Line content: " +:+ Text.strip line)
      (error h ("Error decoding JSON: " +:+ detail)
         (debug h ("Received input line: " +:+ Text.strip line)
            (debug h "Waiting for input line..." w1))) in
  main_loop h w (pre ++ line :: rest)
  = ((main_loop h w2 rest).1,
     (rounds h w pre).2
       ++ JObj [("error", JStr ("Invalid JSON: " +:+ detail))]
       :: (main_loop h w2 rest).2)
  ∧ main_loop h w []
    = (info h "End of input stream, shutting down"
         (debug h "Waiting for input line..." w), []).
Proof.
  intros Hpre Hline Hbad w1 w2. split; [|done].
  rewrite main_loop_app by done. simpl. rewrite decide_False by done.
  unfold round, serve_line. rewrite Hbad. simpl.
  fold w1. fold w2. by destruct (main_loop h w2 rest).
Qed.

End WithHost.

(** *** The claims at work *)

Lemma write_then_read_witness :
  (read_file demo_host
     (write_file demo_host demo_world (JStr "notes/today.txt")
                 (JStr lf_text)).1
     (JStr "notes/today.txt")).2
  = JObj [("content", JStr (universal_newlines lf_text));
          ("size", JNum (Z.of_nat (String.length lf_text)));
          ("path",
           JStr (to_str
                   (absolute
                      (write_file demo_host demo_world
                                  (JStr "notes/today.txt") (JStr lf_text)).1
                      (parse "notes/today.txt"))))]
  ∧ (has_cr lf_text = false → universal_newlines lf_text = lf_text).
Proof.
  eapply (write_then_read demo_host demo_world _ "notes/today.txt" lf_text).
  - vm_compute. reflexivity.
  - vm_compute. reflexivity.
  - vm_compute. reflexivity.
  - vm_compute. intros H. discriminate H.
Defined.

Example write_creates_parents :
  (write_file demo_host demo_world (JStr "notes/today.txt") (JStr lf_text)).2
  = JObj [("success", JBool true);
          ("message", JStr "Successfully wrote 3 bytes to notes/today.txt");
          ("path", JStr "/home/agent/notes/today.txt")].
Proof. vm_compute. reflexivity. Qed.

(** The message counts characters, the size counts bytes. *)
Example write_counts_characters :
  (write_file demo_host demo_world (JStr "e.txt") (JStr (Text.encode 0xE9))).2
  = JObj [("success", JBool true);
          ("message", JStr "Successfully wrote 1 bytes to e.txt");
          ("path", JStr "/home/agent/e.txt")]
  ∧ (get_file_info demo_host
       (write_file demo_host demo_world (JStr "e.txt")
                   (JStr (Text.encode 0xE9))).1
       (JStr "e.txt")).2
    = JObj [("name", JStr "e.txt"); ("size", JNum 2);
            ("modified", JFloat 300); ("is_file", JBool true);
            ("is_dir", JBool false); ("path", JStr "/home/agent/e.txt")].
Proof. split; vm_compute; reflexivity. Qed.

(** C5 (as stated) fails: [a\rb] is written, and [a\nb] is read back. *)
Lemma round_trip_counterexample :
  ¬ round_trip demo_host demo_world "notes.txt" cr_text.
Proof.
  intros H.
  destruct (H (write_file demo_host demo_world (JStr "notes.txt")
                          (JStr cr_text)).1
              [("success", JBool true);
               ("message", JStr "Successfully wrote 3 bytes to notes.txt");
               ("path", JStr "/home/agent/notes.txt")])
    as [abs_path Hread];
    [vm_compute; reflexivity|vm_compute; reflexivity|].
  vm_compute in Hread. discriminate Hread.
Qed.

Example read_after_cr_write :
  (read_file demo_host
     (write_file demo_host demo_world (JStr "notes.txt") (JStr cr_text)).1
     (JStr "notes.txt")).2
  = JObj [("content", JStr lf_text); ("size", JNum 3);
          ("path", JStr "/home/agent/notes.txt")].
Proof. vm_compute. reflexivity. Qed.

(** Why the amended claim leaves special files out: a write to
    [/dev/null] reports success, and the path is no file to read. *)
Example write_to_device_then_read :
  (write_file demo_host demo_world (JStr "/dev/null") (JStr "x")).2
  = JObj [("success", JBool true);
          ("message", JStr "Successfully wrote 1 bytes to /dev/null");
          ("path", JStr "/dev/null")]
  ∧ (read_file demo_host
       (write_file demo_host demo_world (JStr "/dev/null") (JStr "x")).1
       (JStr "/dev/null")).2
    = JObj [("error", JStr "'/dev/null' is not a file")].
Proof. split; vm_compute; reflexivity. Qed.

(** Why it leaves the log file out: the lines logged since the write are
    read back after the text, and the size counts one line more. *)
Example write_to_log_then_read :
  (read_file demo_host
     (write_file demo_host demo_world (JStr "filesystem_mcp.log")
                 (JStr "x")).1
     (JStr "filesystem_mcp.log")).2
  = JObj [("content",
           JStr ("x"
             +:+ "300 - filesystem_mcp - INFO - Successfully wrote 1 bytes to filesystem_mcp.log"
             +:+ nl
             +:+ "300 - filesystem_mcp - INFO - Reading file: filesystem_mcp.log"
             +:+ nl));
          ("size", JNum 225);
          ("path", JStr "/home/agent/filesystem_mcp.log")].
Proof. vm_compute. reflexivity. Qed.

Example list_files_nonexistent :
  (FilesystemMcp.list_files demo_host demo_world
     {| FilesystemMcp.directory := Some "/nonexistent" |}).2
  = Ok {| FilesystemMcp.files := [];
          FilesystemMcp.directories := [];
          FilesystemMcp.path := "/nonexistent";
          FilesystemMcp.error := Some "Directory '/nonexistent' not found" |}.
Proof. vm_compute. reflexivity. Qed.

(** C7 fails on the protocol server: for [/nonexistent] its [list_files]
    returns [{"error": "Directory '/nonexistent' not found"}], without
    [files], [directories] and [path]. *)
Theorem list_files_fixed_nonexistent_bare_error :
  (list_files demo_host demo_world (JStr "/nonexistent")).2
    = JObj [("error", JStr "Directory '/nonexistent' not found")]
  ∧ ¬ four_fields "/nonexistent"
        (list_files demo_host demo_world (JStr "/nonexistent")).2.
Proof.
  split; [vm_compute; reflexivity|].
  intros (fields & Hres & Hfiles & _).
  vm_compute in Hres. injection Hres as <-. discriminate Hfiles.
Qed.

Example serve_bad_line_between_two :
  (main demo_host demo_world (init_line +:+ bad_line +:+ init_line)).2
  = [ initialize_response;
      JObj [("error", JStr ("Invalid JSON: " +:+ bad_detail))];
      initialize_response ].
Proof. vm_compute. reflexivity. Qed.

Lemma invalid_json_is_answered_and_loop_goes_on_witness :
  let w1 := (rounds demo_host demo_world [init_line]).1 in
  let w2 :=
    error demo_host ("Line content: " +:+ Text.strip bad_line)
      (error demo_host ("Error decoding JSON: " +:+ bad_detail)
         (debug demo_host ("Received input line: " +:+ Text.strip bad_line)
            (debug demo_host "Waiting for input line..." w1))) in
  main_loop demo_host demo_world ([init_line] ++ bad_line :: [init_line])
  = ((main_loop demo_host w2 [init_line]).1,
     (rounds demo_host demo_world [init_line]).2
       ++ JObj [("error", JStr ("Invalid JSON: " +:+ bad_detail))]
       :: (main_loop demo_host w2 [init_line]).2)
  ∧ main_loop demo_host demo_world []
    = (info demo_host "End of input stream, shutting down"
         (debug demo_host "Waiting for input line..." demo_world), []).
Proof.
  apply (invalid_json_is_answered_and_loop_goes_on demo_host
           demo_world [init_line] [init_line] bad_line bad_detail).
  - repeat constructor. vm_compute. discriminate.
  - vm_compute. discriminate.
  - vm_compute. reflexivity.
Defined.

Lemma unknown_function_is_error_envelope_witness :
  let unknown :=
    "Unknown function: "
    +:+ py_str demo_host (get unknown_function_request "function_name") in
  handle_request demo_host demo_world (JObj unknown_function_request)
    = Ok (warning demo_host unknown
            (announced demo_host demo_world unknown_function_request),
          JObj [("error", JStr unknown)])
  ∧ (∀ line,
       json_loads demo_host line = Ok (JObj unknown_function_request) →
       serve_line demo_host demo_world line
       = (debug demo_host "Response sent and flushed"
            (debug demo_host
               ("Sending response: "
                +:+ json_dumps demo_host (JObj [("error", JStr unknown)]))
               (warning demo_host unknown
                  (announced demo_host
                     (debug demo_host
                        ("Received input line: " +:+ Text.strip line)
                        demo_world)
                     unknown_function_request))),
          JObj [("error", JStr unknown)]))
  ∧ (∀ w0 fields0,
       eq_str (get fields0 "method") "execute_function" = true →
       ∃ w' response,
         handle_request demo_host w0 (JObj fields0) = Ok (w', response) ∧
         ∀ e,
           dispatch demo_host (announced demo_host w0 fields0)
                    (get fields0 "function_name")
                    (default (JObj []) (dict_get fields0 "parameters"))
             = Raise e →
           w' = error demo_host
                  ("Error executing function "
                   +:+ py_str demo_host (get fields0 "function_name")
                   +:+ ": " +:+ exn_msg e)
                  (announced demo_host w0 fields0)
           ∧ response = JObj [("error", JStr (exn_msg e))]).
Proof.
  apply (unknown_function_is_error_envelope demo_host demo_world
           unknown_function_request).
  - vm_compute. reflexivity.
  - intros s Hs. unfold tool_specs in Hs.
    repeat (apply elem_of_cons in Hs as [->|Hs]);
      [vm_compute; reflexivity ..|by apply elem_of_nil in Hs].
Defined.

Example unknown_function_answer :
  (λ r, match r with Ok (_, response) => Some response | Raise _ => None end)
    (handle_request demo_host demo_world (JObj unknown_function_request))
  = Some (JObj [("error", JStr "Unknown function: delete_file")]).
Proof. vm_compute. reflexivity. Qed.

Lemma missing_required_field_is_rejected_witness :
  ∃ sg msg,
    sg ∈ signatures ∧ fn_name sg = "read_file" ∧
    bind_kwargs demo_host sg
      (default (JObj []) (dict_get read_without_path_request "parameters"))
      = Raise (Exn TypeError msg) ∧
    handle_request demo_host demo_world (JObj read_without_path_request)
      = Ok (error demo_host
              ("Error executing function " +:+ "read_file" +:+ ": " +:+ msg)
              (announced demo_host demo_world read_without_path_request),
            JObj [("error", JStr msg)]) ∧
    (∀ kwargs,
       default (JObj []) (dict_get read_without_path_request "parameters")
       = JObj kwargs →
       (∀ k, k ∈ kwargs.*1 → k ∈ (properties read_file_spec).*1) →
       msg = missing_message "read_file"
               (List.filter (λ x, if dict_get kwargs x is Some _ then false
                                  else true) ["file_path"])).
Proof.
  apply (missing_required_field_is_rejected demo_host demo_world
           read_without_path_request read_file_spec ["file_path"]
           "file_path").
  - unfold tool_specs. apply list_elem_of_further, list_elem_of_here.
  - reflexivity.
  - apply list_elem_of_here.
  - vm_compute. reflexivity.
  - vm_compute. reflexivity.
  - intros kwargs Hk. vm_compute in Hk. injection Hk as <-. reflexivity.
Defined.

Example read_file_without_path_answer :
  (λ r, match r with Ok (_, response) => Some response | Raise _ => None end)
    (handle_request demo_host demo_world (JObj read_without_path_request))
  = Some (JObj [("error",
                 JStr "read_file() missing 1 required positional argument: 'file_path'")]).
Proof. vm_compute. reflexivity. Qed.

(** C9 (as stated) fails: a number as [content] passes the binding of the
    arguments of [write_file], so the body of the handler runs on a value
    that does not fit the schema. *)
Lemma unvalidated_value_reaches_handler :
  ¬ validated_before_invocation demo_host write_file_spec sig_write_file
      (JObj [("file_path", JStr "newdir/x.txt"); ("content", JNum 5)]).
Proof.
  intros H. destruct (H [JStr "newdir/x.txt"; JNum 5] eq_refl)
    as (kwargs & [= <-] & _ & Htypes).
  destruct (Htypes "content" (JNum 5) "Content to write to the file")
    as [str Hstr]; [done| |done].
  unfold write_file_spec. simpl.
  apply list_elem_of_further, list_elem_of_here.
Qed.

(** The values of the parameters are not checked: a number as [content]
    reaches [write_file], which makes the directory of the path before the
    write fails, and answers in its result. *)
Example write_file_number_answer :
  path_exists demo_world (parse "newdir") = false ∧
  match handle_request demo_host demo_world (JObj write_number_request) with
  | Ok (w', response) =>
      is_dir w' (parse "newdir") = true ∧
      response
      = JObj [("result",
               JObj [("error", JStr "data must be str, not int")])]
  | Raise _ => False
  end.
Proof. vm_compute. done. Qed.

(** A number as [file_path] reaches [read_file]. *)
Example read_file_number_answer :
  (λ r, match r with Ok (_, response) => Some response | Raise _ => None end)
    (handle_request demo_host demo_world
       (JObj [("method", JStr "execute_function");
              ("function_name", JStr "read_file");
              ("parameters", JObj [("file_path", JNum 5)])]))
  = Some (JObj [("result",
                 JObj [("error",
                        JStr "expected str, bytes or os.PathLike object, not int")])]).
Proof. vm_compute. reflexivity. Qed.

Section WithHost.
Variable h : Host.

Abbreviation logged := (logged (log_file h)).

(** What [list_files] answers for a directory. *)
Lemma list_files_answer (w : World) (d : string) (items : list string) :
  path_exists w (parse d) = true →
  listdir w (parse d) = inr items →
  (list_files h w (JStr d)).2
  = JObj [("files",
           JArr (JStr <$> List.filter (λ n, is_file w (child (parse d) n))
                                      items));
          ("directories",
           JArr (JStr <$> List.filter (λ n, is_dir w (child (parse d) n))
                                      items));
          ("path", JStr (to_str (absolute w (parse d))))].
Proof.
  intros Hex Hls. unfold list_files, make_path. logs. rewrite Hex, Hls.
  simpl. logs. f_equal. f_equal; [|f_equal].
  - do 3 f_equal. apply filter_ext_bool. intros n. apply is_file_log.
  - do 3 f_equal. apply filter_ext_bool. intros n. apply is_dir_log.
Qed.

(** A log line makes the log file longer, and leaves the other files. *)
Lemma stat_log_file levelname message (w : World) (p : Path) d t :
  stat w p = inr (File d t) →
  ∃ d' t', stat (log h levelname message w) p = inr (File d' t') ∧
           String.length d ≤ String.length d'.
Proof.
  unfold stat. rewrite resolve_log.
  destruct (resolve w p) as [e|k]; [done|].
  destruct (node_at w k) as [n|] eqn:Hk; [|done]. intros [= ->].
  destruct (decide (k = log_file h)) as [->|Hne].
  - assert (Hmap : nodes w !! log_file h = Some (File d t)).
    { rewrite <- node_at_not_dir; [done|]. intros s t'. congruence. }
    assert (Hroot : log_file h ≠ []).
    { intros Heq. rewrite Heq in Hk.
      destruct (root_is_dir w) as (s & t' & Hr). congruence. }
    unfold log, append_text. rewrite Hmap.
    rewrite node_at_insert, decide_True by done.
    eexists _, _. split; [done|]. rewrite string_app_length. lia.
  - rewrite node_at_log, Hk by done. eauto.
Qed.

End WithHost.

End ServerFacts.

(** ** More on the windower: what the output is made of *)

Module WindowerMore.
Import Messages Windower WindowerScenarios WindowerFacts.

Lemma List_filter_sublist {A} (f : A → bool) (l : list A) :
  List.filter f l `sublist_of` l.
Proof.
  induction l as [|x l IH]; simpl; [constructor|].
  destruct (f x); by constructor.
Qed.

Lemma enumerate_snd {A} (l : list A) : (enumerate l).*2 = l.
Proof. unfold enumerate. apply snd_zip. by rewrite length_seq. Qed.

Lemma select_sublist (I : gset nat) (l : list ModelMessage) :
  select I l `sublist_of` l.
Proof.
  unfold select. rewrite <- (enumerate_snd l) at 2.
  apply fmap_sublist, sublist_filter.
Qed.

Lemma apply_limit_sublist (limit : Z) (l : list ModelMessage) :
  apply_limit limit l `sublist_of` l.
Proof.
  unfold apply_limit. case_decide; [|done].
  destruct (scan_tool_ids l). case_decide; [|done].
  apply select_sublist.
Qed.

(** What follows the system message in the output. *)
Lemma output_shape
    (msgs : list ModelMessage) (limit : option Z) (include_tool_messages : bool) :
  filtered_message_history (Some {| all_messages := msgs |}) limit
    include_tool_messages
  = Some (option_list (List.find has_system_prompt msgs) ++
          match limit with
          | Some l => apply_limit l (non_system_of include_tool_messages msgs)
          | None => non_system_of include_tool_messages msgs
          end).
Proof.
  unfold filtered_message_history, system_message_of. cbn [all_messages].
  by destruct (List.find has_system_prompt msgs).
Qed.

(** The windower neither invents nor reorders messages: after the system
    message, the output is a subsequence of the messages of the input that
    carry no system prompt. *)
Theorem output_is_subsequence
    (msgs : list ModelMessage) (limit : option Z) (include_tool_messages : bool) :
  ∃ rest,
    filtered_message_history (Some {| all_messages := msgs |}) limit
      include_tool_messages
    = Some (option_list (List.find has_system_prompt msgs) ++ rest)
    ∧ rest `sublist_of` List.filter (λ m, negb (has_system_prompt m)) msgs.
Proof.
  eexists. split; [apply output_shape|].
  assert (Hns : non_system_of include_tool_messages msgs
                `sublist_of` List.filter (λ m, negb (has_system_prompt m)) msgs).
  { unfold non_system_of. destruct include_tool_messages; [done|].
    apply List_filter_sublist. }
  destruct limit as [l|]; [|done].
  etrans; [apply apply_limit_sublist|done].
Qed.

(** With [include_tool_messages=False] no message after the system message
    carries a tool call or a tool return, whatever the limit. *)
Theorem no_tool_messages_when_excluded
    (msgs : list ModelMessage) (limit : option Z) :
  ∃ rest,
    filtered_message_history (Some {| all_messages := msgs |}) limit false
    = Some (option_list (List.find has_system_prompt msgs) ++ rest)
    ∧ Forall (λ m, has_tool_part m = false) rest.
Proof.
  eexists. split; [apply output_shape|].
  assert (Hns : ∀ m, m ∈ non_system_of false msgs → has_tool_part m = false).
  { unfold non_system_of. intros m Hm.
    apply list_elem_of_In, List.filter_In in Hm as [_ Ht].
    by destruct (has_tool_part m). }
  apply Forall_forall. intros m Hm. apply Hns.
  destruct limit as [l|]; [|done]. by eapply apply_limit_elem_of.
Qed.

(** *** The last [limit] messages and the messages put back *)

(** The loop leaves the set alone on messages whose index is not in it. *)
Lemma repair_frozen ids (I : gset nat) (el : list (nat * ModelMessage)) :
  (∀ im, im ∈ el → im.1 ∉ I) →
  foldl (repair_message ids) I el = I.
Proof.
  induction el as [|im el IH]; intros Hel; simpl; [done|].
  unfold repair_message at 2. rewrite decide_False
    by apply Hel, list_elem_of_here.
  apply IH. intros im' Him'. by apply Hel, list_elem_of_further.
Qed.

Lemma take_enumerate_index {A} (l : list A) a (im : nat * A) :
  im ∈ take a (enumerate l) → im.1 < a.
Proof.
  intros [i Hi]%list_elem_of_lookup_1. destruct im as [j x].
  apply lookup_take_Some in Hi as [Hi Hlt].
  apply enumerate_lookup in Hi as [-> _]. done.
Qed.

Lemma drop_enumerate_index {A} (l : list A) a (im : nat * A) :
  im ∈ drop a (enumerate l) → a ≤ im.1 < length l.
Proof.
  intros [i Hi]%list_elem_of_lookup_1. destruct im as [j x].
  rewrite lookup_drop in Hi. apply enumerate_lookup in Hi as [-> Hi].
  apply lookup_lt_Some in Hi. simpl. lia.
Qed.

(** Only the messages of the initial window are looked at. *)
Lemma repair_window ids (l : list ModelMessage) (k : nat) :
  repair ids (list_to_set (seq (length l - k) k)) l
  = foldl (repair_message ids) (list_to_set (seq (length l - k) k))
          (drop (length l - k) (enumerate l)).
Proof.
  unfold repair.
  rewrite <- (take_drop (length l - k) (enumerate l)) at 1.
  rewrite foldl_app, (repair_frozen ids _ (take _ _)); [done|].
  intros im Him%take_enumerate_index.
  rewrite elem_of_list_to_set, elem_of_seq. lia.
Qed.

(** When the last [k] indices are included, the selection ends with the
    last [k] messages. *)
Lemma select_split (I : gset nat) (l : list ModelMessage) (k : nat) :
  (∀ i, length l - k ≤ i < length l → i ∈ I) →
  select I l
  = (filter (λ im : nat * ModelMessage, im.1 ∈ I)
            (take (length l - k) (enumerate l))).*2
    ++ drop (length l - k) l.
Proof.
  intros HI. unfold select.
  rewrite <- (take_drop (length l - k) (enumerate l)) at 1.
  rewrite filter_app, fmap_app. f_equal.
  rewrite (filter_all _ (drop _ _)).
  - by rewrite fmap_drop, enumerate_snd.
  - intros im Him%drop_enumerate_index. by apply HI.
Qed.

Lemma select_front_sublist (I : gset nat) (l : list ModelMessage) a :
  (filter (λ im : nat * ModelMessage, im.1 ∈ I) (take a (enumerate l))).*2
  `sublist_of` take a l.
Proof.
  rewrite <- (enumerate_snd l) at 2. rewrite <- fmap_take.
  apply fmap_sublist, sublist_filter.
Qed.

(** The last [limit] messages are always kept, in their order, at the end of
    the output; what the repair step puts back comes before them and is a
    subsequence of the earlier messages. *)
Theorem window_ends_with_last_messages
    (msgs : list ModelMessage) (limit : Z) (include_tool_messages : bool) :
  (0 < limit)%Z →
  ∃ front,
    filtered_message_history (Some {| all_messages := msgs |}) (Some limit)
      include_tool_messages
    = Some (option_list (List.find has_system_prompt msgs) ++ front ++
            drop (length (non_system_of include_tool_messages msgs)
                  - Z.to_nat limit)
                 (non_system_of include_tool_messages msgs))
    ∧ front `sublist_of`
        take (length (non_system_of include_tool_messages msgs)
              - Z.to_nat limit)
             (non_system_of include_tool_messages msgs).
Proof.
  intros Hpos. rewrite output_shape.
  set (rest := non_system_of include_tool_messages msgs).
  unfold apply_limit. rewrite decide_True by done.
  destruct (scan_tool_ids rest) as [ids rets]. case_decide as Hlen.
  - eexists. split.
    + rewrite (select_split _ rest (Z.to_nat limit)); [done|].
      intros i Hi. apply (repair_mono ids _ rest).
      apply elem_of_list_to_set, elem_of_seq. lia.
    + apply select_front_sublist.
  - exists []. replace (length rest - Z.to_nat limit) with 0 by lia.
    split; [done|]. by rewrite take_0.
Qed.

Lemma window_ends_with_last_messages_witness :
  ∃ front,
    filtered_message_history (Some {| all_messages := history12 |})
      (Some 5%Z) true
    = Some (option_list (List.find has_system_prompt history12) ++ front ++
            drop (length (non_system_of true history12) - Z.to_nat 5)
                 (non_system_of true history12))
    ∧ front `sublist_of`
        take (length (non_system_of true history12) - Z.to_nat 5)
             (non_system_of true history12).
Proof. apply (window_ends_with_last_messages history12 5%Z true). lia. Defined.

Lemma filter_none {A} (P : A → Prop) `{!∀ x, Decision (P x)} (l : list A) :
  (∀ x, x ∈ l → ¬ P x) → filter P l = [].
Proof.
  induction l as [|x l IH]; intros Hl; [done|].
  rewrite filter_cons_False by apply Hl, list_elem_of_here.
  apply IH. intros y Hy. by apply Hl, list_elem_of_further.
Qed.

Lemma repair_part_no_returns ids (I : gset nat) ps :
  return_ids (Msg ps) = [] → foldl (repair_part ids) I ps = I.
Proof.
  unfold return_ids. simpl. induction ps as [|p ps IH]; [done|].
  destruct p; simpl; try done.
Qed.

Lemma repair_no_returns ids (I : gset nat) (el : list (nat * ModelMessage)) :
  (∀ im, im ∈ el → return_ids im.2 = []) →
  foldl (repair_message ids) I el = I.
Proof.
  revert I. induction el as [|[i [ps]] el IH]; intros I Hel; [done|].
  assert (Hstep : repair_message ids I (i, Msg ps) = I).
  { unfold repair_message. simpl.
    rewrite repair_part_no_returns
      by apply (Hel (i, Msg ps)), list_elem_of_here.
    by case_decide. }
  simpl. rewrite Hstep. apply IH.
  intros im Him. by apply Hel, list_elem_of_further.
Qed.

Lemma drop_enumerate_snd {A} (l : list A) a (im : nat * A) :
  im ∈ drop a (enumerate l) → im.2 ∈ drop a l.
Proof.
  intros Him. rewrite <- (enumerate_snd l), <- fmap_drop.
  apply list_elem_of_fmap. by exists im.
Qed.

Lemma output_exact_without_returns
    (msgs : list ModelMessage) (limit : Z) (include_tool_messages : bool) :
  (0 < limit)%Z →
  Forall (λ m, return_ids m = [])
         (drop (length (non_system_of include_tool_messages msgs)
                - Z.to_nat limit)
               (non_system_of include_tool_messages msgs)) →
  filtered_message_history (Some {| all_messages := msgs |}) (Some limit)
    include_tool_messages
  = Some (option_list (List.find has_system_prompt msgs) ++
          drop (length (non_system_of include_tool_messages msgs)
                - Z.to_nat limit)
               (non_system_of include_tool_messages msgs)).
Proof.
  intros Hpos Hret. rewrite output_shape.
  set (rest := non_system_of include_tool_messages msgs) in *.
  unfold apply_limit. rewrite decide_True by done.
  destruct (scan_tool_ids rest) as [ids rets]. case_decide as Hlen.
  - rewrite repair_window, repair_no_returns.
    + rewrite (select_split _ rest (Z.to_nat limit)).
      * rewrite filter_none; [done|].
        intros im Him%take_enumerate_index.
        rewrite elem_of_list_to_set, elem_of_seq. lia.
      * intros i Hi. apply elem_of_list_to_set, elem_of_seq. lia.
    + intros im Him%drop_enumerate_snd.
      by eapply Forall_forall in Hret.
  - by replace (length rest - Z.to_nat limit) with 0 by lia.
Qed.

(** When none of the last [limit] messages carries a tool return, the limit
    is exact: the output is the system message and the last [limit]
    messages (all of them when there are no more than [limit]). *)
Theorem window_is_exact_without_returns
    (msgs : list ModelMessage) (limit : Z) (include_tool_messages : bool) :
  (0 < limit)%Z →
  Forall (λ m, return_ids m = [])
         (drop (length (non_system_of include_tool_messages msgs)
                - Z.to_nat limit)
               (non_system_of include_tool_messages msgs)) →
  filtered_message_history (Some {| all_messages := msgs |}) (Some limit)
    include_tool_messages
  = Some (option_list (List.find has_system_prompt msgs) ++
          drop (length (non_system_of include_tool_messages msgs)
                - Z.to_nat limit)
               (non_system_of include_tool_messages msgs)).
Proof. apply output_exact_without_returns. Qed.

Lemma window_is_exact_without_returns_witness :
  filtered_message_history (Some {| all_messages := history5 |}) (Some 3%Z)
    true
  = Some (option_list (List.find has_system_prompt history5) ++
          drop (length (non_system_of true history5) - Z.to_nat 3)
               (non_system_of true history5)).
Proof.
  apply (window_is_exact_without_returns history5 3%Z true); [lia|].
  vm_compute. repeat constructor.
Defined.

Lemma no_tool_part_no_return (m : ModelMessage) :
  has_tool_part m = false → return_ids m = [].
Proof.
  destruct m as [ps]. unfold has_tool_part, return_ids. simpl.
  induction ps as [|p ps IH]; [done|]. simpl.
  intros [Hp Hps]%orb_false_iff. destruct p; simpl in *; try done; by apply IH.
Qed.

(** With [include_tool_messages=False] a positive limit is an exact cap:
    the output is the system message and the last [limit] of the messages
    that carry neither a system prompt nor a tool part. *)
Theorem window_is_exact_when_tools_excluded
    (msgs : list ModelMessage) (limit : Z) :
  (0 < limit)%Z →
  filtered_message_history (Some {| all_messages := msgs |}) (Some limit)
    false
  = Some (option_list (List.find has_system_prompt msgs) ++
          drop (length (non_system_of false msgs) - Z.to_nat limit)
               (non_system_of false msgs))
  ∧ length (drop (length (non_system_of false msgs) - Z.to_nat limit)
                 (non_system_of false msgs))
    = Z.to_nat limit `min` length (non_system_of false msgs).
Proof.
  intros Hpos. split; [|rewrite length_drop; lia].
  apply output_exact_without_returns; [done|].
  apply Forall_forall. intros m Hm.
  apply no_tool_part_no_return.
  assert (Hm' : m ∈ non_system_of false msgs)
    by (eapply elem_of_sublist; [done|apply sublist_drop]).
  unfold non_system_of in Hm'.
  apply list_elem_of_In, List.filter_In in Hm' as [_ Ht].
  by destruct (has_tool_part m).
Qed.

Lemma window_is_exact_when_tools_excluded_witness :
  filtered_message_history (Some {| all_messages := history12 |}) (Some 2%Z)
    false
  = Some (option_list (List.find has_system_prompt history12) ++
          drop (length (non_system_of false history12) - Z.to_nat 2)
               (non_system_of false history12))
  ∧ length (drop (length (non_system_of false history12) - Z.to_nat 2)
                 (non_system_of false history12))
    = Z.to_nat 2 `min` length (non_system_of false history12).
Proof. apply (window_is_exact_when_tools_excluded history12 2%Z). lia. Defined.

(** *** How far the output can exceed the limit *)

Lemma size_add (j : nat) (I : gset nat) : size ({[j]} ∪ I) ≤ S (size I).
Proof.
  rewrite size_union_alt, size_singleton.
  assert (size (I ∖ {[j]}) ≤ size I).
  { apply subseteq_size. intros x Hx.
    by apply elem_of_difference in Hx as [Hx _]. }
  lia.
Qed.

Lemma repair_part_size ids (I : gset nat) ps :
  size (foldl (repair_part ids) I ps) ≤ size I + length (return_ids (Msg ps)).
Proof.
  unfold return_ids. simpl. revert I.
  induction ps as [|p ps IH]; intros I; simpl; [lia|].
  destruct p as [?|?|?|? ? ?|id ?]; simpl; try apply IH.
  destruct (ids !! id) as [j|].
  - etrans; [apply IH|]. pose proof (size_add j I). unfold omap in *. lia.
  - etrans; [apply IH|]. unfold omap in *. lia.
Qed.

Lemma repair_fold_size ids (I : gset nat) (el : list (nat * ModelMessage)) :
  size (foldl (repair_message ids) I el)
  ≤ size I + length (List.flat_map return_ids el.*2).
Proof.
  revert I. induction el as [|[i [ps]] el IH]; intros I; [simpl; lia|].
  assert (Hfm : List.flat_map return_ids ((i, Msg ps) :: el).*2
                = return_ids (Msg ps) ++ List.flat_map return_ids el.*2)
    by done.
  rewrite Hfm, length_app.
  change (foldl (repair_message ids) I ((i, Msg ps) :: el))
    with (foldl (repair_message ids) (repair_message ids I (i, Msg ps)) el).
  assert (Hstep : size (repair_message ids I (i, Msg ps))
                  ≤ size I + length (return_ids (Msg ps))).
  { unfold repair_message. cbn [fst snd parts].
    case_decide; [apply repair_part_size|lia]. }
  specialize (IH (repair_message ids I (i, Msg ps))). lia.
Qed.

(** No more messages are selected than there are indices in the set. *)
Lemma select_length_le (I : gset nat) (l : list ModelMessage) :
  length (select I l) ≤ size I.
Proof.
  unfold select. rewrite length_fmap.
  set (kept := filter (λ im : nat * ModelMessage, im.1 ∈ I) (enumerate l)).
  rewrite <- (length_fmap fst kept).
  assert (Hnd : NoDup kept.*1).
  { eapply sublist_NoDup; [|apply fmap_sublist, sublist_filter].
    unfold enumerate. rewrite fst_zip by (rewrite length_seq; lia).
    apply NoDup_seq. }
  rewrite <- (size_list_to_set (C := gset nat)) by done.
  apply subseteq_size. intros i Hi. apply elem_of_list_to_set in Hi.
  apply list_elem_of_fmap in Hi as (im & -> & Him).
  by apply list_elem_of_filter in Him as [Him _].
Qed.

(** The output holds at most [limit] messages after the system message,
    plus one for every tool return carried by the last [limit] messages:
    the repair step puts back at most one message per such return. *)
Theorem window_size_bound
    (msgs : list ModelMessage) (limit : Z) (include_tool_messages : bool) :
  (0 < limit)%Z →
  ∃ rest,
    filtered_message_history (Some {| all_messages := msgs |}) (Some limit)
      include_tool_messages
    = Some (option_list (List.find has_system_prompt msgs) ++ rest)
    ∧ length rest
      ≤ Z.to_nat limit
        + length (List.flat_map return_ids
                    (drop (length (non_system_of include_tool_messages msgs)
                           - Z.to_nat limit)
                          (non_system_of include_tool_messages msgs))).
Proof.
  intros Hpos. eexists. split; [apply output_shape|].
  set (rest := non_system_of include_tool_messages msgs).
  unfold apply_limit. rewrite decide_True by done.
  destruct (scan_tool_ids rest) as [ids rets]. case_decide as Hlen; [|lia].
  etrans; [apply select_length_le|].
  rewrite repair_window. etrans; [apply repair_fold_size|].
  rewrite size_list_to_set, length_seq by apply NoDup_seq.
  by rewrite fmap_drop, enumerate_snd.
Qed.

Lemma window_size_bound_witness :
  ∃ rest,
    filtered_message_history (Some {| all_messages := history12 |})
      (Some 5%Z) true
    = Some (option_list (List.find has_system_prompt history12) ++ rest)
    ∧ length rest
      ≤ Z.to_nat 5
        + length (List.flat_map return_ids
                    (drop (length (non_system_of true history12) - Z.to_nat 5)
                          (non_system_of true history12))).
Proof. apply (window_size_bound history12 5%Z true). lia. Defined.

End WindowerMore.

(** ** More on the driver: the accumulator and the chat loop *)

Module DriverMore.
Import Messages Driver DriverSpec DriverMain DriverFacts.

(** *** [dict_set] *)

Lemma dict_set_keys {V} (d : list (string * V)) k v :
  (dict_set d k v).*1 = if decide (k ∈ d.*1) then d.*1 else d.*1 ++ [k].
Proof.
  induction d as [|[k' v'] d IH].
  - case_decide as H; [by apply elem_of_nil in H|done].
  - change (((k', v') :: d).*1) with (k' :: d.*1).
    change (dict_set ((k', v') :: d) k v)
      with (if decide (k' = k) then (k, v) :: d
            else (k', v') :: dict_set d k v).
    destruct (decide (k' = k)) as [->|Hne].
    + by rewrite decide_True by apply list_elem_of_here.
    + change (((k', v') :: dict_set d k v).*1)
        with (k' :: (dict_set d k v).*1).
      rewrite IH. destruct (decide (k ∈ d.*1)) as [Hin|Hnin].
      * by rewrite decide_True by by apply list_elem_of_further.
      * rewrite decide_False; [done|].
        intros [?|?]%elem_of_cons; congruence.
Qed.

Lemma dict_set_NoDup {V} (d : list (string * V)) k v :
  NoDup d.*1 → NoDup (dict_set d k v).*1.
Proof.
  intros Hnd. rewrite dict_set_keys. case_decide; [done|].
  apply NoDup_app. split; [done|]. split; [|apply NoDup_singleton].
  intros x Hx ->%list_elem_of_singleton. done.
Qed.

Lemma dict_set_elem_of {V} (d : list (string * V)) k v x :
  x ∈ (dict_set d k v).*1 ↔ x = k ∨ x ∈ d.*1.
Proof.
  rewrite dict_set_keys. case_decide.
  - split; [by right|]. by intros [->|?].
  - rewrite elem_of_app, list_elem_of_singleton. tauto.
Qed.

Section WithCollaborators.
Variable args_as_dict : string → result string.
Variable json_dumps : option nat → string → result string.

Abbreviation process_part := (process_part args_as_dict json_dumps).
Abbreviation process_parts := (process_parts args_as_dict json_dumps).
Abbreviation consume := (consume args_as_dict json_dumps).
Abbreviation run_with_iter := (run_with_iter args_as_dict json_dumps).

(** *** The text fragments *)

Lemma join_snoc (l : list string) (c : string) :
  join (l ++ [c]) = join l +:+ c.
Proof. rewrite join_app. simpl. by rewrite string_app_nil_r. Qed.

Lemma process_part_text st p st' r :
  process_part st p = (st', r) →
  (final_output (tracker st) = join (text_output (tracker st)) →
   final_output (tracker st') = join (text_output (tracker st'))) ∧
  (r = None →
   text_output (tracker st') = text_output (tracker st) ++ spoken_parts [p]).
Proof.
  unfold Driver.process_part, spoken_parts.
  destruct p as [c|c|c|id name a|id c]; simpl;
    try (intros [= <- <-]; by rewrite app_nil_r).
  - destruct (strip_nonempty c); intros [= <- <-]; simpl;
      [|by rewrite app_nil_r].
    split; [|done]. intros ->. by rewrite join_snoc.
  - unfold add_tool_call. destruct (args_as_dict a) as [a'|e]; simpl;
      [|intros [= <- <-]; split; [done|discriminate]].
    destruct (json_dumps None a'); simpl;
      [|intros [= <- <-]; simpl; split; [done|discriminate]].
    destruct (json_dumps (Some 2) a'); simpl;
      intros [= <- <-]; simpl; split; try done; try discriminate.
    by rewrite app_nil_r.
Qed.

Lemma process_parts_text st ps st' r :
  process_parts st ps = (st', r) →
  (final_output (tracker st) = join (text_output (tracker st)) →
   final_output (tracker st') = join (text_output (tracker st'))) ∧
  (r = None →
   text_output (tracker st') = text_output (tracker st) ++ spoken_parts ps).
Proof.
  revert st. induction ps as [|p ps IH]; intros st.
  - simpl. intros [= <- <-]. by rewrite app_nil_r.
  - change (Driver.process_parts args_as_dict json_dumps st (p :: ps))
      with (match process_part st p with
            | (st1, None) => process_parts st1 ps
            | (st1, Some e) => (st1, Some e)
            end).
    destruct (process_part st p) as [st1 [e|]] eqn:Hp;
      apply process_part_text in Hp as [Hsync Htext].
    + intros [= <- <-]. split; [done|discriminate].
    + intros Hps. apply IH in Hps as [Hsync' Htext'].
      split; [by auto|]. intros Hr.
      rewrite Htext', Htext, <- (spoken_parts_cons p ps), app_assoc by done.
      done.
Qed.

Lemma consume_text st agent_run st' r :
  consume st agent_run = (st', r) →
  (final_output (tracker st) = join (text_output (tracker st)) →
   final_output (tracker st') = join (text_output (tracker st'))) ∧
  (r = None →
   text_output (tracker st') = text_output (tracker st) ++ spoken agent_run).
Proof.
  revert st. induction agent_run as [|s run IH]; intros st.
  - simpl. intros [= <- <-]. by rewrite app_nil_r.
  - destruct s as [node|e]; [|simpl; intros [= <- <-]; split; [done|discriminate]].
    destruct node as [|ps| |]; try apply IH.
    change (Driver.consume args_as_dict json_dumps st
              (Yield (CallToolsNode ps) :: run))
      with (match process_parts st ps with
            | (st1, None) => consume st1 run
            | (st1, Some e) => (st1, Some e)
            end).
    destruct (process_parts st ps) as [st1 [e|]] eqn:Hps;
      apply process_parts_text in Hps as [Hsync Htext].
    + intros [= <- <-]. split; [done|discriminate].
    + intros Hrun. apply IH in Hrun as [Hsync' Htext'].
      split; [by auto|]. intros Hr.
      rewrite Htext', Htext by done. unfold spoken. simpl.
      by rewrite app_assoc.
Qed.

(** The accumulator keeps its two views of the text in step, also when the
    run fails: [final_output] is the concatenation of the fragments in
    [text_output]; after a run without exception the fragments are the
    non-blank text parts of the run, in order. *)
Theorem accumulator_text_in_step
    (agent_run : list Step) (st : RunState) (r : option exn) :
  consume start_state agent_run = (st, r) →
  final_output (tracker st) = join (text_output (tracker st)) ∧
  (r = None → text_output (tracker st) = spoken agent_run).
Proof.
  intros Hrun. apply consume_text in Hrun as [Hsync Htext].
  split; [by apply Hsync|]. intros Hr. by rewrite Htext.
Qed.

(** *** The recorded tool calls *)

Lemma process_part_calls st p st' :
  process_part st p = (st', None) →
  (NoDup (tool_calls (tracker st)).*1 → NoDup (tool_calls (tracker st')).*1) ∧
  ∀ id, id ∈ (tool_calls (tracker st')).*1
        ↔ id ∈ (tool_calls (tracker st)).*1 ∨ id ∈ call_ids (Msg [p]).
Proof.
  unfold Driver.process_part, call_ids.
  destruct p as [c|c|c|i name a|i c]; simpl.
  1,2,5: intros [= <-]; split; [done|];
    intros id; rewrite elem_of_nil; tauto.
  - destruct (strip_nonempty c); intros [= <-]; simpl; (split; [done|]);
      intros id; rewrite elem_of_nil; tauto.
  - unfold add_tool_call. destruct (args_as_dict a) as [a'|e]; simpl;
      [|done].
    destruct (json_dumps None a'); simpl; [|done].
    destruct (json_dumps (Some 2) a'); simpl; [|done].
    intros [= <-]. simpl. split; [apply dict_set_NoDup|].
    intros id. rewrite dict_set_elem_of, list_elem_of_singleton. tauto.
Qed.

Lemma process_parts_calls st ps st' :
  process_parts st ps = (st', None) →
  (NoDup (tool_calls (tracker st)).*1 → NoDup (tool_calls (tracker st')).*1) ∧
  ∀ id, id ∈ (tool_calls (tracker st')).*1
        ↔ id ∈ (tool_calls (tracker st)).*1 ∨ id ∈ call_ids (Msg ps).
Proof.
  revert st. induction ps as [|p ps IH]; intros st.
  - simpl. intros [= <-]. split; [done|]. intros id.
    unfold call_ids. simpl. rewrite elem_of_nil. tauto.
  - change (Driver.process_parts args_as_dict json_dumps st (p :: ps))
      with (match process_part st p with
            | (st1, None) => process_parts st1 ps
            | (st1, Some e) => (st1, Some e)
            end).
    destruct (process_part st p) as [st1 [e|]] eqn:Hp; [done|].
    apply process_part_calls in Hp as [Hnd Hin].
    intros Hps. apply IH in Hps as [Hnd' Hin'].
    split; [by auto|]. intros id. rewrite Hin', Hin.
    assert (Hc : call_ids (Msg (p :: ps))
                 = call_ids (Msg [p]) ++ call_ids (Msg ps))
      by (unfold call_ids; apply (omap_app _ [p] ps)).
    rewrite Hc, elem_of_app. tauto.
Qed.

(** After a run without exception every tool call id of the run is
    recorded in [tool_calls], once, and nothing else is. *)
Theorem tool_calls_recorded_once (agent_run : list Step) (st : RunState) :
  consume start_state agent_run = (st, None) →
  NoDup (tool_calls (tracker st)).*1 ∧
  ∀ id, id ∈ (tool_calls (tracker st)).*1 ↔ id ∈ called_ids agent_run.
Proof.
  assert (Hgen : ∀ run st0 st1,
    consume st0 run = (st1, None) →
    (NoDup (tool_calls (tracker st0)).*1 →
     NoDup (tool_calls (tracker st1)).*1) ∧
    ∀ id, id ∈ (tool_calls (tracker st1)).*1
          ↔ id ∈ (tool_calls (tracker st0)).*1 ∨ id ∈ called_ids run).
  { induction run as [|s run IH]; intros st0 st1.
    - simpl. intros [= <-]. split; [done|]. intros id.
      unfold called_ids. simpl. rewrite elem_of_nil. tauto.
    - destruct s as [node|e]; [|done].
      destruct node as [|ps| |]; try apply IH.
      change (Driver.consume args_as_dict json_dumps st0
                (Yield (CallToolsNode ps) :: run))
        with (match process_parts st0 ps with
              | (st2, None) => consume st2 run
              | (st2, Some e) => (st2, Some e)
              end).
      destruct (process_parts st0 ps) as [st2 [e|]] eqn:Hps; [done|].
      apply process_parts_calls in Hps as [Hnd Hin].
      intros Hrun. apply IH in Hrun as [Hnd' Hin'].
      split; [by auto|]. intros id. rewrite Hin', Hin.
      unfold called_ids. simpl. rewrite elem_of_app. tauto. }
  intros Hrun. apply Hgen in Hrun as [Hnd Hin].
  split; [apply Hnd; constructor|].
  intros id. rewrite Hin. simpl. rewrite elem_of_nil. tauto.
Qed.

End WithCollaborators.

(** *** The chat loop *)

Lemma pair_ind (P : list Entry → Prop) :
  P [] → (∀ x, P [x]) → (∀ x y l, P l → P (x :: y :: l)) → ∀ l, P l.
Proof.
  intros Hnil Hone Hstep l.
  assert (H : P l ∧ ∀ x, P (x :: l)); [|by destruct H].
  induction l as [|y l [IH1 IH2]]; [by split|].
  split; [apply IH2|]. intros x. by apply Hstep.
Qed.

Lemma whole_turns_app (h : list Entry) (u a : Entry) :
  whole_turns h → role u = "user" → role a = "assistant" →
  whole_turns (h ++ [u; a]).
Proof.
  intros Hh Hu Ha. induction h as [|x|x y l IH] using pair_ind; simpl in *;
    [done|done|].
  destruct Hh as (Hx & Hy & Hl). auto.
Qed.

Lemma whole_turns_drop (h : list Entry) (k : nat) :
  whole_turns h → whole_turns (drop (2 * k) h).
Proof.
  revert h. induction k as [|k IH]; intros h Hh; [done|].
  replace (2 * S k) with (S (S (2 * k))) by lia.
  destruct h as [|x [|y l]]; simpl in *; [done|done|].
  destruct Hh as (_ & _ & Hl). by apply IH.
Qed.

Lemma whole_turns_even (h : list Entry) :
  whole_turns h → ∃ k, length h = 2 * k.
Proof.
  induction h as [|x|x y l IH] using pair_ind; simpl; [by exists 0|done|].
  intros (_ & _ & Hl). destruct (IH Hl) as [k Hk]. exists (S k). lia.
Qed.

Section WithAgent.
Variable args_as_dict : string → result string.
Variable json_dumps : option nat → string → result string.
Variable agent_iter : string → list Entry → list Step.

Abbreviation run_with_iter := (run_with_iter args_as_dict json_dumps).
Abbreviation chat := (chat args_as_dict json_dumps agent_iter).

(** A turn hands back whole turns, ten entries at most, when it was given
    such a history. *)
Lemma turn_keeps_whole_turns (agent_run : list Step) (user_input : string)
    (h : list Entry) :
  whole_turns h → length h ≤ 10 →
  whole_turns (history (run_with_iter agent_run user_input (Some h))) ∧
  length (history (run_with_iter agent_run user_input (Some h))) ≤ 10.
Proof.
  intros Hh Hlen. unfold Driver.run_with_iter.
  assert (Hprior : match Some h with
                   | Some (e :: h') => e :: h'
                   | _ => []
                   end = h) by by destruct h.
  rewrite Hprior.
  destruct (Driver.consume _ _ _ _) as [st [e|]]; cbn [history]; [done|].
  set (appended := h ++ _).
  assert (Happ : whole_turns appended) by by apply whole_turns_app.
  case_decide as Hlong.
  - unfold last10. split; [|rewrite length_drop; lia].
    destruct (whole_turns_even _ Happ) as [k Hk].
    replace (length appended - 10) with (2 * (k - 5)) by lia.
    by apply whole_turns_drop.
  - split; [done|lia].
Qed.

Lemma chat_keeps_whole_turns (inputs : list string) (h : list Entry)
    (out : string) :
  whole_turns h → length h ≤ 10 →
  whole_turns (final_history (chat inputs h out)) ∧
  length (final_history (chat inputs h out)) ≤ 10 ∧
  Forall (λ t, whole_turns (history t) ∧ length (history t) ≤ 10)
         (turns (chat inputs h out)).
Proof.
  revert h out. induction inputs as [|line rest IH]; intros h out Hh Hlen.
  - simpl. by repeat split.
  - simpl. destruct (is_exit line); simpl; [by repeat split|].
    destruct (turn_keeps_whole_turns (agent_iter line h) line h Hh Hlen)
      as [Hh' Hlen'].
    destruct (IH _ (out +:+ "> " +:+
                    printed (run_with_iter (agent_iter line h) line (Some h))
                    +:+ nl +:+ nl) Hh' Hlen') as (H1 & H2 & H3).
    split; [done|]. split; [done|]. by constructor.
Qed.

(** Whatever the user types and whatever the agent does, the history the
    chat loop carries from turn to turn never holds more than ten entries
    and is made of whole turns (a user entry followed by an assistant
    entry): a failed turn leaves it alone, a completed turn adds one pair
    and drops the oldest pairs beyond ten entries. *)
Theorem chat_history_bounded (inputs : list string) (out : string) :
  whole_turns (final_history (chat inputs [] out)) ∧
  length (final_history (chat inputs [] out)) ≤ 10 ∧
  Forall (λ t, whole_turns (history t) ∧ length (history t) ≤ 10)
         (turns (chat inputs [] out)).
Proof. apply chat_keeps_whole_turns; simpl; [done|lia]. Qed.

(** The loop stops at the first line that spells [exit] in any letter case:
    the lines after it are never read, and no turn is run for it. *)
Theorem chat_stops_at_exit
    (pre rest : list string) (line : string) (h : list Entry) (out : string) :
  is_exit line = true →
  chat (pre ++ line :: rest) h out = chat (pre ++ [line]) h out ∧
  ending (chat (pre ++ line :: rest) h out) = UserExit ∧
  length (turns (chat (pre ++ line :: rest) h out)) ≤ length pre.
Proof.
  intros Hexit. revert h out. induction pre as [|x pre IH]; intros h out.
  - simpl. rewrite Hexit. simpl. repeat split; lia.
  - simpl. destruct (is_exit x); simpl; [repeat split; lia|].
    destruct (IH (history (run_with_iter (agent_iter x h) x (Some h)))
                 (out +:+ "> " +:+
                  printed (run_with_iter (agent_iter x h) x (Some h))
                  +:+ nl +:+ nl)) as (-> & -> & Hlen).
    repeat split; lia.
Qed.

End WithAgent.

Lemma chat_stops_at_exit_witness :
  chat args_ok dumps_ok echo_agent (["hello"] ++ "Exit" :: ["more"]) [] ""
  = chat args_ok dumps_ok echo_agent (["hello"] ++ ["Exit"]) [] "" ∧
  ending (chat args_ok dumps_ok echo_agent
            (["hello"] ++ "Exit" :: ["more"]) [] "") = UserExit ∧
  length (turns (chat args_ok dumps_ok echo_agent
                   (["hello"] ++ "Exit" :: ["more"]) [] ""))
  ≤ length ["hello"].
Proof.
  apply (chat_stops_at_exit args_ok dumps_ok echo_agent
           ["hello"] ["more"] "Exit" [] "").
  vm_compute. reflexivity.
Defined.

Example chat_hello_then_exit :
  final_history (chat args_ok dumps_ok echo_agent ["hello"; "EXIT"; "x"] [] "")
  = [ {| role := "user"; content := "hello" |};
      {| role := "assistant"; content := "You said: hello" |} ].
Proof. vm_compute. reflexivity. Qed.

Lemma accumulator_text_in_step_witness :
  final_output (tracker tool_run_state)
    = join (text_output (tracker tool_run_state)) ∧
  (@None exn = None →
   text_output (tracker tool_run_state) = spoken tool_run).
Proof.
  apply (accumulator_text_in_step args_ok dumps_ok tool_run).
  vm_compute. reflexivity.
Defined.

Lemma tool_calls_recorded_once_witness :
  NoDup (tool_calls (tracker tool_run_state)).*1 ∧
  ∀ id, id ∈ (tool_calls (tracker tool_run_state)).*1
        ↔ id ∈ called_ids tool_run.
Proof.
  apply (tool_calls_recorded_once args_ok dumps_ok tool_run).
  vm_compute. reflexivity.
Defined.


End DriverMore.


(** ** More on the protocol server: envelopes, dispatch and the loop *)

Module ServerMore.
Import Json Posix PosixOrder Runtime FilesystemMcpFixed ServerSpec
  ServerScenarios MoreScenarios PosixFacts ServerFacts.

Section WithHost.
Variable h : Host.

Abbreviation logged := (logged (log_file h)).

(** What a dispatch that does not raise returns. *)
Lemma dispatch_ok (w w' : World) (function_name params response : json) :
  dispatch h w function_name params = Ok (w', response) →
  ((∃ r, response = JObj [("result", r)]) ∨
   (∃ m, response = JObj [("error", JStr m)])) ∧
  (logged w w' ∨ eq_str function_name "write_file" = true).
Proof.
  unfold dispatch.
  destruct (eq_str function_name "list_files").
  { destruct (bind_kwargs h sig_list_files params) as [args|e]; simpl; [|done].
    unfold call_list_files. destruct args as [|d [|? ?]];
      try (intros [= <- <-]; split; [eauto|left; apply logged_refl]).
    pose proof (list_files_logged h w d).
    destruct (list_files h w d) as [w1 r]. intros [= <- <-]. eauto. }
  destruct (eq_str function_name "read_file").
  { destruct (bind_kwargs h sig_read_file params) as [args|e]; simpl; [|done].
    unfold call_read_file. destruct args as [|d [|? ?]];
      try (intros [= <- <-]; split; [eauto|left; apply logged_refl]).
    pose proof (read_file_logged h w d).
    destruct (read_file h w d) as [w1 r]. intros [= <- <-]. eauto. }
  destruct (eq_str function_name "write_file").
  { destruct (bind_kwargs h sig_write_file params) as [args|e]; simpl; [|done].
    destruct (call_write_file h w args) as [w1 r].
    intros [= <- <-]; eauto. }
  destruct (eq_str function_name "get_file_info").
  { destruct (bind_kwargs h sig_get_file_info params) as [args|e]; simpl;
      [|done].
    unfold call_get_file_info. destruct args as [|d [|? ?]];
      try (intros [= <- <-]; split; [eauto|left; apply logged_refl]).
    pose proof (get_file_info_logged h w d).
    destruct (get_file_info h w d) as [w1 r]. intros [= <- <-]. eauto. }
  intros [= <- <-]. split; [eauto|]. left. apply logged_log.
Qed.

(** What [handle_request] returns for a request object. *)
Lemma handle_request_ok (w w' : World) fields (response : json) :
  handle_request h w (JObj fields) = Ok (w', response) →
  (eq_str (get fields "method") "execute_function" = true →
   (∃ r, response = JObj [("result", r)]) ∨
   (∃ m, response = JObj [("error", JStr m)])) ∧
  (logged w w' ∨
   (eq_str (get fields "method") "execute_function" = true ∧
    eq_str (get fields "function_name") "write_file" = true)).
Proof.
  unfold handle_request.
  set (w0 := info h _ w).
  assert (H0 : logged w w0) by apply logged_log.
  destruct (eq_str (get fields "method") "initialize") eqn:Hinit.
  { simpl. intros [= <- <-]. split.
    - intros Hm. apply not_initialize in Hm. congruence.
    - left. repeat (eapply logged_trans; [|apply logged_log]).
      apply logged_refl. }
  destruct (eq_str (get fields "method") "execute_function") eqn:Hm.
  - set (w1 := info h _ w0).
    assert (H1 : logged w w1) by (eapply logged_trans; [done|apply logged_log]).
    destruct (dispatch h w1 _ _) as [[w2 r]|e] eqn:Hd.
    + intros [= <- <-]. apply dispatch_ok in Hd as [Hshape Hw].
      split; [done|]. destruct Hw; [left|by right].
      by eapply logged_trans.
    + intros [= <- <-]. split; [intros _; right; by eexists|]. left.
      eapply logged_trans; [done|apply logged_log].
  - intros [= <- <-]. split; [done|]. left.
    eapply logged_trans; [done|apply logged_log].
Qed.

(** X11.  Every answer to an [execute_function] request is an envelope
    with one key: [{"result": ...}] when the handler ran,
    [{"error": "<text>"}] otherwise; the request never raises. *)
Theorem execute_function_envelope (w : World) fields :
  eq_str (get fields "method") "execute_function" = true →
  ∃ w' response,
    handle_request h w (JObj fields) = Ok (w', response) ∧
    ((∃ r, response = JObj [("result", r)]) ∨
     (∃ m, response = JObj [("error", JStr m)])).
Proof.
  intros Hm.
  destruct (execute_function_total h w fields Hm)
    as (w' & response & Hreq & _).
  exists w', response. split; [done|].
  by apply handle_request_ok in Hreq as [Hshape _]; auto.
Qed.

(** X12.  Of all requests, only an [execute_function] of [write_file] can
    change more of the file system than the text and the time of the log
    file. *)
Theorem only_write_file_changes_files
    (w w' : World) (request response : json) :
  handle_request h w request = Ok (w', response) →
  ¬ logged w w' →
  ∃ fields,
    request = JObj fields ∧
    eq_str (get fields "method") "execute_function" = true ∧
    eq_str (get fields "function_name") "write_file" = true.
Proof.
  intros Hreq Hne. destruct request as [| | | | | |fields]; try done.
  exists fields. split; [done|].
  apply handle_request_ok in Hreq as [_ [?|?]]; done.
Qed.

(** *** Advertised tools *)

(** X13.  Every tool that [get_tool_specs] lists is dispatched: a request
    for it whose parameters are an object with only properties of its
    schema, all required ones among them, is answered with a result
    envelope (the handler runs), never with an error envelope. *)
Theorem advertised_tools_are_dispatched
    (w : World) fields (s : ToolSpec) kwargs :
  s ∈ (get_tool_specs h w).2 →
  eq_str (get fields "method") "execute_function" = true →
  get fields "function_name" = JStr (spec_name s) →
  dict_get fields "parameters" = Some (JObj kwargs) →
  (∀ k, k ∈ kwargs.*1 → k ∈ (properties s).*1) →
  (∀ f, f ∈ default [] (required s) → is_Some (dict_get kwargs f)) →
  ∃ w' r, handle_request h w (JObj fields) = Ok (w', JObj [("result", r)]).
Proof.
  intros Hs Hm Hname Hparams Hkeys Hreq.
  unfold handle_request.
  rewrite (not_initialize _ Hm), Hm, Hname, Hparams. simpl.
  set (w1 := info h _ (info h _ w)). clearbody w1.
  unfold dispatch, tool_specs in *.
  repeat (apply elem_of_cons in Hs as [->|Hs]);
    try (by apply elem_of_nil in Hs); simpl in *.
  - unfold bind_kwargs. simpl.
    rewrite (no_unexpected_keyword kwargs ["directory"] Hkeys).
    unfold bind_param. simpl.
    destruct (dict_get kwargs "directory") as [v|]; simpl.
    + destruct (list_files h w1 v). eauto.
    + destruct (list_files h w1 (JStr ".")). eauto.
  - unfold bind_kwargs. simpl.
    rewrite (no_unexpected_keyword kwargs ["file_path"] Hkeys).
    unfold bind_param. simpl.
    destruct (Hreq "file_path") as [v ->]; [apply list_elem_of_here|].
    simpl. destruct (read_file h w1 v). eauto.
  - unfold bind_kwargs. simpl.
    rewrite (no_unexpected_keyword kwargs ["file_path"; "content"] Hkeys).
    unfold bind_param. simpl.
    destruct (Hreq "file_path") as [v ->]; [apply list_elem_of_here|].
    destruct (Hreq "content") as [c ->];
      [apply list_elem_of_further, list_elem_of_here|].
    simpl. destruct (write_file h w1 v c) as [w2 r]. eauto.
  - unfold bind_kwargs. simpl.
    rewrite (no_unexpected_keyword kwargs ["file_path"] Hkeys).
    unfold bind_param. simpl.
    destruct (Hreq "file_path") as [v ->]; [apply list_elem_of_here|].
    simpl. destruct (get_file_info h w1 v). eauto.
Qed.

(** *** The loop *)

Lemma main_loop_length (w : World) (lines : list string) :
  Forall (λ line, line ≠ "") lines →
  length (main_loop h w lines).2 = length lines.
Proof.
  intros Hlines. revert w.
  induction Hlines as [|line lines Hline _ IH]; intros w; [done|].
  simpl. rewrite decide_False by done.
  destruct (round h w line) as [w1 doc]. specialize (IH w1).
  destruct (main_loop h w1 lines) as [w2 docs]. simpl in *. by rewrite IH.
Qed.

(** X14.  The server prints exactly one document for every line it reads,
    be the line a request, something else or no JSON at all. *)
Theorem one_document_per_line (w : World) (stdin : string) :
  length (main h w stdin).2 = length (readlines stdin).
Proof.
  unfold main.
  set (w1 := info h _ (info h _ (info h _ w))).
  rewrite <- (main_loop_length w1 (readlines stdin))
    by apply readlines_nonempty.
  by destruct (main_loop h w1 (readlines stdin)).
Qed.

(** A round changes more than the log only if its line is a [write_file]
    request. *)
Lemma round_world (w : World) (line : string) :
  logged w (round h w line).1 ∨
  ∃ fields,
    json_loads h line = Ok (JObj fields) ∧
    eq_str (get fields "method") "execute_function" = true ∧
    eq_str (get fields "function_name") "write_file" = true.
Proof.
  unfold round, serve_line.
  set (w1 := debug h _ (debug h _ w)).
  assert (H1 : logged w w1)
    by (eapply logged_trans; apply logged_log).
  assert (Hraise : ∀ e,
    logged w match exn_kind_of e with
             | JSONDecodeError =>
                 (error h ("Line content: " +:+ Text.strip line)
                    (error h ("Error decoding JSON: " +:+ exn_msg e) w1),
                  JObj [("error", JStr ("Invalid JSON: " +:+ exn_msg e))])
             | _ =>
                 (error h ("Unexpected error: " +:+ exn_msg e) w1,
                  JObj [("error", JStr ("Server error: " +:+ exn_msg e))])
             end.1).
  { intros e. destruct (exn_kind_of e); simpl;
      repeat (eapply logged_trans; [|apply logged_log]); apply logged_refl. }
  destruct (json_loads h line) as [request|e]; simpl; [|left; apply Hraise].
  destruct (handle_request h w1 request) as [[w2 response]|e] eqn:Hreq;
    simpl; [|left; apply Hraise].
  destruct request as [| | | | | |fields]; try done.
  apply handle_request_ok in Hreq as [_ [Hl|?]]; [left|right; by exists fields].
  do 2 (eapply logged_trans; [|apply logged_log]).
  by eapply logged_trans.
Qed.

(** X15.  A session without [write_file] requests leaves the file system
    as it was, but for the text and the time of the log file. *)
Theorem session_without_writes_changes_nothing
    (w : World) (lines : list string) :
  Forall (λ line, ∀ fields,
            json_loads h line = Ok (JObj fields) →
            eq_str (get fields "function_name") "write_file" = false)
         lines →
  logged w (main_loop h w lines).1.
Proof.
  intros Hlines. revert w.
  assert (Hend : ∀ w, logged w (info h "End of input stream, shutting down"
                                  (debug h "Waiting for input line..." w))).
  { intros w. eapply logged_trans; apply logged_log. }
  induction Hlines as [|line lines Hline _ IH]; intros w; [apply Hend|].
  simpl. case_decide; [apply Hend|].
  destruct (round h w line) as [w1 doc] eqn:Hround.
  assert (Hw : logged w w1).
  { destruct (round_world w line) as [Hsame|(fields & Hl & _ & Hf)].
    - by rewrite Hround in Hsame.
    - rewrite (Hline _ Hl) in Hf. done. }
  specialize (IH w1). destruct (main_loop h w1 lines) as [w2 docs].
  simpl in *. by eapply logged_trans.
Qed.

End WithHost.

(** *** The theorems at work *)

Lemma execute_function_envelope_witness :
  ∃ w' response,
    handle_request demo_host demo_world (JObj read_request)
      = Ok (w', response) ∧
    ((∃ r, response = JObj [("result", r)]) ∨
     (∃ m, response = JObj [("error", JStr m)])).
Proof.
  apply (execute_function_envelope demo_host demo_world read_request).
  vm_compute. reflexivity.
Defined.

Lemma only_write_file_changes_files_witness :
  ∃ fields,
    JObj write_request = JObj fields ∧
    eq_str (get fields "method") "execute_function" = true ∧
    eq_str (get fields "function_name") "write_file" = true.
Proof.
  eapply (only_write_file_changes_files demo_host demo_world _
            (JObj write_request)).
  - vm_compute. reflexivity.
  - intros (_ & _ & Hn).
    destruct (Hn ["home"; "agent"; "notes.txt"]) as [H|[H _]];
      vm_compute in H; discriminate H.
Defined.

Lemma advertised_tools_are_dispatched_witness :
  ∃ w' r,
    handle_request demo_host demo_world (JObj write_request)
    = Ok (w', JObj [("result", r)]).
Proof.
  eapply (advertised_tools_are_dispatched demo_host demo_world write_request
            write_file_spec).
  - vm_compute. do 2 apply list_elem_of_further. apply list_elem_of_here.
  - vm_compute. reflexivity.
  - vm_compute. reflexivity.
  - vm_compute. reflexivity.
  - intros k Hk. exact Hk.
  - intros f Hf. simpl in Hf.
    apply elem_of_cons in Hf as [->|Hf]; [by eexists|].
    apply list_elem_of_singleton in Hf as ->. by eexists.
Defined.

Lemma session_without_writes_changes_nothing_witness :
  logged (log_file demo_host) demo_world
    (main_loop demo_host demo_world [init_line; bad_line]).1.
Proof.
  apply (session_without_writes_changes_nothing demo_host
           demo_world [init_line; bad_line]).
  repeat constructor; intros fields Hl; vm_compute in Hl;
    first [discriminate Hl | injection Hl as <-; reflexivity].
Defined.

(** A read request leaves its trace in the log, and nowhere else. *)
Example read_request_is_logged :
  match handle_request demo_host demo_world (JObj read_request) with
  | Ok (w', _) =>
      w' ≠ demo_world ∧
      nodes w' !! ["home"; "agent"; "readme.md"]
      = nodes demo_world !! ["home"; "agent"; "readme.md"]
  | Raise _ => False
  end.
Proof.
  vm_compute. split; [|reflexivity]. intros H.
  apply (f_equal (λ w, nodes w !! ["home"; "agent"; "filesystem_mcp.log"]))
    in H. vm_compute in H. discriminate H.
Qed.

End ServerMore.

(** ** More on the handlers: what a write leaves behind *)

Module HandlersMore.
Import Json Posix PosixOrder Runtime FilesystemMcpFixed ServerSpec
  ServerScenarios MoreScenarios PosixFacts ServerFacts.

Section WithHost.
Variable h : Host.

Abbreviation logged := (logged (log_file h)).

(** X16.  Whatever its outcome, [write_file] of [p] leaves every other
    file as it was: for a path [q] that named a file before (no special
    file), other than the log file and the file [p] names, [read_file] and
    [get_file_info] answer after the write as they did before. *)
Theorem write_file_leaves_other_files
    (w w' : World) (p c q : string) (r : json) :
  write_file h w (JStr p) (JStr c) = (w', r) →
  is_file w (parse q) = true →
  is_special w (parse q) = false →
  resolve w (parse q) ≠ inr (log_file h) →
  resolve w' (parse q) ≠ resolve w' (parse p) →
  (read_file h w' (JStr q)).2 = (read_file h w (JStr q)).2 ∧
  (get_file_info h w' (JStr q)).2 = (get_file_info h w (JStr q)).2.
Proof.
  intros Hw Hfile _ Hlog Hdiff.
  (* the node [q] names, which is no directory *)
  unfold is_file, stat in Hfile.
  destruct (resolve w (parse q)) as [e|k] eqn:Hq; [done|].
  destruct (node_at w k) as [n|] eqn:Hk; [|done].
  assert (Hnd : ∀ s t, n ≠ Dir s t) by (intros s t ->; done).
  assert (HkL : k ≠ log_file h) by congruence.
  (* it is there after the write *)
  assert (Hafter : resolve w' (parse q) = inr k ∧ node_at w' k = Some n
                   ∧ cwd w' = cwd w).
  { apply write_file_cases in Hw
      as (w1 & Hg & [[Hl _]|(w2 & Hwt & -> & _)]).
    - destruct (stat_grows _ _ _ _ _ _ Hg Hq Hk Hnd) as [Hq1 Hk1].
      { by intros ->%list_elem_of_singleton. }
      rewrite (resolve_logged _ _ _ _ Hl), (node_at_logged_ne _ _ _ _ Hl HkL).
      destruct Hg as (Hc & _), Hl as (Hc' & _). split; [done|]. split; [done|].
      congruence.
    - destruct (stat_grows _ _ _ _ _ _ Hg Hq Hk Hnd) as [Hq1 Hk1].
      { by intros ->%list_elem_of_singleton. }
      pose proof Hwt as (key & Hentry & _)%write_text_inv.
      pose proof (write_text_grows _ _ _ _ _ Hwt Hentry) as Hg2.
      pose proof (resolve_grows _ _ _ _ _ Hg2 Hq1) as Hq2.
      pose proof (resolve_grows _ _ _ _ _ Hg2
                    (resolve_entry_resolve _ _ _ Hentry)) as Hp2.
      unfold info in *. rewrite !resolve_log in Hdiff.
      rewrite Hq2, Hp2 in Hdiff.
      destruct (stat_grows _ _ _ _ _ _ Hg2 Hq1 Hk1 Hnd) as [_ Hk2].
      { intros ->%list_elem_of_singleton. done. }
      rewrite resolve_log, node_at_log, cwd_log by done.
      destruct Hg as (Hc & _), Hg2 as (Hc' & _). split; [done|].
      split; [done|]. congruence. }
  destruct Hafter as (Hq' & Hk' & Hcwd).
  assert (Habs : absolute w' (parse q) = absolute w (parse q)).
  { unfold absolute. by rewrite Hcwd. }
  rewrite (read_file_answer h w' q k n Hq' HkL Hk'),
          (read_file_answer h w q k n Hq HkL Hk),
          (get_file_info_answer h w' q k n Hq' HkL Hk'),
          (get_file_info_answer h w q k n Hq HkL Hk), Habs.
  unfold is_file, is_dir, stat. by rewrite Hq', Hk', Hq, Hk.
Qed.

(** X17.  After a successful [write_file] of [c] to [p], which names
    neither a special file nor the log file, [get_file_info] of [p] reports
    a regular file of [len(c)] bytes under the last part of [p] as its
    name, modified at the time of the write. *)
Theorem write_then_get_file_info (w w' : World) (p c : string) fields :
  write_file h w (JStr p) (JStr c) = (w', JObj fields) →
  dict_get fields "success" = Some (JBool true) →
  is_special w' (parse p) = false →
  resolve w' (parse p) ≠ inr (log_file h) →
  (get_file_info h w' (JStr p)).2
  = JObj [("name", JStr (name (parse p)));
          ("size", JNum (Z.of_nat (String.length c)));
          ("modified", JFloat (clock w));
          ("is_file", JBool true);
          ("is_dir", JBool false);
          ("path", JStr (to_str (absolute w' (parse p))))].
Proof.
  intros Hw Hs Hsp Hlog.
  destruct (write_file_success _ _ _ _ _ _ Hw Hs)
    as (key & Hres & Hnode & Hfile & _ & _ & _ & Hdir & _).
  assert (Hkey : key ≠ log_file h) by congruence.
  rewrite (get_file_info_answer h w' p key _ Hres Hkey (Hnode Hsp Hkey)).
  by rewrite (Hfile Hsp), Hdir.
Qed.

(** X18.  After a successful [write_file] the parent of the path is a
    directory, and the path exists and is no directory: missing
    directories were made.  The path is a regular file unless it names a
    special file. *)
Theorem write_file_makes_parents (w w' : World) (p c : string) fields :
  write_file h w (JStr p) (JStr c) = (w', JObj fields) →
  dict_get fields "success" = Some (JBool true) →
  is_dir w' (parent (parse p)) = true ∧
  path_exists w' (parse p) = true ∧
  is_dir w' (parse p) = false ∧
  (is_special w' (parse p) = false → is_file w' (parse p) = true).
Proof.
  intros Hw Hs.
  destruct (write_file_success _ _ _ _ _ _ Hw Hs)
    as (key & _ & _ & Hfile & Hpar & _ & Hex & Hdir & _).
  done.
Qed.

(** X19.  [write_file] on a path that is a directory fails with the error
    of the system, in which the path is printed with [repr]; only the two
    lines of the log are written. *)
Theorem write_file_on_directory_fails (w : World) (p c : string) :
  is_dir w (parse p) = true →
  let message :=
    "[Errno 21] Is a directory: "
    +:+ Text.repr (isprintable h) (to_str (parse p)) in
  write_file h w (JStr p) (JStr c)
  = (error h ("Error writing file: " +:+ message)
       (info h ("Writing to file: " +:+ p) w),
     JObj [("error", JStr message)]).
Proof.
  intros Hdir message.
  assert (Hdir0 : is_dir (info h ("Writing to file: " +:+ p) w) (parse p)
                  = true) by (unfold info; by rewrite is_dir_log).
  unfold write_file, make_path. cbn [py_str].
  set (w0 := info h ("Writing to file: " +:+ p) w) in *. clearbody w0.
  unfold is_dir, stat in Hdir0.
  destruct (resolve w0 (parse p)) as [e|key] eqn:Hres; [done|].
  destruct (node_at w0 key) as [[|s m|]|] eqn:Hkey; try done.
  assert (Hpar : path_exists w0 (parent (parse p)) = true
                 ∧ write_text w0 (parse p) c
                   = inl {| os_errno := EISDIR; filename := parse p |}).
  { destruct (tail (parse p)) as [|x xs] eqn:Htail.
    - split.
      + unfold path_exists, stat, resolve, parent in *. cbn [root tail].
        rewrite Htail in *. cbn [removelast walk] in *.
        change (root (parse p)) with (root_of p) in *.
        injection Hres as Hres. by rewrite Hres, Hkey.
      + unfold write_text, resolve_entry. by rewrite Htail.
    - assert (Hne : tail (parse p) ≠ []) by by rewrite Htail.
      destruct (resolve_through_parent _ _ _ Hne Hres)
        as (dir & s' & m' & Hpdir & Hnode & Hentry).
      split.
      + unfold path_exists, stat. by rewrite Hpdir, Hnode.
      + unfold write_text. by rewrite Hentry, Hkey. }
  destruct Hpar as [-> Hwt]. simpl. by rewrite Hwt.
Qed.

(** *** The size [read_file] reports *)

(** X20.  When [read_file] returns the content of a file that is no
    special file, it also returns a size, and the size (the bytes in the
    file) is at least the length of the content: reading in text mode can
    only shorten the text. *)
Theorem read_file_size_covers_content
    (w : World) (p : string) fields (content : string) :
  (read_file h w (JStr p)).2 = JObj fields →
  dict_get fields "content" = Some (JStr content) →
  is_special w (parse p) = false →
  ∃ size : Z,
    dict_get fields "size" = Some (JNum size) ∧
    (Z.of_nat (String.length content) ≤ size)%Z.
Proof.
  unfold read_file, make_path. cbn [py_str].
  set (w1 := info h _ w). intros Hr Hc Hsp.
  assert (Hsp1 : is_special w1 (parse p) = false)
    by (unfold w1, info; by rewrite is_special_log).
  clearbody w1. revert Hr.
  destruct (negb (path_exists w1 (parse p)));
    [simpl; intros [= <-]; discriminate Hc|].
  destruct (negb (is_file w1 (parse p)));
    [simpl; intros [= <-]; discriminate Hc|].
  unfold read_text, is_special in *.
  destruct (stat w1 (parse p)) as [e|[d t|s t|r s t x wr]] eqn:Hstat;
    try (simpl; intros [= <-]; discriminate Hc); [|done].
  destruct (stat_log_file h "INFO"
              ("Successfully read "
               +:+ pretty (Text.len (universal_newlines d))
               +:+ " bytes from " +:+ p) w1 (parse p) d t Hstat)
    as (d' & t' & Hstat' & Hlen).
  unfold info. rewrite Hstat'. simpl. intros [= <-].
  injection Hc as <-. eexists. split; [done|].
  pose proof (universal_newlines_length d). simpl. lia.
Qed.

(** *** A written file in the listing of its directory *)

Lemma child_of_parent (w : World) (p : Path) :
  tail p ≠ [] → stat w (child (parent p) (name p)) = stat w p.
Proof.
  intros Hne. unfold stat, resolve, child. cbn [root tail].
  change (root (parent p)) with (root p). by rewrite <- tail_split.
Qed.

(** X21.  After a successful [write_file] of [p], which names no special
    file, [list_files] of the directory of [p] succeeds and lists the name
    of [p] among the files, not among the directories. *)
Theorem written_file_is_listed (w w' : World) (p c d : string) fields :
  write_file h w (JStr p) (JStr c) = (w', JObj fields) →
  dict_get fields "success" = Some (JBool true) →
  is_special w' (parse p) = false →
  parse d = parent (parse p) →
  name (parse p) ≠ ".." →
  ∃ files directories,
    (list_files h w' (JStr d)).2
    = JObj [("files", JArr (JStr <$> files));
            ("directories", JArr (JStr <$> directories));
            ("path", JStr (to_str (absolute w' (parse d))))] ∧
    name (parse p) ∈ files ∧ name (parse p) ∉ directories.
Proof.
  intros Hw Hs Hsp Hd Hname.
  destruct (write_file_success _ _ _ _ _ _ Hw Hs)
    as (key & Hres & _ & Hfile & Hpar & Hne & Hex & Hdir & _).
  specialize (Hfile Hsp).
  destruct (resolve_through_parent _ _ _ Hne Hres)
    as (dir & s & m & Hpdir & Hnode & Hentry).
  (* the key of the file is a child of the key of the directory *)
  assert (Hk : key = dir ++ [name (parse p)]).
  { unfold resolve_entry in Hentry. rewrite Hpdir, Hnode in Hentry.
    rewrite decide_False in Hentry by done.
    destruct (tail (parse p)); [done|]. congruence. }
  assert (Hin : key ∈ elements (dom (nodes w'))).
  { apply elem_of_elements, elem_of_dom.
    unfold path_exists, stat in Hex. rewrite Hres in Hex.
    destruct (node_at w' key) as [n|] eqn:Hn; [|done].
    rewrite Hk in Hn |- *. destruct dir; simpl in *; by eexists. }
  assert (Hls : ∃ items, listdir w' (parse d) = inr items
                         ∧ name (parse p) ∈ items).
  { rewrite Hd. unfold listdir, stat. rewrite Hpdir, Hnode.
    eexists. split; [done|].
    apply list_elem_of_omap. exists key. split; [done|].
    rewrite Hk, removelast_last, last_last, decide_True by done.
    by destruct dir. }
  destruct Hls as (items & Hls & Hitem).
  assert (Hexd : path_exists w' (parse d) = true).
  { rewrite Hd. unfold path_exists, stat. by rewrite Hpdir, Hnode. }
  rewrite (list_files_answer h w' d items Hexd Hls).
  eexists _, _. split; [reflexivity|]. rewrite Hd. split.
  - apply list_elem_of_In, List.filter_In. split; [by apply list_elem_of_In|].
    unfold is_file in *. by rewrite child_of_parent.
  - intros Hin'. apply list_elem_of_In, List.filter_In in Hin' as [_ Hin'].
    unfold is_dir in *. rewrite child_of_parent in Hin' by done. congruence.
Qed.

End WithHost.

(** *** The theorems at work *)

Lemma written_file_is_listed_witness :
  ∃ files directories,
    (list_files demo_host
       (write_file demo_host demo_world (JStr "notes.txt") (JStr lf_text)).1
       (JStr ".")).2
    = JObj [("files", JArr (JStr <$> files));
            ("directories", JArr (JStr <$> directories));
            ("path",
             JStr (to_str
                     (absolute
                        (write_file demo_host demo_world (JStr "notes.txt")
                                    (JStr lf_text)).1
                        (parse "."))))] ∧
    name (parse "notes.txt") ∈ files ∧
    name (parse "notes.txt") ∉ directories.
Proof.
  eapply (written_file_is_listed demo_host demo_world _ "notes.txt" lf_text
            ".").
  - vm_compute. reflexivity.
  - vm_compute. reflexivity.
  - vm_compute. reflexivity.
  - vm_compute. reflexivity.
  - vm_compute. discriminate.
Defined.

Lemma write_file_leaves_other_files_witness :
  (read_file demo_host
     (write_file demo_host demo_world (JStr "notes.txt") (JStr lf_text)).1
     (JStr "readme.md")).2
    = (read_file demo_host demo_world (JStr "readme.md")).2 ∧
  (get_file_info demo_host
     (write_file demo_host demo_world (JStr "notes.txt") (JStr lf_text)).1
     (JStr "readme.md")).2
    = (get_file_info demo_host demo_world (JStr "readme.md")).2.
Proof.
  eapply (write_file_leaves_other_files demo_host demo_world _ "notes.txt"
            lf_text "readme.md").
  - vm_compute. reflexivity.
  - vm_compute. reflexivity.
  - vm_compute. reflexivity.
  - vm_compute. intros H. discriminate H.
  - vm_compute. intros H. discriminate H.
Defined.

(** The directory in which the file was made is not as it was: it was
    modified at the time of the write. *)
Example write_file_touches_directory :
  (get_file_info demo_host demo_world (JStr ".")).2
  = JObj [("name", JStr ""); ("size", JNum 4096); ("modified", JFloat 100);
          ("is_file", JBool false); ("is_dir", JBool true);
          ("path", JStr "/home/agent")]
  ∧ (get_file_info demo_host
       (write_file demo_host demo_world (JStr "notes.txt") (JStr lf_text)).1
       (JStr ".")).2
    = JObj [("name", JStr ""); ("size", JNum 4096); ("modified", JFloat 300);
            ("is_file", JBool false); ("is_dir", JBool true);
            ("path", JStr "/home/agent")].
Proof. split; vm_compute; reflexivity. Qed.

(** The directories made before [mkdir] fails stay. *)
Example failed_write_leaves_directories :
  (write_file demo_host demo_world (JStr "nodir/../readme.md/x.txt")
              (JStr "x")).2
  = JObj [("error", JStr "[Errno 17] File exists: 'nodir/../readme.md'")]
  ∧ is_dir (write_file demo_host demo_world
              (JStr "nodir/../readme.md/x.txt") (JStr "x")).1
           (parse "nodir") = true.
Proof. split; vm_compute; reflexivity. Qed.

Lemma write_then_get_file_info_witness :
  (get_file_info demo_host
     (write_file demo_host demo_world (JStr "notes.txt") (JStr lf_text)).1
     (JStr "notes.txt")).2
  = JObj [("name", JStr (name (parse "notes.txt")));
          ("size", JNum (Z.of_nat (String.length lf_text)));
          ("modified", JFloat (clock demo_world));
          ("is_file", JBool true);
          ("is_dir", JBool false);
          ("path",
           JStr (to_str
                   (absolute
                      (write_file demo_host demo_world (JStr "notes.txt")
                                  (JStr lf_text)).1
                      (parse "notes.txt"))))].
Proof.
  eapply (write_then_get_file_info demo_host demo_world _ "notes.txt"
            lf_text).
  - vm_compute. reflexivity.
  - vm_compute. reflexivity.
  - vm_compute. reflexivity.
  - vm_compute. intros H. discriminate H.
Defined.

Lemma write_file_makes_parents_witness :
  is_dir (write_file demo_host demo_world (JStr "a/b/c.txt") (JStr "x")).1
         (parent (parse "a/b/c.txt")) = true ∧
  path_exists (write_file demo_host demo_world (JStr "a/b/c.txt")
                          (JStr "x")).1
              (parse "a/b/c.txt") = true ∧
  is_dir (write_file demo_host demo_world (JStr "a/b/c.txt") (JStr "x")).1
         (parse "a/b/c.txt") = false ∧
  (is_special (write_file demo_host demo_world (JStr "a/b/c.txt")
                          (JStr "x")).1
              (parse "a/b/c.txt") = false →
   is_file (write_file demo_host demo_world (JStr "a/b/c.txt") (JStr "x")).1
           (parse "a/b/c.txt") = true).
Proof.
  eapply (write_file_makes_parents demo_host demo_world _ "a/b/c.txt" "x").
  - vm_compute. reflexivity.
  - vm_compute. reflexivity.
Defined.

Lemma write_file_on_directory_fails_witness :
  let message :=
    "[Errno 21] Is a directory: "
    +:+ Text.repr (isprintable demo_host) (to_str (parse "/tmp")) in
  write_file demo_host demo_world (JStr "/tmp") (JStr "x")
  = (error demo_host ("Error writing file: " +:+ message)
       (info demo_host ("Writing to file: " +:+ "/tmp") demo_world),
     JObj [("error", JStr message)]).
Proof.
  apply (write_file_on_directory_fails demo_host demo_world "/tmp" "x").
  vm_compute. reflexivity.
Defined.

(** The name of a directory that holds a quote is printed between double
    quotes. *)
Example write_file_on_quoted_directory :
  (write_file demo_host
     {| nodes := <[ ["it's"] := Dir 4096 100 ]> ∅; cwd := []; clock := 1 |}
     (JStr "it's") (JStr "x")).2
  = JObj [("error",
           JStr ("[Errno 21] Is a directory: "
                 +:+ dq +:+ "it's" +:+ dq))].
Proof. vm_compute. reflexivity. Qed.

Lemma read_file_size_covers_content_witness :
  ∃ size : Z,
    dict_get [("content", JStr "hello"); ("size", JNum 5);
              ("path", JStr "/home/agent/readme.md")] "size"
      = Some (JNum size) ∧
    (Z.of_nat (String.length "hello") ≤ size)%Z.
Proof.
  apply (read_file_size_covers_content demo_host demo_world "readme.md").
  - vm_compute. reflexivity.
  - vm_compute. reflexivity.
  - vm_compute. reflexivity.
Defined.

(** For a file of [procfs] the size [stat] reports says nothing of the
    content. *)
Example read_file_of_procfs :
  (read_file demo_host demo_world (JStr "/proc/version")).2
  = JObj [("content", JStr "Linux version 6.1"); ("size", JNum 0);
          ("path", JStr "/proc/version")].
Proof. vm_compute. reflexivity. Qed.

End HandlersMore.

(** ** The two servers side by side *)

Module SiblingFacts.
Import Json Posix Runtime FilesystemMcpFixed FilesystemMcpHandlers
  ServerScenarios.

Section WithHost.
Variable h : Host.

(** X22.  [list_files] of the FastMCP server returns a response unless the
    directory of the request is [None]: then the [except] branch builds
    the path again and the [TypeError] leaves the handler. *)
Theorem list_files_returns_unless_none
    (w : World) (request : FilesystemMcp.ListFilesRequest) :
  (∃ r, (FilesystemMcp.list_files h w request).2 = Ok r)
  ↔ FilesystemMcp.directory request ≠ None.
Proof.
  unfold FilesystemMcp.list_files, FilesystemMcp.request_path.
  destruct (FilesystemMcp.directory request) as [d|]; simpl.
  - split; [done|]. intros _.
    destruct (negb (path_exists _ (parse d))); [by eexists|].
    destruct (listdir _ (parse d)); simpl; by eexists.
  - split; [by intros [r Hr]|done].
Qed.

(** X23.  [read_file] of the FastMCP server and [read_file] of the
    protocol server log the same lines and give the same answer: the
    fields that the first sets are the object the second returns. *)
Theorem read_file_siblings_agree (w : World) (p : string) :
  ((read_file h w {| ReadFile.file_path := p |}).1,
   read_response_json (read_file h w {| ReadFile.file_path := p |}).2)
  = FilesystemMcpFixed.read_file h w (JStr p).
Proof.
  unfold read_file, FilesystemMcpFixed.read_file. simpl.
  destruct (negb (path_exists _ (parse p))); [done|].
  destruct (negb (is_file _ (parse p))); [done|].
  destruct (read_text _ (parse p)); [done|].
  by destruct (stat _ (parse p)).
Qed.

(** X24.  [write_file] of the two servers leaves the same file system
    (and log); when the write succeeds they give the same answer, and when
    it fails the FastMCP server reports [success=False] with the error
    text that the protocol server returns alone. *)
Theorem write_file_siblings_agree (w : World) (p c : string) :
  (write_file h w {| WriteFile.file_path := p; WriteFile.content := c |}).1
  = (FilesystemMcpFixed.write_file h w (JStr p) (JStr c)).1 ∧
  let r := (write_file h w {| WriteFile.file_path := p;
                              WriteFile.content := c |}).2 in
  if WriteFile.success r
  then write_response_json r
       = (FilesystemMcpFixed.write_file h w (JStr p) (JStr c)).2
  else ∃ m,
         WriteFile.error r = Some m ∧
         WriteFile.message r = "Failed to write to " +:+ p ∧
         WriteFile.path r = None ∧
         (FilesystemMcpFixed.write_file h w (JStr p) (JStr c)).2
         = JObj [("error", JStr m)].
Proof.
  unfold write_file, FilesystemMcpFixed.write_file. simpl.
  destruct (if negb (path_exists _ (parent (parse p))) then _ else _)
    as [w1 [e|]]; simpl.
  - split; [done|]. by eexists.
  - destruct (write_text w1 (parse p) c) as [e|w2]; simpl;
      (split; [done|]); [by eexists|done].
Qed.

End WithHost.

Example write_fails_on_both_servers :
  (write_file demo_host demo_world
     {| WriteFile.file_path := "/tmp"; WriteFile.content := "x" |}).2
  = {| WriteFile.success := false;
       WriteFile.message := "Failed to write to /tmp";
       WriteFile.path := None;
       WriteFile.error := Some "[Errno 21] Is a directory: '/tmp'" |}.
Proof. vm_compute. reflexivity. Qed.

(** With [None] as directory the handler of the FastMCP server raises. *)
Example list_files_none_raises :
  (FilesystemMcp.list_files demo_host demo_world
     {| FilesystemMcp.directory := None |}).2
  = Raise (Exn TypeError
             "expected str, bytes or os.PathLike object, not NoneType").
Proof. vm_compute. reflexivity. Qed.

End SiblingFacts.
